(** * makeitreal: the idea map (IdeaMap.tsx) and its circle packer (layout.ts)

    A shallow embedding of the layout function [layoutIdeas] and of the
    camera, gesture and like-toggle handlers of the [IdeaMap] component.

    JavaScript numbers are idealised as real numbers ([R]): every
    arithmetic operation is exact, so a property that the program has "up
    to rounding" is stated here as an exact one.  Integer quantities (like
    counts, pointer ids, grid cells, string lengths, iteration counts) are
    [Z] or [nat].  A string stands for its sequence of UTF-16 code units,
    one character per unit, so [String.length] is the [length] property.

    In [layoutIdeas] a division by a variable is the checked [Layout.div],
    which fails on a zero divisor; a division by a non-zero constant, and
    the divisions of the camera and gesture code (by a scale that is
    positive in every valid camera state, or by a [max] with a positive
    constant), are written with the total division of [R]. *)

From Stdlib Require Import Reals Lra Lia ZArith QArith Qreals Qround Qabs.
From stdpp Require Import base option list gmap sets strings pretty.

#[local] Set Warnings "-clear-no-such-hyp".
#[local] Open Scope R_scope.

(** ** Numbers *)

Module Num.

(** [Math.max(min, Math.min(max, n))] *)
Definition clamp (n lo hi : R) : R := Rmax lo (Rmin hi n).

(** [Math.hypot(x, y)] *)
Definition hypot (x y : R) : R := sqrt (x * x + y * y).

(** [Math.floor] *)
Definition floor (x : R) : Z := Int_part x.

(** [Math.log2] *)
Definition log2 (x : R) : R := ln x / ln 2.

(** The comparisons [a < b], [a <= b] and [a > b] as they are branched on. *)
Definition ltb (a b : R) : bool := if Rlt_dec a b then true else false.
Definition leb (a b : R) : bool := if Rle_dec a b then true else false.
Definition gtb (a b : R) : bool := ltb b a.

End Num.

(** ** Camera: world <-> screen transform and zoom-to-cursor *)

Module Camera.
Import Num.

(** [type Camera = { cx, cy, scale }] *)
Record Camera := mkCamera { cx : R; cy : R; scale : R }.

(** [canvas.getBoundingClientRect()] as far as the transform reads it. *)
Record Viewport := mkViewport { left : R; top : R; width : R; height : R }.

(** The camera together with the [clampSoftUntilRef] time stamp that
    [zoomAt] also writes. *)
Record View := mkView { cam : Camera; clampSoftUntil : R }.

Definition MIN_SCALE : R := 0.25.
Definition MAX_SCALE : R := 3.0.

(** A camera state is valid when its scale lies in [0.25, 3.0]. *)
Definition valid (c : Camera) : Prop := MIN_SCALE <= scale c <= MAX_SCALE.

Definition worldToScreen (c : Camera) (vp : Viewport) (x y : R) : R * R :=
  ((x - cx c) * scale c + width vp / 2, (y - cy c) * scale c + height vp / 2).

Definition screenToWorld (c : Camera) (vp : Viewport) (sx sy : R) : R * R :=
  ((sx - width vp / 2) / scale c + cx c, (sy - height vp / 2) / scale c + cy c).

(** [zoomAt(sx, sy, factor)]; [now] is the value of [performance.now()]. *)
Definition zoomAt (v : View) (vp : Viewport) (now sx sy factor : R) : View :=
  let c := cam v in
  let before := screenToWorld c vp sx sy in
  let c1 := mkCamera (cx c) (cy c) (clamp (scale c * factor) 0.25 3.0) in
  let after := screenToWorld c1 vp sx sy in
  let c2 := mkCamera (cx c1 + (fst before - fst after))
                     (cy c1 + (snd before - snd after))
                     (scale c1) in
  mkView c2 (now + 320).

End Camera.

(** ** layout.ts: hexagonal spiral placement and spatial-hash relaxation *)

Module Layout.
Import Num.

(** What can go wrong in a run: a division whose divisor is zero (where
    the exact model stops following the program), a field read on
    [undefined] (a [TypeError] in the program), and the model's own loop
    bound. *)
Inductive Err := DivisionByZero | UndefinedAccess | FuelExhausted.

Inductive Res (A : Type) := Ok (a : A) | Fail (e : Err).
Arguments Ok {A} a.
Arguments Fail {A} e.

Definition bind {A B : Type} (m : Res A) (k : A -> Res B) : Res B :=
  match m with Ok a => k a | Fail e => Fail e end.

Notation "'let*' x ':=' m 'in' k" := (bind m (fun x => k))
  (at level 10, x name, m at level 100, k at level 200).

(** [a / b] with a variable divisor. *)
Definition div (a b : R) : Res R :=
  if Req_dec_T b 0 then Fail DivisionByZero else Ok (a / b).

(** [nodes[i]] followed by a field read. *)
Definition get {A : Type} (l : list A) (i : nat) : Res A :=
  match l !! i with Some a => Ok a | None => Fail UndefinedAccess end.

(** [type Idea]; [message] is read with [?.] and [??], so it may be absent. *)
Record Idea := mkIdea {
  idea_id : string;
  idea_message : option string;
  createdAt : option Z;
  likeCount : option Z }.

(** [type Node] *)
Record Node := mkNode { id : string; message : string; x : R; y : R; r : R }.

Record Obstacle := mkObstacle { obs_x : R; obs_y : R; obs_r : R }.

(** [type LayoutOptions]; every field is optional.  [iterations] is a whole
    number; a negative one runs no pass. *)
Record LayoutOptions := mkOptions {
  gap : option R;
  density : option R;
  iterations : option Z;
  centerObstacle : option Obstacle }.

Definition baseR : R := 32.
Definition MAX_VISUAL_MUL : R := 1.22.
Definition maxR : R := baseR * 1.35 * MAX_VISUAL_MUL.

Definition hexToPixel (q r : Z) (spacing : R) : R * R :=
  (spacing * (sqrt 3 * IZR q + sqrt 3 / 2 * IZR r), spacing * (3 / 2 * IZR r)).

Definition dirs : list (Z * Z) :=
  [(1, 0); (1, -1); (0, -1); (-1, 0); (-1, 1); (0, 1)]%Z.

(** Control after a loop of [axialSpiral]: fall through with the walk's
    state, or [return coords]. *)
Inductive Ctl :=
  | Continue (coords : list (Z * Z)) (q r : Z)
  | Return (coords : list (Z * Z)).

(** [for (let step = 0; step < k; step++)] along one side. *)
Fixpoint stepLoop (n : nat) (d : Z * Z) (steps : nat)
    (coords : list (Z * Z)) (q r : Z) : Ctl :=
  match steps with
  | O => Continue coords q r
  | S steps' =>
      if (n <=? length coords)%nat then Return coords
      else stepLoop n d steps' (coords ++ [(q, r)]) (q + fst d)%Z (r + snd d)%Z
  end.

(** [for (let side = 0; side < 6; side++)] *)
Fixpoint sideLoop (n : nat) (ds : list (Z * Z)) (k : nat)
    (coords : list (Z * Z)) (q r : Z) : Ctl :=
  match ds with
  | [] => Continue coords q r
  | d :: ds' =>
      match stepLoop n d k coords q r with
      | Return c => Return c
      | Continue c q' r' => sideLoop n ds' k c q' r'
      end
  end.

(** [while (coords.length < n)] over the rings [k], [k+1], ... *)
Fixpoint ringLoop (fuel n k : nat) (coords : list (Z * Z)) : Res (list (Z * Z)) :=
  if (n <=? length coords)%nat then Ok coords
  else match fuel with
       | O => Fail FuelExhausted
       | S fuel' =>
           match sideLoop n dirs k coords (- Z.of_nat k)%Z (Z.of_nat k) with
           | Return c => Ok c
           | Continue c _ _ => ringLoop fuel' n (S k) c
           end
       end.

Definition axialSpiral (n : nat) : Res (list (Z * Z)) :=
  if (n <=? 1)%nat then Ok [(0, 0)%Z] else ringLoop n n 1 [(0, 0)%Z].

(** [cellKey]: the string [`${ix},${iy}`], which is one-to-one with the
    pair of integers. *)
Definition cellKey (ix iy : Z) : Z * Z := (ix, iy).

(** [Map<string, number[]>] *)
Definition Grid := gmap (Z * Z) (list nat).

(** [arr ? arr.push(i) : grid.set(key, [i])] *)
Definition gridAdd (g : gmap (Z * Z) (list nat)) (key : Z * Z) (i : nat)
    : gmap (Z * Z) (list nat) :=
  match g !! key with
  | Some arr => <[key := arr ++ [i]]> g
  | None => <[key := [i]]> g
  end.

Fixpoint buildGrid (cellSize : R) (i : nat) (ns : list Node)
    (g : gmap (Z * Z) (list nat)) : Res (gmap (Z * Z) (list nat)) :=
  match ns with
  | [] => Ok g
  | n :: rest =>
      let* qx := div (x n) cellSize in
      let* qy := div (y n) cellSize in
      buildGrid cellSize (S i) rest (gridAdd g (cellKey (floor qx) (floor qy)) i)
  end.

(** The body of a map callback of [layoutIdeas]: node [i] of the list. *)
Definition initNode (spacing : R) (coords : list (Z * Z)) (i : nat) (idea : Idea)
    : Node :=
  let c := default (0, 0)%Z (coords !! i) in
  let p := hexToPixel (fst c) (snd c) spacing in
  let msgLen := from_option String.length 0%nat (idea_message idea) in
  let textScale := clamp (1 + IZR (floor (INR msgLen / 7)) * 0.06) 1 1.28 in
  let r := clamp (baseR * textScale * MAX_VISUAL_MUL) 24 maxR in
  mkNode (idea_id idea) (default EmptyString (idea_message idea)) (fst p) (snd p) r.

(** The obstacle push of node [a]. *)
Definition obstaclePush (gap : R) (o : Obstacle) (a : Node) : Res Node :=
  let dxObs := x a - obs_x o in
  let dyObs := y a - obs_y o in
  let dObs := hypot dxObs dyObs in
  let '(dxObs, dyObs, dObs) :=
    if ltb dObs 1e-6 then (1, 0, 1) else (dxObs, dyObs, dObs) in
  let minDistObs := r a + obs_r o + gap in
  if ltb dObs minDistObs then
    let push := minDistObs - dObs in
    let* ux := div dxObs dObs in
    let* uy := div dyObs dObs in
    Ok (mkNode (id a) (message a) (x a + ux * push) (y a + uy * push) (r a))
  else Ok a.

(** The push of the pair [a = nodes[i]], [b = nodes[j]]. *)
Definition pairPush (gap : R) (a b : Node) : Res (Node * Node) :=
  let dx := x b - x a in
  let dy := y b - y a in
  let d := hypot dx dy in
  let '(dx, dy, d) := if ltb d 1e-6 then (1, 0, 1) else (dx, dy, d) in
  let minDist := r a + r b + gap in
  if ltb d minDist then
    let overlap := minDist - d in
    let* nx := div dx d in
    let* ny := div dy d in
    Ok (mkNode (id a) (message a)
               (x a - nx * (overlap * 0.5)) (y a - ny * (overlap * 0.5)) (r a),
        mkNode (id b) (message b)
               (x b + nx * (overlap * 0.5)) (y b + ny * (overlap * 0.5)) (r b))
  else Ok (a, b).

(** The indices met by the loops over [oy], [ox] and [arr], in order. *)
Definition candidates (g : gmap (Z * Z) (list nat)) (ix iy : Z) : list nat :=
  flat_map (fun oy =>
    flat_map (fun ox => default [] (g !! cellKey (ix + ox) (iy + oy)))
             [-1; 0; 1]%Z)
    [-1; 0; 1]%Z.

(** [for (const j of arr) { if (j <= i) continue; ... }] over all the
    candidate cells; both nodes are written back in place. *)
Fixpoint pairLoop (gap : R) (i : nat) (js : list nat) (nodes : list Node)
    : Res (list Node) :=
  match js with
  | [] => Ok nodes
  | j :: js' =>
      if (j <=? i)%nat then pairLoop gap i js' nodes
      else
        let* a := get nodes i in
        let* b := get nodes j in
        let* ab := pairPush gap a b in
        pairLoop gap i js' (<[j := snd ab]> (<[i := fst ab]> nodes))
  end.

(** The body of the loop over [i]. *)
Definition relaxNode (gap : R) (obstacle : option Obstacle) (cellSize : R)
    (g : gmap (Z * Z) (list nat)) (i : nat) (nodes : list Node) : Res (list Node) :=
  let* a := get nodes i in
  let* a1 := match obstacle with
             | Some o => obstaclePush gap o a
             | None => Ok a
             end in
  let* qx := div (x a1) cellSize in
  let* qy := div (y a1) cellSize in
  pairLoop gap i (candidates g (floor qx) (floor qy)) (<[i := a1]> nodes).

Fixpoint nodeLoop (gap : R) (obstacle : option Obstacle) (cellSize : R)
    (g : gmap (Z * Z) (list nat)) (idxs : list nat) (nodes : list Node)
    : Res (list Node) :=
  match idxs with
  | [] => Ok nodes
  | i :: idxs' =>
      let* nodes' := relaxNode gap obstacle cellSize g i nodes in
      nodeLoop gap obstacle cellSize g idxs' nodes'
  end.

(** One iteration of the relaxation: bucket the nodes, then visit them by
    ascending index. *)
Definition pass (gap : R) (obstacle : option Obstacle) (cellSize : R)
    (nodes : list Node) : Res (list Node) :=
  let* g := buildGrid cellSize 0 nodes ∅ in
  nodeLoop gap obstacle cellSize g (seq 0 (length nodes)) nodes.

(** [for (let it = 0; it < iterations; it++)] *)
Fixpoint relax (its : nat) (gap : R) (obstacle : option Obstacle) (cellSize : R)
    (nodes : list Node) : Res (list Node) :=
  match its with
  | O => Ok nodes
  | S its' =>
      let* nodes' := pass gap obstacle cellSize nodes in
      relax its' gap obstacle cellSize nodes'
  end.

Definition optGap (opts : LayoutOptions) : R := default 8 (gap opts).
Definition optDensity (opts : LayoutOptions) : R := default 0.86 (density opts).
Definition optIterations (opts : LayoutOptions) : Z := default 32%Z (iterations opts).
Definition cellSizeOf (opts : LayoutOptions) : R := (2 * maxR + optGap opts) * 1.12.

(** The placement before any relaxation. *)
Definition initialNodes (ideas : list Idea) (opts : LayoutOptions)
    : Res (list Node) :=
  let spacing := (2 * maxR + optGap opts) / sqrt 3 * optDensity opts in
  let* coords := axialSpiral (length ideas) in
  Ok (imap (initNode spacing coords) ideas).

Definition layoutIdeas (ideas : list Idea) (opts : LayoutOptions)
    : Res (list Node) :=
  let* nodes := initialNodes ideas opts in
  relax (Z.to_nat (optIterations opts)) (optGap opts) (centerObstacle opts)
        (cellSizeOf opts) nodes.


(** The part of an idea that [layoutIdeas] reads: its id and message
    (the [layoutKey] of IdeaMap.tsx joins exactly these). *)
Definition content (i : Idea) : string * option string :=
  (idea_id i, idea_message i).

(** Distance between two node centres, and from a node centre to the
    obstacle centre, as the relaxation measures them. *)
Definition dist (a b : Node) : R := hypot (x b - x a) (y b - y a).

Definition obstacleDist (o : Obstacle) (a : Node) : R :=
  hypot (x a - obs_x o) (y a - obs_y o).

(** The no-overlap property of a node list, with tolerance [eps]: every
    two distinct nodes are at least [r_a + r_b + gap - eps] apart and
    every node is at least [r + obstacleR + gap - eps] from the obstacle
    centre. *)
Definition NoOverlap (eps gap : R) (obstacle : option Obstacle)
    (nodes : list Node) : Prop :=
  (forall i j a b, i <> j -> nodes !! i = Some a -> nodes !! j = Some b ->
     r a + r b + gap - eps <= dist a b)
  /\ (forall o a, obstacle = Some o -> a ∈ nodes ->
        r a + obs_r o + gap - eps <= obstacleDist o a).

End Layout.

(** ** The relaxation on the x axis, in exact rational arithmetic

    When every node and the obstacle lie on the line [y = 0], the
    relaxation never leaves it, [Math.hypot(dx, 0)] is [|dx|] and every
    number met is rational.  This module restates the relaxation of
    [Layout] for that case over [Q], so that it evaluates; the theorems
    below show that it computes what [Layout.relax] computes. *)

Module Axis.

Record ANode := mkANode { aid : string; amsg : string; ax : Q; ar : Q }.

Record AObstacle := mkAObstacle { aobs_x : Q; aobs_r : Q }.

Definition embed (n : ANode) : Layout.Node :=
  Layout.mkNode (aid n) (amsg n) (Q2R (ax n)) 0 (Q2R (ar n)).

Definition embedObs (o : AObstacle) : Layout.Obstacle :=
  Layout.mkObstacle (Q2R (aobs_x o)) 0 (Q2R (aobs_r o)).

Definition qltb (a b : Q) : bool := negb (Qle_bool b a).

(** [1e-6] *)
Definition tiny : Q := 1 # 1000000.

Definition obstaclePushQ (gap : Q) (o : AObstacle) (a : ANode) : ANode :=
  let dx := Qred (ax a - aobs_x o) in
  let d := Qabs dx in
  let '(dx, d) := if qltb d tiny then (1%Q, 1%Q) else (dx, d) in
  let m := Qred (ar a + aobs_r o + gap) in
  if qltb d m then
    mkANode (aid a) (amsg a) (Qred (ax a + dx / d * (m - d))) (ar a)
  else a.

Definition pairPushQ (gap : Q) (a b : ANode) : ANode * ANode :=
  let dx := Qred (ax b - ax a) in
  let d := Qabs dx in
  let '(dx, d) := if qltb d tiny then (1%Q, 1%Q) else (dx, d) in
  let m := Qred (ar a + ar b + gap) in
  if qltb d m then
    let half := Qred (dx / d * ((m - d) * (1 # 2))) in
    (mkANode (aid a) (amsg a) (Qred (ax a - half)) (ar a),
     mkANode (aid b) (amsg b) (Qred (ax b + half)) (ar b))
  else (a, b).

Definition nonzero (q : Q) : bool := negb (Qeq_bool q 0).

Fixpoint buildGridQ (cellSize : Q) (i : nat) (ns : list ANode)
    (g : gmap (Z * Z) (list nat)) : gmap (Z * Z) (list nat) :=
  match ns with
  | [] => g
  | n :: rest =>
      buildGridQ cellSize (S i) rest
        (Layout.gridAdd g (Layout.cellKey (Qfloor (ax n / cellSize)) 0) i)
  end.

Fixpoint pairLoopQ (gap : Q) (i : nat) (js : list nat) (nodes : list ANode)
    : option (list ANode) :=
  match js with
  | [] => Some nodes
  | j :: js' =>
      if (j <=? i)%nat then pairLoopQ gap i js' nodes
      else
        a ← nodes !! i;
        b ← nodes !! j;
        let ab := pairPushQ gap a b in
        pairLoopQ gap i js' (<[j := snd ab]> (<[i := fst ab]> nodes))
  end.

Definition relaxNodeQ (gap : Q) (obstacle : option AObstacle) (cellSize : Q)
    (g : gmap (Z * Z) (list nat)) (i : nat) (nodes : list ANode)
    : option (list ANode) :=
  a ← nodes !! i;
  let a1 := match obstacle with
            | Some o => obstaclePushQ gap o a
            | None => a
            end in
  pairLoopQ gap i (Layout.candidates g (Qfloor (ax a1 / cellSize)) 0)
            (<[i := a1]> nodes).

Fixpoint nodeLoopQ (gap : Q) (obstacle : option AObstacle) (cellSize : Q)
    (g : gmap (Z * Z) (list nat)) (idxs : list nat) (nodes : list ANode)
    : option (list ANode) :=
  match idxs with
  | [] => Some nodes
  | i :: idxs' =>
      nodes' ← relaxNodeQ gap obstacle cellSize g i nodes;
      nodeLoopQ gap obstacle cellSize g idxs' nodes'
  end.

Definition passQ (gap : Q) (obstacle : option AObstacle) (cellSize : Q)
    (nodes : list ANode) : option (list ANode) :=
  if nonzero cellSize then
    nodeLoopQ gap obstacle cellSize (buildGridQ cellSize 0 nodes ∅)
              (seq 0 (length nodes)) nodes
  else None.

Fixpoint relaxQ (its : nat) (gap : Q) (obstacle : option AObstacle) (cellSize : Q)
    (nodes : list ANode) : option (list ANode) :=
  match its with
  | O => Some nodes
  | S its' =>
      nodes' ← passQ gap obstacle cellSize nodes;
      relaxQ its' gap obstacle cellSize nodes'
  end.



End Axis.

(** ** IdeaMap.tsx: gestures, tile state and the like-toggle flow

    The component keeps its mutable state in refs; the handlers below
    take the refs they read and return the ones they write.  Drawing is
    modelled as far as it decides what a tile shows (face, text, radius);
    font metrics and canvas calls are left out. *)

Module IdeaMap.
Import Num Camera.

(** *** Gesture state *)

Record PointerEvent := mkPointerEvent { pointerId : Z; clientX : R; clientY : R }.

(** [type PointerState = { id, x, y }] *)
Record PointerState := mkPointerState { ps_id : Z; ps_x : R; ps_y : R }.

Record Pinch := mkPinch {
  pinch_active : bool;
  startDist : R;
  startScale : R;
  lastMidX : R;
  lastMidY : R }.

Record LastMove := mkLastMove { lm_t : R; lm_x : R; lm_y : R }.

Record Tap := mkTap {
  tap_pointerId : Z;
  startX : R;
  startY : R;
  startT : R;
  tap_active : bool }.

(** The refs the pointer handlers touch.  [pointersRef] is a [Map] whose
    values are read in insertion order, so it is kept as a list. *)
Record Gesture := mkGesture {
  camRef : Camera;
  draggingRef : bool;
  pointersRef : list PointerState;
  pinchRef : Pinch;
  lastMoveRef : option LastMove;
  velRef : R * R;
  focusRef : bool * R * R;
  clampSoftUntilRef : R;
  tapRef : option Tap }.

Definition pointerHas (m : list PointerState) (i : Z) : bool :=
  existsb (fun q => Z.eqb (ps_id q) i) m.

(** [Map.set]: overwrite in place, or append a new entry. *)
Fixpoint pointerSet (m : list PointerState) (q : PointerState) : list PointerState :=
  match m with
  | [] => [q]
  | q' :: m' => if Z.eqb (ps_id q') (ps_id q) then q :: m' else q' :: pointerSet m' q
  end.

Definition pointerDelete (m : list PointerState) (i : Z) : list PointerState :=
  filter (fun q => ps_id q <> i) m.

Definition withTapActive (t : option Tap) (b : bool) : option Tap :=
  match t with
  | Some t' => Some (mkTap (tap_pointerId t') (startX t') (startY t') (startT t') b)
  | None => None
  end.

(** [onPointerDown]; [now] is [performance.now()]. *)
Definition onPointerDown (e : PointerEvent) (now : R) (g : Gesture) : Gesture :=
  let pointers :=
    pointerSet (pointersRef g) (mkPointerState (pointerId e) (clientX e) (clientY e)) in
  let tap := Some (mkTap (pointerId e) (clientX e) (clientY e) now true) in
  let '(foc, tx, ty) := focusRef g in
  match pointers with
  | [p0; p1] =>
      let dx := ps_x p0 - ps_x p1 in
      let dy := ps_y p0 - ps_y p1 in
      mkGesture (camRef g) true pointers
        (mkPinch true (hypot dx dy) (scale (camRef g))
                 ((ps_x p0 + ps_x p1) / 2) ((ps_y p0 + ps_y p1) / 2))
        (Some (mkLastMove now (clientX e) (clientY e))) (0, 0) (false, tx, ty)
        (now + 360) (withTapActive tap false)
  | _ =>
      mkGesture (camRef g) true pointers (pinchRef g)
        (Some (mkLastMove now (clientX e) (clientY e))) (0, 0) (false, tx, ty)
        (clampSoftUntilRef g) tap
  end.

(** The tap displacement gate of [onPointerMove]: [Math.hypypot] is
    undefined, so the test is [Math.hypot(dx, dy) > 8]. *)
Definition moveTapGate (e : PointerEvent) (t : option Tap) : option Tap :=
  match t with
  | Some t' =>
      if tap_active t' && Z.eqb (tap_pointerId t') (pointerId e) then
        let dx := clientX e - startX t' in
        let dy := clientY e - startY t' in
        if gtb (hypot dx dy) 8 then withTapActive t false else t
      else t
  | None => None
  end.

Definition onPointerMove (e : PointerEvent) (now : R) (g : Gesture) : Gesture :=
  if negb (pointerHas (pointersRef g) (pointerId e)) then g
  else
    let pointers :=
      pointerSet (pointersRef g) (mkPointerState (pointerId e) (clientX e) (clientY e)) in
    let tap := moveTapGate e (tapRef g) in
    let c := camRef g in
    let pinching :=
      if pinch_active (pinchRef g) then
        match pointers with [p0; p1] => Some (p0, p1) | _ => None end
      else None in
    match pinching with
    | Some (p0, p1) =>
        let dx := ps_x p0 - ps_x p1 in
        let dy := ps_y p0 - ps_y p1 in
        let dist := hypot dx dy in
        let midX := (ps_x p0 + ps_x p1) / 2 in
        let midY := (ps_y p0 + ps_y p1) / 2 in
        let pn := pinchRef g in
        let factor := dist / Rmax 1 (startDist pn) in
        let s := clamp (startScale pn * factor) 0.25 3.0 in
        let dmx := midX - lastMidX pn in
        let dmy := midY - lastMidY pn in
        mkGesture (mkCamera (cx c - dmx / s) (cy c - dmy / s) s)
          (draggingRef g) pointers
          (mkPinch (pinch_active pn) (startDist pn) (startScale pn) midX midY)
          (lastMoveRef g) (velRef g) (focusRef g) (now + 260) tap
    | None =>
        match lastMoveRef g with
        | None =>
            mkGesture c (draggingRef g) pointers (pinchRef g) None (velRef g)
              (focusRef g) (clampSoftUntilRef g) tap
        | Some last =>
            let dx := clientX e - lm_x last in
            let dy := clientY e - lm_y last in
            let dtt := Rmax 0.001 ((now - lm_t last) / 1000) in
            mkGesture
              (mkCamera (cx c - dx / scale c) (cy c - dy / scale c) (scale c))
              (draggingRef g) pointers (pinchRef g)
              (Some (mkLastMove now (clientX e) (clientY e)))
              (- dx / scale c / dtt, - dy / scale c / dtt)
              (focusRef g) (clampSoftUntilRef g) tap
        end
    end.

(** The part of [onPointerUp] before the hit tests: pointer bookkeeping
    and the time gate.  The boolean tells whether control reaches the hit
    tests, that is, whether the release is a tap. *)
Definition releaseGate (e : PointerEvent) (now : R) (g : Gesture) : Gesture * bool :=
  let pointers := pointerDelete (pointersRef g) (pointerId e) in
  let pn := pinchRef g in
  let pinch' :=
    if (length pointers <? 2)%nat
    then mkPinch false (startDist pn) (startScale pn) (lastMidX pn) (lastMidY pn)
    else pn in
  let dragging' := if (length pointers =? 0)%nat then false else draggingRef g in
  let lastMove' := if (length pointers =? 0)%nat then None else lastMoveRef g in
  let g1 (t : option Tap) :=
    mkGesture (camRef g) dragging' pointers pinch' lastMove' (velRef g)
      (focusRef g) (clampSoftUntilRef g) t in
  match tapRef g with
  | Some t =>
      if tap_active t && Z.eqb (tap_pointerId t) (pointerId e) then
        let elapsed := now - startT t in
        if gtb elapsed 450 then (g1 None, false) else (g1 None, true)
      else if Z.eqb (tap_pointerId t) (pointerId e) then (g1 None, false)
      else (g1 (Some t), false)
  | None => (g1 None, false)
  end.

(** A pointer's journey with no other pointer down: the press at
    [(x0, y0)] at time [t0], then the moves [(x, y, t)] in order. *)
Definition singlePointer (pid : Z) (x0 y0 t0 : R) (moves : list (R * R * R))
    (g : Gesture) : Gesture :=
  foldl (fun g' m => onPointerMove (mkPointerEvent pid (fst (fst m)) (snd (fst m)))
                                   (snd m) g')
        (onPointerDown (mkPointerEvent pid x0 y0) t0 g) moves.

(** The pointer's displacement from the press position at a move. *)
Definition displacement (x0 y0 : R) (m : R * R * R) : R :=
  hypot (fst (fst m) - x0) (snd (fst m) - y0).

(** While one pointer is down, the refs that decide a tap. *)
Definition tracking (pid : Z) (x0 y0 t0 : R) (act : bool) (g : Gesture) : Prop :=
  (exists q, pointersRef g = [q] /\ ps_id q = pid)
  /\ tapRef g = Some (mkTap pid x0 y0 t0 act).

(** *** Tile state *)

(** [flipRef] entries *)
Record Flip := mkFlip { p : R; target : R }.

(** [radiusAnimRef] entries *)
Record RadiusAnim := mkRadiusAnim { cur : R; ra_target : R }.

Inductive ToastKind := like | unlike.

(** [toastRef] entries *)
Record Toast := mkToast { until : R; likes : Z; kind : ToastKind }.

(** What [onToggleLike] resolves with. *)
Record ToggleResult := mkToggleResult { liked : bool; likeCount : Z }.

(** The refs of the tiles.  [onToggleLikeRef] records whether a callback
    is installed; [prevLikedRef] is a [Set] that is iterated, so it is a
    duplicate-free list in insertion order. *)
Record Tiles := mkTiles {
  nodesRef : list Layout.Node;
  likeMapRef : gmap string Z;
  likedSetRef : gset string;
  flipRef : gmap string Flip;
  prevLikedRef : list string;
  likeBusyRef : gset string;
  radiusAnimRef : gmap string RadiusAnim;
  toastRef : gmap string Toast;
  onToggleLikeRef : bool;
  centerWorldRef : R * R;
  obstacleRRef : R }.

Definition withFlip (t : Tiles) (m : gmap string Flip) : Tiles :=
  mkTiles (nodesRef t) (likeMapRef t) (likedSetRef t) m (prevLikedRef t)
    (likeBusyRef t) (radiusAnimRef t) (toastRef t) (onToggleLikeRef t)
    (centerWorldRef t) (obstacleRRef t).

Definition withLikeBusy (t : Tiles) (s : gset string) : Tiles :=
  mkTiles (nodesRef t) (likeMapRef t) (likedSetRef t) (flipRef t) (prevLikedRef t)
    s (radiusAnimRef t) (toastRef t) (onToggleLikeRef t)
    (centerWorldRef t) (obstacleRRef t).

Definition withToast (t : Tiles) (m : gmap string Toast) : Tiles :=
  mkTiles (nodesRef t) (likeMapRef t) (likedSetRef t) (flipRef t) (prevLikedRef t)
    (likeBusyRef t) (radiusAnimRef t) m (onToggleLikeRef t)
    (centerWorldRef t) (obstacleRRef t).

(** [new Set(array)]: first occurrences, in order. *)
Definition newSet (l : list string) : list string :=
  foldl (fun s i => if bool_decide (i ∈ s) then s else s ++ [i]) [] l.

Definition setFlipTarget (m : gmap string Flip) (i : string) (tgt : R)
    : gmap string Flip :=
  let c := default (mkFlip tgt tgt) (m !! i) in
  <[i := mkFlip (p c) tgt]> m.

(** The effect on [likedIds] that restores the flips. *)
Definition restoreFlips (likedIds : list string) (t : Tiles) : Tiles :=
  let prev := prevLikedRef t in
  let next := newSet likedIds in
  let m1 := foldl (fun m i => if bool_decide (i ∈ prev) then m
                              else <[i := mkFlip 1 1]> m) (flipRef t) next in
  let m2 := foldl (fun m i => if bool_decide (i ∈ next) then m
                              else <[i := mkFlip 0 0]> m) m1 prev in
  mkTiles (nodesRef t) (likeMapRef t) (likedSetRef t) m2 next
    (likeBusyRef t) (radiusAnimRef t) (toastRef t) (onToggleLikeRef t)
    (centerWorldRef t) (obstacleRRef t).

(** The effect on [likedIds] that refreshes [likedSetRef]. *)
Definition setLikedSet (likedIds : list string) (t : Tiles) : Tiles :=
  mkTiles (nodesRef t) (likeMapRef t) (list_to_set likedIds) (flipRef t)
    (prevLikedRef t) (likeBusyRef t) (radiusAnimRef t) (toastRef t)
    (onToggleLikeRef t) (centerWorldRef t) (obstacleRRef t).

(** The effect on [ideas] that refreshes [likeMapRef]; a later entry of a
    repeated id wins. *)
Definition setLikeMap (ideas : list Layout.Idea) (t : Tiles) : Tiles :=
  mkTiles (nodesRef t)
    (foldl (fun m i => <[Layout.idea_id i := default 0%Z (Layout.likeCount i)]> m)
           ∅ ideas)
    (likedSetRef t) (flipRef t) (prevLikedRef t) (likeBusyRef t)
    (radiusAnimRef t) (toastRef t) (onToggleLikeRef t)
    (centerWorldRef t) (obstacleRRef t).

Definition MAX_VISUAL_MUL : R := 1.22.

(** The like-count bonus and the self-like bonus of [computeTargetMul]. *)
Definition byLikes (likes : Z) : R := clamp (log2 (IZR likes + 1) * 0.05) 0 0.16.
Definition byMe (liked : bool) : R := if liked then 0.06 else 0.

Definition targetMul (likes : Z) (liked : bool) : R :=
  clamp (1 + byLikes likes + byMe liked) 1 MAX_VISUAL_MUL.

Definition computeTargetMul (t : Tiles) (i : string) : R :=
  targetMul (default 0%Z (likeMapRef t !! i)) (bool_decide (i ∈ likedSetRef t)).

(** The effect on [ideas] and [likedIds] that retargets the radii. *)
Definition retargetRadius (ideas : list Layout.Idea) (t : Tiles) : Tiles :=
  mkTiles (nodesRef t) (likeMapRef t) (likedSetRef t) (flipRef t) (prevLikedRef t)
    (likeBusyRef t)
    (foldl (fun m it =>
              let tg := computeTargetMul t (Layout.idea_id it) in
              match m !! Layout.idea_id it with
              | None => <[Layout.idea_id it := mkRadiusAnim tg tg]> m
              | Some c => <[Layout.idea_id it := mkRadiusAnim (cur c) tg]> m
              end) (radiusAnimRef t) ideas)
    (toastRef t) (onToggleLikeRef t) (centerWorldRef t) (obstacleRRef t).

Definition visualMulNow (t : Tiles) (i : string) : R :=
  from_option cur 1 (radiusAnimRef t !! i).

(** The world radius a tile is hit-tested with ([rr]) and, at camera
    scale [s] and spawn factor [sizeMul], the radius it is drawn with
    ([sr]). *)
Definition hitRadius (t : Tiles) (n : Layout.Node) : R :=
  Layout.r n * visualMulNow t (Layout.id n).

Definition drawnRadius (t : Tiles) (n : Layout.Node) (s sizeMul : R) : R :=
  Layout.r n * visualMulNow t (Layout.id n) * s * sizeMul.

Definition hitTest (c : Camera) (vp : Viewport) (t : Tiles) (sx sy : R)
    : option Layout.Node :=
  let w := screenToWorld c vp sx sy in
  List.find (fun n => leb (hypot (Layout.x n - fst w) (Layout.y n - snd w))
                          (hitRadius t n))
            (nodesRef t).

Definition hitTestLogo (c : Camera) (vp : Viewport) (t : Tiles) (sx sy : R) : bool :=
  let w := screenToWorld c vp sx sy in
  leb (hypot (fst w - fst (centerWorldRef t)) (snd w - snd (centerWorldRef t)))
      (obstacleRRef t).

(** *** The like-toggle flow *)

Definition TOAST_MS : R := 2200.

(** A tap that hit tile [i], up to the [await]: the optimistic flip, the
    guards, and the call (the returned id is the argument of the
    [onToggleLike] call that was issued, if one was). *)
Definition tapTile (i : string) (t : Tiles) : Tiles * option string :=
  let alreadyLiked := bool_decide (i ∈ likedSetRef t) in
  let t1 := withFlip t (setFlipTarget (flipRef t) i (if alreadyLiked then 0 else 1)) in
  if negb (onToggleLikeRef t1) then (t1, None)
  else if bool_decide (i ∈ likeBusyRef t1) then (t1, None)
  else (withLikeBusy t1 ({[i]} ∪ likeBusyRef t1), Some i).

(** After the [await], when the call for [i] resolved with [res] at time
    [now]: the body of [try], then [finally]. *)
Definition toggleFulfilled (i : string) (res : ToggleResult) (now : R) (t : Tiles)
    : Tiles :=
  let t1 := withFlip t (setFlipTarget (flipRef t) i (if liked res then 1 else 0)) in
  let t2 := withToast t1
              (<[i := mkToast (now + TOAST_MS) (likeCount res)
                              (if liked res then like else unlike)]> (toastRef t1)) in
  withLikeBusy t2 (likeBusyRef t2 ∖ {[i]}).


(** What the release does once it is a tap: the logo hit test, then the
    tile hit test, then the like flow. *)
Definition tapAction (vp : Viewport) (e : PointerEvent) (now : R)
    (g : Gesture) (t : Tiles) : Gesture * Tiles * option string :=
  let sx := clientX e - left vp in
  let sy := clientY e - top vp in
  if hitTestLogo (camRef g) vp t sx sy then
    (mkGesture (camRef g) (draggingRef g) (pointersRef g) (pinchRef g)
       (lastMoveRef g) (0, 0) (true, 0, 0) (now + 260) (tapRef g), t, None)
  else
    match hitTest (camRef g) vp t sx sy with
    | None => (g, t, None)
    | Some n => let '(t', call) := tapTile (Layout.id n) t in (g, t', call)
    end.

(** [onPointerUp] (also the [pointercancel] handler), up to the [await]. *)
Definition onPointerUp (vp : Viewport) (e : PointerEvent) (now : R)
    (g : Gesture) (t : Tiles) : Gesture * Tiles * option string :=
  let '(g1, isTap) := releaseGate e now g in
  if isTap then tapAction vp e now g1 t else (g1, t, None).

(** *** Drawing a tile's text *)

Inductive Text :=
  | FrontText (msg : string)
  | BackToast (line1 line2 : string)
  | BackMessage (msg : string).

Definition drawTextFront (sr : R) (msg : string) : option Text :=
  let padding := Rmax 12 (sr * 0.30) in
  let usableR := Rmax 8 (sr - padding) in
  if ltb usableR 12 then None else Some (FrontText msg).

Definition drawBackToast (sr : R) (n : Z) (k : ToastKind) : option Text :=
  let padding := Rmax 12 (sr * 0.22) in
  let usableR := Rmax 8 (sr - padding) in
  if ltb usableR 14 then None
  else
    let line1 := match k with
                 | like => "それな！👍"
                 | unlike => "いいねを解除しました"
                 end in
    let line2 := "合計: " +:+ pretty n in
    Some (BackToast line1 line2).

Definition drawBackOnlyMessage (sr : R) (msg : string) : option Text :=
  let padding := Rmax 12 (sr * 0.22) in
  let usableR := Rmax 8 (sr - padding) in
  if ltb usableR 14 then None else Some (BackMessage msg).

(** The text branch of [draw] for node [n], drawn with radius [sr] at time
    [now]; an expired toast is deleted on the way. *)
Definition drawTileText (now frontAlpha backAlpha sr : R) (n : Layout.Node)
    (t : Tiles) : Tiles * option Text :=
  let pr := from_option p 0 (flipRef t !! Layout.id n) in
  let isFront := ltb pr 0.5 in
  if isFront then
    (t, if gtb frontAlpha 0.10 && leb 34 sr
        then drawTextFront sr (Layout.message n) else None)
  else if gtb backAlpha 0.10 then
    match toastRef t !! Layout.id n with
    | Some ts =>
        if ltb now (until ts) then (t, drawBackToast sr (likes ts) (kind ts))
        else (withToast t (delete (Layout.id n) (toastRef t)),
              drawBackOnlyMessage sr (Layout.message n))
    | None => (t, drawBackOnlyMessage sr (Layout.message n))
    end
  else (t, None).

(** One frame of the flip animation of a tile; [a] is [1 - exp(-18 dt)]. *)
Definition flipStep (a : R) (f : Flip) : Flip :=
  let p1 := p f + (target f - p f) * a in
  mkFlip (if ltb (Rabs (p1 - target f)) 0.001 then target f else p1) (target f).

(** *** The component and the outstanding toggle calls *)


(** A render with new props, as the effects see it: the refs that mirror
    props are overwritten, then the effects on [ideas] and [likedIds] run
    in the order they are declared.  [nodes] is the memoised layout. *)
Definition rendered (ideas : list Layout.Idea) (likedIds : list string)
    (callback : bool) (nodes : list Layout.Node) (center : R * R) (obstacleR : R)
    (t : Tiles) : Tiles :=
  retargetRadius ideas
    (restoreFlips likedIds
       (setLikedSet likedIds
          (setLikeMap ideas
             (mkTiles nodes (likeMapRef t) (likedSetRef t) (flipRef t)
                (prevLikedRef t) (likeBusyRef t) (radiusAnimRef t) (toastRef t)
                callback center obstacleR)))).






End IdeaMap.

(** ** Concrete inputs used by the examples below *)

Module Scenario.
Import Layout Axis.

(** One idea laid out with a gap of [-105.408 = -2 * maxR], which makes
    the grid cell size zero. *)
Definition onlyIdea : Idea := mkIdea "a" (Some "idea") None None.


(** The options IdeaMap passes, for a logo of the default size 160:
    gap 8, density 0.86, 32 iterations, obstacle of radius
    [160 * 0.40 + 6 = 70] at the origin. *)
Definition appOptions : LayoutOptions :=
  mkOptions (Some 8) (Some 0.86) (Some 32%Z) (Some (mkObstacle 0 0 70)).




(** The same on the axis: radius [32 * 1.22 = 39.04 = 976/25], cell size
    [(2 * 52.704 + 8) * 1.12]. *)
Definition axisNode (i : string) : ANode := mkANode i "idea" 0 (976 # 25).

Definition axisCell : Q := Qred ((2 * (52704 # 1000) + 8) * (112 # 100)).

Definition axisObstacle : AObstacle := mkAObstacle 0 70.

(** A single idea under the application's options: where it starts and
    where two passes leave it ([39.04 + 70 + 8 = 117.04 = 2926/25] from
    the obstacle centre). *)
Definition loneStart : list ANode := [axisNode "a"].

Definition loneSettled : list ANode := [mkANode "a" "idea" (2926 # 25) (976 # 25)].

Definition loneNode : Node := mkNode "a" "idea" 117.04 0 39.04.


(** Two short ideas with 15 likes each, placed with density 0 and no
    obstacle under the default gap and iteration count, and the two nodes
    the layout returns for them: [r_a + r_b + gap = 86.08] apart. *)
Definition popular : list Idea :=
  (fun i => mkIdea i (Some "idea") None (Some 15%Z)) <$> ["a"; "b"].

Definition popularOptions : LayoutOptions := mkOptions None (Some 0) None None.

Definition pairA : Node := mkNode "a" "idea" (-43.04) 0 39.04.
Definition pairB : Node := mkNode "b" "idea" 43.04 0 39.04.

Definition pairSettled : list ANode :=
  [mkANode "a" "idea" (-1076 # 25) (976 # 25);
   mkANode "b" "idea" (1076 # 25) (976 # 25)].

End Scenario.

Module TapScenario.
Import Camera IdeaMap.

(** No pointer down, camera at the origin with scale 1. *)
Definition idleGesture : Gesture :=
  mkGesture (mkCamera 0 0 1) false [] (mkPinch false 0 1 0 0) None (0, 0)
            (false, 0, 0) 0 None.

Definition viewport : Viewport := mkViewport 0 0 800 600.

(** Press at (100, 100) at time 0, one move to (108, 100) at time 200 (a
    displacement of exactly 8), release there at time 450. *)
Definition edgeMoves : list (R * R * R) := [(108, 100, 200)].

(** Press at (100, 100) at time 0, one move to (105, 100) at time 50,
    release there at time 120. *)
Definition shortMoves : list (R * R * R) := [(105, 100, 50)].

End TapScenario.

Module TileScenario.
Import IdeaMap.

(** A freshly mounted component with a toggle callback, showing one tile
    "a" (message "idea", layout radius 39.04) that nobody has liked. *)
Definition tileA : Layout.Node := Layout.mkNode "a" "idea" 200 0 39.04.

Definition mounted : Tiles :=
  mkTiles [tileA] ∅ ∅ ∅ [] ∅ ∅ ∅ true (0, 0) 70.

(** The same after a tap on "a": the flip is turned and the call is out. *)
Definition tappedA : Tiles :=
  mkTiles [tileA] ∅ ∅ (<["a" := mkFlip 1 1]> ∅) [] {["a"]} ∅ ∅ true (0, 0) 70.

(** The server's answer of the like-toast scenario. *)
Definition liked7 : ToggleResult := mkToggleResult true 7.

End TileScenario.

Module PulseScenario.
Import IdeaMap.

(** The single idea of [Scenario], liked by the user, in the
    application's configuration: the refs after the first render, with
    the layout's node. *)
Definition likedAlone : Tiles :=
  rendered [Scenario.onlyIdea] ["a"] true [Scenario.loneNode] (0, 0) 70
           (mkTiles [] ∅ ∅ ∅ [] ∅ ∅ ∅ false (0, 0) 70).

(** The two popular ideas of [Scenario], both liked by the user: the refs
    after the first render, with the layout's nodes. *)
Definition pulsed : Tiles :=
  rendered Scenario.popular ["a"; "b"] true [Scenario.pairA; Scenario.pairB]
           (0, 0) 70
           (mkTiles [] ∅ ∅ ∅ [] ∅ ∅ ∅ false (0, 0) 70).

End PulseScenario.

(** ** layout.ts: the quantities its further properties are stated with *)

Module Packing.
Import Num Layout.

(** What the relaxation never writes: a node's id, message and radius. *)
Definition label (n : Node) : string * string * R := (id n, message n, r n).

(** The radius [layoutIdeas] gives to a message of [msgLen] code units. *)
Definition radiusFor (msgLen : nat) : R :=
  clamp (baseR * clamp (1 + IZR (floor (INR msgLen / 7)) * 0.06) 1 1.28
         * MAX_VISUAL_MUL) 24 maxR.

(** The same three fields, as [layoutIdeas] reads them off an idea. *)
Definition labelOf (idea : Idea) : string * string * R :=
  (idea_id idea, default EmptyString (idea_message idea),
   radiusFor (from_option String.length 0%nat (idea_message idea))).

(** Sums of the centre coordinates of a node list. *)
Definition sumX (nodes : list Node) : R := foldr (fun n s => x n + s) 0 nodes.
Definition sumY (nodes : list Node) : R := foldr (fun n s => y n + s) 0 nodes.

(** The grid cell of a node, for a non-zero cell size. *)
Definition cellOf (cellSize : R) (n : Node) : Z * Z :=
  cellKey (floor (x n / cellSize)) (floor (y n / cellSize)).

(** The indices, counted from [i], of the nodes of [ns] whose cell is
    [key], in ascending order. *)
Fixpoint bucket (cellSize : R) (key : Z * Z) (i : nat) (ns : list Node)
    : list nat :=
  match ns with
  | [] => []
  | n :: rest =>
      (if decide (cellOf cellSize n = key) then [i] else [])
      ++ bucket cellSize key (S i) rest
  end.

(** The cells that [axialSpiral] walks: [steps] cells from [(q, r)] in
    direction [d]; the six sides of ring [k], side after side; the rings
    [k], [k+1], ... *)
Fixpoint walk (d : Z * Z) (steps : nat) (q r : Z) : list (Z * Z) :=
  match steps with
  | O => []
  | S steps' => (q, r) :: walk d steps' (q + fst d)%Z (r + snd d)%Z
  end.

Fixpoint sides (ds : list (Z * Z)) (k : nat) (q r : Z) : list (Z * Z) :=
  match ds with
  | [] => []
  | d :: ds' =>
      walk d k q r
      ++ sides ds' k (q + Z.of_nat k * fst d)%Z (r + Z.of_nat k * snd d)%Z
  end.

Definition ring (k : nat) : list (Z * Z) :=
  sides dirs k (- Z.of_nat k)%Z (Z.of_nat k).

Fixpoint rings (count k : nat) : list (Z * Z) :=
  match count with
  | O => []
  | S count' => ring k ++ rings count' (S k)
  end.

(** The hexagonal distance of an axial cell from the origin. *)
Definition hexDist (c : Z * Z) : Z :=
  Z.max (Z.abs (fst c)) (Z.max (Z.abs (snd c)) (Z.abs (fst c + snd c))).

End Packing.

(** ** IdeaMap.tsx: the frame loop ([tick] and [draw]) *)

Module Frame.
Import Num Camera IdeaMap.

(** [1 - Math.pow(1 - t, 3)] *)
Definition easeOutCubic (t : R) : R := 1 - (1 - t) ^ 3.

Definition smoothstep (edge0 edge1 x : R) : R :=
  let t := clamp ((x - edge0) / (edge1 - edge0)) 0 1 in
  t * t * (3 - 2 * t).


Record Bounds := mkBounds { minX : R; maxX : R; minY : R; maxY : R }.

(** The body of the loop of [getWorldBounds]. *)
Definition growBounds (b : Bounds) (n : Layout.Node) : Bounds :=
  mkBounds (Rmin (minX b) (Layout.x n - Layout.r n))
           (Rmax (maxX b) (Layout.x n + Layout.r n))
           (Rmin (minY b) (Layout.y n - Layout.r n))
           (Rmax (maxY b) (Layout.y n + Layout.r n)).

(** [getWorldBounds].  The accumulators start at [Infinity] and
    [-Infinity]; since [Math.min(Infinity, v)] and
    [Math.max(-Infinity, v)] are [v], the first node sets them. *)
Definition getWorldBounds (t : Tiles) : Bounds :=
  match nodesRef t with
  | [] => mkBounds (-300) 300 (-300) 300
  | n0 :: rest =>
      let b0 := mkBounds (Layout.x n0 - Layout.r n0) (Layout.x n0 + Layout.r n0)
                         (Layout.y n0 - Layout.r n0) (Layout.y n0 + Layout.r n0) in
      let b := foldl growBounds b0 rest in
      let cw := centerWorldRef t in
      let obs := obstacleRRef t in
      mkBounds (Rmin (minX b) (fst cw - obs)) (Rmax (maxX b) (fst cw + obs))
               (Rmin (minY b) (snd cw - obs)) (Rmax (maxY b) (snd cw + obs))
  end.

(** The circle of radius [pr] around [(px, py)] lies in the box. *)
Definition inside (b : Bounds) (px py pr : R) : Prop :=
  minX b <= px - pr /\ px + pr <= maxX b /\ minY b <= py - pr /\ py + pr <= maxY b.









(** [spawnAnimRef] entries *)
Record SpawnAnim := mkSpawnAnim { x0 : R; y0 : R; t0 : R; dur : R }.

(** [pendingSpawnRef] *)
Record PendingSpawn := mkPendingSpawn { spawn_id : string; spawn_x : R; spawn_y : R }.

(** The spawn start of [draw]: the pending spawn becomes an animation
    that starts where the pointer was, in world coordinates. *)
Definition spawnStart (c : Camera) (vp : Viewport) (now : R) (ps : PendingSpawn)
    (m : gmap string SpawnAnim) : gmap string SpawnAnim :=
  let w0 := screenToWorld c vp (spawn_x ps - left vp) (spawn_y ps - top vp) in
  <[spawn_id ps := mkSpawnAnim (fst w0) (snd w0) now 520]> m.

(** Where and how a tile is drawn: world position, size factor, opacity. *)
Record Pose := mkPose { wx : R; wy : R; sizeMul : R; extraAlpha : R }.

(** The spawn part of the loop over the nodes of [draw]; the animation is
    deleted at [t >= 1]. *)
Definition spawnPose (now : R) (n : Layout.Node) (m : gmap string SpawnAnim)
    : Pose * gmap string SpawnAnim :=
  match m !! Layout.id n with
  | None => (mkPose (Layout.x n) (Layout.y n) 1 1, m)
  | Some anim =>
      let t := clamp ((now - t0 anim) / dur anim) 0 1 in
      let e := easeOutCubic t in
      (mkPose (x0 anim + (Layout.x n - x0 anim) * e)
              (y0 anim + (Layout.y n - y0 anim) * e)
              (0.35 + 0.65 * e) (0.2 + 0.8 * e),
       if leb 1 t then delete (Layout.id n) m else m)
  end.

(** The text opacities of a frame. *)
Definition panSpeedPx (vel : R * R) (s : R) : R := hypot (fst vel) (snd vel) * s.

Definition alphaBySpeed (vel : R * R) (s : R) : R :=
  1 - smoothstep 900 1400 (panSpeedPx vel s).

Definition frontAlpha (vel : R * R) (s : R) : R :=
  clamp (smoothstep 0.72 0.95 s * alphaBySpeed vel s) 0 1.

Definition backAlpha (vel : R * R) (s : R) : R :=
  clamp (smoothstep 0.82 1.02 s * alphaBySpeed vel s) 0 1.



Definition elapsed (dts : list R) : R := foldr Rplus 0 dts.


End Frame.

(** ** IdeaMap.tsx: sequences of pointer events *)

Module Journey.
Import Num Camera IdeaMap.


(** Any moves of any pointers, each with its time stamp, in order. *)
Definition movesOf (events : list (PointerEvent * R)) (g : Gesture) : Gesture :=
  foldl (fun g' m => onPointerMove (fst m) (snd m) g') g events.

(** The tap state has not been armed, or has been disarmed. *)
Definition tapDisarmed (g : Gesture) : Prop :=
  match tapRef g with Some t => tap_active t = false | None => True end.

End Journey.

(** ** IdeaMap.tsx: which tile a screen point hits *)

Module Hit.
Import Num Camera IdeaMap.

(** The screen point [(sx, sy)] lies in the pulsed circle of node [n]. *)
Definition covers (c : Camera) (vp : Viewport) (t : Tiles) (sx sy : R)
    (n : Layout.Node) : Prop :=
  let w := screenToWorld c vp sx sy in
  hypot (Layout.x n - fst w) (Layout.y n - snd w) <= hitRadius t n.

End Hit.

(** ** IdeaMap.tsx: fitting a message into a tile *)

Module TextFit.
Import Num.

(** [LINE], the line height as a multiple of the font size. *)
Definition LINE : R := 1.10.
Definition minFont : Z := 10.

(** The strings that [for (const ch of text)] yields. *)
Fixpoint chars (s : string) : list string :=
  match s with
  | EmptyString => []
  | String c s' => String c EmptyString :: chars s'
  end.

(** The strings of a list, joined. *)
Definition joined (l : list string) : string := foldr String.append EmptyString l.

(** [s.length > 0], and the truth value of a string. *)
Definition nonEmpty (s : string) : bool := (0 <? String.length s)%nat.

Section Measured.

(** [ctx.measureText(s).width] under the bold application font of size
    [font] px, which the canvas decides. *)
Variable measure : Z -> string -> R.

(** The loop of [wrapByChars]. *)
Fixpoint wrapLoop (font : Z) (maxWidth : R) (text : list string)
    (lines : list string) (line : string) : list string * string :=
  match text with
  | [] => (lines, line)
  | ch :: rest =>
      let test := line +:+ ch in
      if gtb (measure font test) maxWidth && nonEmpty line
      then wrapLoop font maxWidth rest (lines ++ [line]) ch
      else wrapLoop font maxWidth rest lines test
  end.

Definition wrapByChars (font : Z) (text : list string) (maxWidth : R) : list string :=
  let '(lines, line) := wrapLoop font maxWidth text [] EmptyString in
  if nonEmpty line then lines ++ [line] else lines.

(** The wrapped lines fit the height at this font size. *)
Definition fits (font : Z) (text : list string) (maxWidth maxHeight : R) : bool :=
  leb (INR (length (wrapByChars font text maxWidth)) * (IZR font * LINE)) maxHeight.

(** [for (let font = Math.floor(maxFont); font >= minFont; font -= 1)]
    with its [break]; [fuel] bounds the number of fonts tried. *)
Fixpoint fontLoop (fuel : nat) (font : Z) (text : list string)
    (maxWidth maxHeight : R) : option (Z * list string) :=
  match fuel with
  | O => None
  | S fuel' =>
      if (font <? minFont)%Z then None
      else if fits font text maxWidth maxHeight
           then Some (font, wrapByChars font text maxWidth)
           else fontLoop fuel' (font - 1) text maxWidth maxHeight
  end.

(** The font and the lines that are drawn: the largest font that fits,
    or, when none does, [minFont] with the message on one line. *)
Definition fitText (msg : string) (maxWidth maxHeight maxFont : R)
    : Z * list string :=
  match fontLoop (Z.to_nat (floor maxFont - minFont + 1)) (floor maxFont)
                 (chars msg) maxWidth maxHeight with
  | Some chosen => chosen
  | None => (minFont, [msg])
  end.

(** [drawTextFront] and [drawBackOnlyMessage], as far as the font size
    and the lines they draw. *)
Definition drawTextFront (sr : R) (msg : string) : option (Z * list string) :=
  let padding := Rmax 12 (sr * 0.30) in
  let usableR := Rmax 8 (sr - padding) in
  if ltb usableR 12 then None
  else Some (fitText msg (usableR * 1.62) (usableR * 1.42) (clamp (sr * 0.34) 14 28)).

Definition drawBackOnlyMessage (sr : R) (msg : string) : option (Z * list string) :=
  let padding := Rmax 12 (sr * 0.22) in
  let usableR := Rmax 8 (sr - padding) in
  if ltb usableR 14 then None
  else Some (fitText msg (usableR * 1.62) (usableR * 1.55) (clamp (sr * 0.28) 12 22)).

End Measured.

End TextFit.

(** ** App.tsx: the like toggle and the submission, around their calls

    A state updater ([setVotes(prev => ...)]) is applied when it is
    queued, in the order of the code; [likedIdsRef] is written inside
    the updater of [likedIds], as in the source. *)

Module App.
Import IdeaMap.

(** [type Vote] *)
Record Vote := mkVote {
  vote_id : string;
  vote_message : option string;
  vote_createdAt : option Z;
  vote_pending : bool;
  vote_likeCount : option Z }.

Record Stats := mkStats { voteCount : Z; totalLikes : Z; score : Z }.

Inductive StatusKind := idle | info | ok | error.

Record Spawn := mkSpawn { spawnId : string; spawnX : R; spawnY : R }.

(** The state and the ref of the component; [status] keeps the kind and
    the text. *)
Record State := mkState {
  message : string;
  status : StatusKind * string;
  votes : list Vote;
  totalCount : option Z;
  likedIds : list string;
  likedIdsRef : list string;
  stats : option Stats;
  spawn : option Spawn }.

(** [prev.includes(id)] *)
Definition includes (l : list string) (i : string) : bool := bool_decide (i ∈ l).

(** [prev.filter((x) => x !== id)] *)
Definition without (l : list string) (i : string) : list string :=
  filter (fun x => x <> i) l.

Definition withLikeCount (v : Vote) (n : Z) : Vote :=
  mkVote (vote_id v) (vote_message v) (vote_createdAt v) (vote_pending v) (Some n).

(** What [handleToggleLike] does up to the [await]: the early return for
    a pending idea ([inr] of the value it resolves with), or the
    optimistic update ([inl] of [currentlyLiked], with the call to
    [likeVote] out). *)
Definition toggleStart (i : string) (st : State) : State * (bool + ToggleResult) :=
  if String.prefix "temp-" i then (st, inr (mkToggleResult false 0))
  else
    let currentlyLiked := includes (likedIdsRef st) i in
    let delta := if currentlyLiked then (-1)%Z else 1%Z in
    let next := if includes (likedIds st) i then without (likedIds st) i
                else likedIds st ++ [i] in
    let votes1 :=
      (fun v => if String.eqb (vote_id v) i
                then withLikeCount v (Z.max 0 (default 0%Z (vote_likeCount v) + delta))
                else v) <$> votes st in
    let stats1 :=
      match stats st with
      | None => None
      | Some p => Some (mkStats (voteCount p) (Z.max 0 (totalLikes p + delta))
                                (score p + delta))
      end in
    (mkState (message st) (status st) votes1 (totalCount st) next next stats1
             (spawn st),
     inl currentlyLiked).

(** After the [await], when [likeVote] resolved with [r]: the server's
    values replace the optimistic ones.  ([fetchStats] is left running.) *)
Definition toggleResolved (i : string) (r : ToggleResult) (st : State)
    : State * ToggleResult :=
  let votes1 :=
    (fun v => if String.eqb (vote_id v) i then withLikeCount v (likeCount r) else v)
      <$> votes st in
  let has := includes (likedIds st) i in
  let next0 := likedIds st in
  let next1 := if liked r && negb has then likedIds st ++ [i] else next0 in
  let next := if negb (liked r) && has then without (likedIds st) i else next1 in
  (mkState (message st) (status st) votes1 (totalCount st) next next (stats st)
           (spawn st),
   mkToggleResult (liked r) (likeCount r)).

(** After the [await], when [likeVote] failed.  ([loadAll] is left
    running.) *)
Definition toggleFailed (currentlyLiked : bool) (st : State) : State * ToggleResult :=
  (mkState (message st) (error, "いいね失敗（通信/サーバー）") (votes st)
           (totalCount st) (likedIds st) (likedIdsRef st) (stats st) (spawn st),
   mkToggleResult currentlyLiked 0).

(** The id of the optimistic entry of a submission at [Date.now() = now]. *)
Definition tempId (now : Z) : string := "temp-" +:+ pretty now.

(** What [handleSubmit] does up to the [await]; [trimmed] is
    [message.trim()], [(x, y)] the centre of the send button (or the
    fallback position).  The boolean tells whether [submitVote] was
    called. *)
Definition submitStart (trimmed : string) (now : Z) (x y : R) (st : State)
    : State * bool :=
  if (String.length trimmed =? 0)%nat then
    (mkState (message st) (error, "空文字では送れません！") (votes st) (totalCount st)
             (likedIds st) (likedIdsRef st) (stats st) (spawn st), false)
  else if (20 <? String.length trimmed)%nat then
    (mkState (message st) (error, "20文字以内で入力してください") (votes st)
             (totalCount st) (likedIds st) (likedIdsRef st) (stats st) (spawn st),
     false)
  else
    (mkState (message st) (info, "送信中...")
             (mkVote (tempId now) (Some trimmed) None true (Some 0%Z) :: votes st)
             (match totalCount st with None => None | Some c => Some (c + 1)%Z end)
             (likedIds st) (likedIdsRef st) (stats st)
             (Some (mkSpawn (tempId now) x y)),
     true).

(** After the [await], when [submitVote] failed with the text [text]. *)
Definition submitFailed (now : Z) (text : string) (st : State) : State :=
  mkState (message st) (error, text)
          (filter (fun v => vote_id v <> tempId now) (votes st))
          (match totalCount st with None => None | Some c => Some (c - 1)%Z end)
          (likedIds st) (likedIdsRef st) (stats st) (spawn st).

(** The [ideas] prop handed to [IdeaMap]. *)
Definition ideasOf (vs : list Vote) : list Layout.Idea :=
  (fun v => Layout.mkIdea (vote_id v) (Some (default EmptyString (vote_message v)))
                          (vote_createdAt v)
                          (Some (default 0%Z (vote_likeCount v))))
    <$> filter (fun v => (0 < String.length (default EmptyString (vote_message v)))%nat)
               vs.

End App.

Module AppScenario.
Import App.

(** The application showing one idea "a" with 3 likes, none of them the
    user's. *)
Definition start : State :=
  mkState EmptyString (idle, EmptyString)
          [mkVote "a" (Some "idea") None false (Some 3%Z)] (Some 1%Z) [] [] None None.

End AppScenario.

(** ** functions/src/index.ts: the cloud functions, after authentication

    The Firestore collections are finite maps from document ids to
    documents; the [likes] subcollection of a vote and the [likes]
    subcollection of a user hold documents without content that matters,
    so each is the set of its document ids. *)

Module Functions.
Import IdeaMap.
#[local] Open Scope Z_scope.

(** [votes/{id}]; [likeCount] is read with [?? 0], so it may be absent.
    [createdAt] is in milliseconds. *)
Record VoteDoc := mkVoteDoc {
  doc_uid : string;
  doc_message : string;
  doc_likeCount : option Z;
  doc_createdAt : Z }.

(** [meta/stats]; the document or any of its fields may be absent. *)
Record StatsDoc := mkStatsDoc {
  s_voteCount : option Z;
  s_totalLikes : option Z;
  s_score : option Z }.

Record Db := mkDb {
  votes : gmap string VoteDoc;
  voteLikes : gmap string (gset string);
  userLikes : gmap string (gset string);
  stats : StatsDoc }.

(** The ids in [votes/{voteId}/likes] and in [users/{uid}/likes]. *)
Definition likesOf (db : Db) (voteId : string) : gset string :=
  default ∅ (voteLikes db !! voteId).

Definition likedBy (db : Db) (uid : string) : gset string :=
  default ∅ (userLikes db !! uid).

(** [FieldValue.increment(d)] written with [merge: true]: an absent
    field counts as 0. *)
Definition increment (d : Z) (field : option Z) : option Z :=
  Some (default 0 field + d)%Z.

(** The transaction of [likeVote] for the user [uid] and the vote
    [voteId]; [None] is the [NOT_FOUND] error. *)
Definition likeTx (uid voteId : string) (db : Db) : option (Db * ToggleResult) :=
  match votes db !! voteId with
  | None => None
  | Some v =>
      let cur := Z.max 0 (default 0 (doc_likeCount v)) in
      let isLiked := bool_decide (uid ∈ likesOf db voteId) in
      let delta := if isLiked then (-1)%Z else 1%Z in
      let next := Z.max 0 (cur + delta) in
      let likes' := if isLiked then likesOf db voteId ∖ {[uid]}
                    else {[uid]} ∪ likesOf db voteId in
      let mine' := if isLiked then likedBy db uid ∖ {[voteId]}
                   else {[voteId]} ∪ likedBy db uid in
      Some (mkDb (<[voteId := mkVoteDoc (doc_uid v) (doc_message v) (Some next)
                                        (doc_createdAt v)]> (votes db))
                 (<[voteId := likes']> (voteLikes db))
                 (<[uid := mine']> (userLikes db))
                 (mkStatsDoc (s_voteCount (stats db))
                             (increment delta (s_totalLikes (stats db)))
                             (increment delta (s_score (stats db)))),
            mkToggleResult (negb isLiked) next)
  end.

(** The like documents mirror each other and every vote's [likeCount] is
    the number of its like documents. *)
Definition consistent (db : Db) : Prop :=
  (forall v u, u ∈ likesOf db v <-> v ∈ likedBy db u)
  /\ forall v d, votes db !! v = Some d ->
       doc_likeCount d = Some (Z.of_nat (size (likesOf db v))).





End Functions.

Module ServerScenario.
Import Functions.

(** One vote "v1" by user "u0" that nobody has liked; no stats document. *)
Definition fresh : Db :=
  mkDb {["v1" := mkVoteDoc "u0" "idea" (Some 0%Z) 0]} ∅ ∅ (mkStatsDoc None None None).

End ServerScenario.

(** * Properties *)

(** ** Facts about the numeric helpers *)

Section NumFacts.
Import Num.

Lemma ltb_true a b : ltb a b = true <-> a < b.
Proof. unfold ltb. destruct (Rlt_dec a b); split; (congruence || tauto). Qed.

Lemma ltb_false a b : ltb a b = false <-> b <= a.
Proof.
  unfold ltb. destruct (Rlt_dec a b); split; try congruence; intros; lra.
Qed.

Lemma leb_true a b : leb a b = true <-> a <= b.
Proof. unfold leb. destruct (Rle_dec a b); split; (congruence || tauto). Qed.

Lemma leb_false a b : leb a b = false <-> b < a.
Proof.
  unfold leb. destruct (Rle_dec a b); split; try congruence; intros; lra.
Qed.

Lemma clamp_bounds n lo hi : lo <= hi -> lo <= clamp n lo hi <= hi.
Proof.
  intros Hlh. unfold clamp. split.
  - apply Rmax_l.
  - apply Rmax_lub; [exact Hlh | apply Rmin_l].
Qed.

Lemma clamp_id n lo hi : lo <= n <= hi -> clamp n lo hi = n.
Proof.
  intros [Hl Hh]. unfold clamp.
  rewrite (Rmin_right hi n Hh). now apply Rmax_right.
Qed.

Lemma hypot_axis x : hypot x 0 = Rabs x.
Proof.
  unfold hypot. replace (x * x + 0 * 0) with (Rsqr x) by (unfold Rsqr; ring).
  apply sqrt_Rsqr_abs.
Qed.


Lemma floor_spec x : IZR (floor x) <= x < IZR (floor x) + 1.
Proof.
  unfold floor. generalize (base_Int_part x). intros [H1 H2]. lra.
Qed.

Lemma floor_unique x z : IZR z <= x < IZR z + 1 -> floor x = z.
Proof.
  intros [H1 H2]. destruct (floor_spec x) as [F1 F2].
  assert (A : (floor x < z + 1)%Z).
  { apply lt_IZR. rewrite plus_IZR. simpl. lra. }
  assert (B : (z < floor x + 1)%Z).
  { apply lt_IZR. rewrite plus_IZR. simpl. lra. }
  lia.
Qed.

End NumFacts.

(** ** Camera *)

Section CameraFacts.
Import Num Camera.

Lemma valid_scale_pos c : valid c -> 0 < scale c.
Proof. unfold valid, MIN_SCALE. lra. Qed.

Lemma zoomAt_scale_valid v vp now sx sy f :
  valid (cam (zoomAt v vp now sx sy f)).
Proof.
  unfold valid, zoomAt, MIN_SCALE, MAX_SCALE. cbn.
  apply clamp_bounds. lra.
Qed.

(** C3. Camera round trip: mapping a screen point to the world and back
    gives the same screen point, for every viewport and every camera state
    whose scale lies in [0.25, 3.0] (exactly, in exact arithmetic). *)
Theorem camera_round_trip (c : Camera) (vp : Viewport) (sx sy : R) :
  valid c ->
  worldToScreen c vp (fst (screenToWorld c vp sx sy))
                     (snd (screenToWorld c vp sx sy)) = (sx, sy).
Proof.
  intros Hv. pose proof (valid_scale_pos c Hv) as Hs.
  unfold worldToScreen, screenToWorld. cbn [fst snd].
  f_equal; field; lra.
Qed.

Lemma camera_round_trip_witness :
  valid (mkCamera 10 (-4) 2) /\
  worldToScreen (mkCamera 10 (-4) 2) (mkViewport 0 0 800 600)
    (fst (screenToWorld (mkCamera 10 (-4) 2) (mkViewport 0 0 800 600) 123 45))
    (snd (screenToWorld (mkCamera 10 (-4) 2) (mkViewport 0 0 800 600) 123 45))
  = (123, 45).
Proof.
  assert (Hv : valid (mkCamera 10 (-4) 2)).
  { unfold valid, MIN_SCALE, MAX_SCALE. cbn. lra. }
  split; [exact Hv | exact (camera_round_trip _ _ 123 45 Hv)].
Defined.

(** C4. Zoom pin invariant: for every screen point, every factor and every
    valid camera state, the world point under the screen point is the same
    after [zoomAt] as before it, whether or not the new scale was clamped;
    the new scale lies in [0.25, 3.0] again. *)
Theorem zoomAt_pins_world_point (v : View) (vp : Viewport) (now sx sy f : R) :
  valid (cam v) ->
  screenToWorld (cam (zoomAt v vp now sx sy f)) vp sx sy
    = screenToWorld (cam v) vp sx sy
  /\ valid (cam (zoomAt v vp now sx sy f))
  /\ scale (cam (zoomAt v vp now sx sy f)) = clamp (scale (cam v) * f) 0.25 3.0.
Proof.
  intros Hv. pose proof (valid_scale_pos _ Hv) as Hs.
  split; [ | split; [apply zoomAt_scale_valid | reflexivity] ].
  pose proof (zoomAt_scale_valid v vp now sx sy f) as Hv'.
  apply valid_scale_pos in Hv'.
  unfold zoomAt, screenToWorld in *. cbn [fst snd cam cx cy scale] in *.
  set (s' := clamp (scale (cam v) * f) 0.25 3.0) in *.
  f_equal; field; lra.
Qed.

Lemma zoomAt_pins_world_point_witness :
  valid (mkCamera 0 0 1) /\
  screenToWorld
    (cam (zoomAt (mkView (mkCamera 0 0 1) 0) (mkViewport 0 0 800 600) 0 100 50 1000))
    (mkViewport 0 0 800 600) 100 50
  = screenToWorld (mkCamera 0 0 1) (mkViewport 0 0 800 600) 100 50.
Proof.
  assert (Hv : valid (mkCamera 0 0 1)).
  { unfold valid, MIN_SCALE, MAX_SCALE. cbn. lra. }
  split; [exact Hv | ].
  exact (proj1 (zoomAt_pins_world_point (mkView (mkCamera 0 0 1) 0)
                  (mkViewport 0 0 800 600) 0 100 50 1000 Hv)).
Defined.

End CameraFacts.

(** ** The rational relaxation on the axis computes the real one *)

Section AxisFacts.
Import Num Layout Axis.

Lemma Q2R_0 : Q2R 0 = 0.
Proof. unfold Q2R. simpl. lra. Qed.

Lemma Q2R_1 : Q2R 1 = 1.
Proof. unfold Q2R. simpl. lra. Qed.

Lemma Q2R_tiny : Q2R tiny = 1e-6.
Proof. unfold Q2R, tiny. simpl. lra. Qed.

Lemma Q2R_half : Q2R (1 # 2) = 0.5.
Proof. unfold Q2R. simpl. lra. Qed.

Lemma Q2R_inject_Z z : Q2R (inject_Z z) = IZR z.
Proof. unfold Q2R. simpl. lra. Qed.

Lemma Q2R_Qred q : Q2R (Qred q) = Q2R q.
Proof. apply Qeq_eqR, Qred_correct. Qed.

Lemma Q2R_Qabs q : Q2R (Qabs q) = Rabs (Q2R q).
Proof.
  pattern (Qabs q). apply Qabs_case; intros H; apply Qle_Rle in H;
    rewrite Q2R_0 in H.
  - now rewrite Rabs_pos_eq.
  - rewrite Q2R_opp. rewrite Rabs_left1; [reflexivity | exact H].
Qed.

Lemma Q2R_nonzero (q : Q) : ~ (q == 0)%Q -> Q2R q <> 0.
Proof. intros Hq H. apply Hq, eqR_Qeq. now rewrite Q2R_0. Qed.

Lemma ltb_Q2R a b : ltb (Q2R a) (Q2R b) = qltb a b.
Proof.
  unfold ltb, qltb. destruct (Rlt_dec (Q2R a) (Q2R b)) as [H | H].
  - apply Rlt_Qlt in H. destruct (Qle_bool b a) eqn:E; [ | reflexivity].
    apply Qle_bool_iff in E. exfalso. now apply (Qlt_not_le a b).
  - destruct (Qle_bool b a) eqn:E; [reflexivity | ].
    exfalso. apply H, Qlt_Rlt. apply Qnot_le_lt. intros Hle.
    apply Qle_bool_iff in Hle. congruence.
Qed.

Lemma qltb_true a b : qltb a b = true -> (a < b)%Q.
Proof. rewrite <- ltb_Q2R, ltb_true. apply Rlt_Qlt. Qed.

Lemma qltb_false a b : qltb a b = false -> (b <= a)%Q.
Proof. rewrite <- ltb_Q2R, ltb_false. apply Rle_Qle. Qed.

Lemma floor_Q2R q : floor (Q2R q) = Qfloor q.
Proof.
  apply floor_unique. split.
  - rewrite <- Q2R_inject_Z. apply Qle_Rle, Qfloor_le.
  - replace (IZR (Qfloor q) + 1) with (Q2R (inject_Z (Qfloor q + 1))).
    + apply Qlt_Rlt, Qlt_floor.
    + rewrite Q2R_inject_Z, plus_IZR. reflexivity.
Qed.

Lemma div_Q2R (a b : Q) : ~ (b == 0)%Q -> div (Q2R a) (Q2R b) = Ok (Q2R (a / b)).
Proof.
  intros Hb. unfold div. destruct (Req_dec_T (Q2R b) 0) as [E | _].
  - exfalso. now apply (Q2R_nonzero b).
  - now rewrite Q2R_div.
Qed.

Lemma div_zero_num b : b <> 0 -> div 0 b = Ok 0.
Proof.
  intros Hb. unfold div. destruct (Req_dec_T b 0); [contradiction | ].
  f_equal. unfold Rdiv. ring.
Qed.

Lemma hypot_Q2R (a b : Q) :
  hypot (Q2R a - Q2R b) (0 - 0) = Q2R (Qabs (Qred (a - b))).
Proof.
  rewrite Q2R_Qabs, Q2R_Qred, Q2R_minus.
  replace (0 - 0) with 0 by ring. apply hypot_axis.
Qed.

(** The direction and distance that a push divides by: the measured ones,
    or [(1, 1)] when the distance is below [1e-6]; never zero. *)
Lemma guarded_distance_nonzero (dx : Q) :
  ~ (snd (if qltb (Qabs dx) tiny then (1%Q, 1%Q) else (dx, Qabs dx)) == 0)%Q.
Proof.
  destruct (qltb (Qabs dx) tiny) eqn:E; cbn [snd].
  - discriminate.
  - apply qltb_false in E. intros H. rewrite H in E. revert E.
    unfold tiny, Qle. simpl. lia.
Qed.

Lemma obstaclePush_axis gap o a :
  obstaclePush (Q2R gap) (embedObs o) (embed a)
  = Ok (embed (obstaclePushQ gap o a)).
Proof.
  unfold obstaclePush, obstaclePushQ, embedObs, embed.
  cbn [Layout.x Layout.y Layout.r Layout.id Layout.message obs_x obs_y obs_r].
  rewrite hypot_Q2R, <- Q2R_tiny, ltb_Q2R.
  replace (0 - 0) with 0 by ring.
  pose proof (guarded_distance_nonzero (Qred (ax a - aobs_x o))) as Hnz.
  replace (Q2R (ar a) + Q2R (aobs_r o) + Q2R gap)
    with (Q2R (Qred (ar a + aobs_r o + gap)))
    by (rewrite Q2R_Qred, !Q2R_plus; reflexivity).
  set (m := Qred (ar a + aobs_r o + gap)) in *.
  destruct (qltb (Qabs (Qred (ax a - aobs_x o))) tiny); cbn [snd] in Hnz.
  - rewrite <- Q2R_1 at 1. rewrite ltb_Q2R.
    destruct (qltb 1 m); [ | reflexivity].
    unfold div. destruct (Req_dec_T 1 0) as [E | _]; [lra | ]. cbn [bind].
    f_equal. cbn [aid amsg ax ar]. f_equal.
    + rewrite Q2R_Qred, Q2R_plus, Q2R_mult, Q2R_minus, Q2R_div, Q2R_1
        by discriminate. reflexivity.
    + unfold Rdiv. ring.
  - rewrite ltb_Q2R.
    destruct (qltb (Qabs (Qred (ax a - aobs_x o))) m); [ | reflexivity].
    replace (Q2R (ax a) - Q2R (aobs_x o)) with (Q2R (Qred (ax a - aobs_x o)))
      by (rewrite Q2R_Qred, Q2R_minus; reflexivity).
    rewrite (div_Q2R _ _ Hnz). cbn [bind].
    rewrite div_zero_num by (now apply Q2R_nonzero). cbn [bind].
    f_equal. cbn [aid amsg ax ar]. f_equal.
    + rewrite Q2R_Qred, Q2R_plus, Q2R_mult, Q2R_minus. reflexivity.
    + ring.
Qed.

Lemma pairPush_axis gap a b :
  pairPush (Q2R gap) (embed a) (embed b)
  = Ok (embed (fst (pairPushQ gap a b)), embed (snd (pairPushQ gap a b))).
Proof.
  unfold pairPush, pairPushQ, embed.
  cbn [Layout.x Layout.y Layout.r Layout.id Layout.message].
  rewrite hypot_Q2R, <- Q2R_tiny, ltb_Q2R.
  replace (0 - 0) with 0 by ring.
  pose proof (guarded_distance_nonzero (Qred (ax b - ax a))) as Hnz.
  replace (Q2R (ar a) + Q2R (ar b) + Q2R gap)
    with (Q2R (Qred (ar a + ar b + gap)))
    by (rewrite Q2R_Qred, !Q2R_plus; reflexivity).
  set (m := Qred (ar a + ar b + gap)) in *.
  destruct (qltb (Qabs (Qred (ax b - ax a))) tiny); cbn [snd] in Hnz.
  - rewrite <- Q2R_1 at 1. rewrite ltb_Q2R.
    destruct (qltb 1 m); [ | reflexivity].
    unfold div. destruct (Req_dec_T 1 0) as [E | _]; [lra | ]. cbn [bind fst snd].
    f_equal. cbn [aid amsg ax ar].
    f_equal; f_equal;
      rewrite ?Q2R_Qred, ?Q2R_plus, ?Q2R_minus, ?Q2R_Qred, ?Q2R_mult,
        ?Q2R_minus, ?Q2R_mult, ?Q2R_div, ?Q2R_1, ?Q2R_half by discriminate;
      unfold Rdiv; ring.
  - rewrite ltb_Q2R.
    destruct (qltb (Qabs (Qred (ax b - ax a))) m); [ | reflexivity].
    replace (Q2R (ax b) - Q2R (ax a)) with (Q2R (Qred (ax b - ax a)))
      by (rewrite Q2R_Qred, Q2R_minus; reflexivity).
    rewrite (div_Q2R _ _ Hnz). cbn [bind].
    rewrite div_zero_num by (now apply Q2R_nonzero). cbn [bind fst snd].
    f_equal. cbn [aid amsg ax ar].
    f_equal; f_equal;
      rewrite ?Q2R_Qred, ?Q2R_plus, ?Q2R_minus, ?Q2R_Qred, ?Q2R_mult,
        ?Q2R_minus, ?Q2R_mult, ?Q2R_half; ring.
Qed.

Lemma get_axis (ns : list ANode) i :
  get (embed <$> ns) i
  = match ns !! i with Some a => Ok (embed a) | None => Fail UndefinedAccess end.
Proof. unfold get. rewrite list_lookup_fmap. now destruct (ns !! i). Qed.

Lemma pairLoop_axis gap i js : forall ns ns',
  pairLoopQ gap i js ns = Some ns' ->
  pairLoop (Q2R gap) i js (embed <$> ns) = Ok (embed <$> ns').
Proof.
  induction js as [ | j js IH]; intros ns ns' H; cbn in H |- *.
  - now inversion H.
  - destruct (j <=? i)%nat; [now apply IH | ].
    rewrite !get_axis.
    destruct (ns !! i) as [a | ]; [ | discriminate]. cbn in H |- *.
    destruct (ns !! j) as [b | ]; [ | discriminate]. cbn in H |- *.
    rewrite pairPush_axis. cbn [bind fst snd].
    rewrite <- !list_fmap_insert. now apply IH.
Qed.

Lemma floor_0 : floor 0 = 0%Z.
Proof. apply floor_unique. simpl. lra. Qed.

Lemma buildGrid_axis cs : ~ (cs == 0)%Q -> forall ns i g,
  buildGrid (Q2R cs) i (embed <$> ns) g = Ok (buildGridQ cs i ns g).
Proof.
  intros Hcs. induction ns as [ | n ns IH]; intros i g; cbn.
  - reflexivity.
  - rewrite (div_Q2R _ _ Hcs). cbn [bind].
    rewrite div_zero_num by (now apply Q2R_nonzero). cbn [bind].
    rewrite floor_Q2R, floor_0. apply IH.
Qed.

Lemma relaxNode_axis gap o cs g i ns ns' : ~ (cs == 0)%Q ->
  relaxNodeQ gap o cs g i ns = Some ns' ->
  relaxNode (Q2R gap) (embedObs <$> o) (Q2R cs) g i (embed <$> ns)
  = Ok (embed <$> ns').
Proof.
  intros Hcs H. unfold relaxNode, relaxNodeQ in *. rewrite get_axis.
  destruct (ns !! i) as [a | ]; [ | discriminate]. cbn in H |- *.
  set (a1 := match o with Some o' => obstaclePushQ gap o' a | None => a end) in *.
  assert (E : match embedObs <$> o with
              | Some o' => obstaclePush (Q2R gap) o' (embed a)
              | None => Ok (embed a)
              end = Ok (embed a1)).
  { subst a1. destruct o; cbn; [apply obstaclePush_axis | reflexivity]. }
  rewrite E. cbn [bind]. cbn [embed Layout.x Layout.y].
  rewrite (div_Q2R _ _ Hcs). cbn [bind].
  rewrite div_zero_num by (now apply Q2R_nonzero). cbn [bind].
  rewrite floor_Q2R, floor_0.
  change (Layout.mkNode (aid a1) (amsg a1) (Q2R (ax a1)) 0 (Q2R (ar a1)))
    with (embed a1).
  rewrite <- list_fmap_insert. now apply pairLoop_axis.
Qed.

Lemma nodeLoop_axis gap o cs g : ~ (cs == 0)%Q -> forall idxs ns ns',
  nodeLoopQ gap o cs g idxs ns = Some ns' ->
  nodeLoop (Q2R gap) (embedObs <$> o) (Q2R cs) g idxs (embed <$> ns)
  = Ok (embed <$> ns').
Proof.
  intros Hcs. induction idxs as [ | i idxs IH]; intros ns ns' H; cbn in H |- *.
  - now inversion H.
  - destruct (relaxNodeQ gap o cs g i ns) as [ns1 | ] eqn:E; [ | discriminate].
    cbn in H. rewrite (relaxNode_axis _ _ _ _ _ _ _ Hcs E). cbn [bind].
    now apply IH.
Qed.

Lemma nonzero_true q : nonzero q = true -> ~ (q == 0)%Q.
Proof.
  unfold nonzero. intros H Hq. apply Qeq_bool_iff in Hq.
  rewrite Hq in H. discriminate.
Qed.

Lemma pass_axis gap o cs ns ns' :
  passQ gap o cs ns = Some ns' ->
  pass (Q2R gap) (embedObs <$> o) (Q2R cs) (embed <$> ns) = Ok (embed <$> ns').
Proof.
  unfold pass, passQ. intros H.
  destruct (nonzero cs) eqn:E; [ | discriminate]. apply nonzero_true in E.
  rewrite (buildGrid_axis _ E). cbn [bind]. rewrite length_fmap.
  now apply nodeLoop_axis.
Qed.

(** The relaxation of [Layout], started on the axis, returns what the
    rational relaxation returns. *)
Lemma relax_axis gap o cs its : forall ns ns',
  relaxQ its gap o cs ns = Some ns' ->
  relax its (Q2R gap) (embedObs <$> o) (Q2R cs) (embed <$> ns)
  = Ok (embed <$> ns').
Proof.
  induction its as [ | its IH]; intros ns ns' H; cbn in H |- *.
  - now inversion H.
  - destruct (passQ gap o cs ns) as [ns1 | ] eqn:E; [ | discriminate].
    cbn in H. rewrite (pass_axis _ _ _ _ _ E). cbn [bind]. now apply IH.
Qed.

End AxisFacts.

(** ** Layout: totality *)

Section LayoutTotality.
Import Num Layout.















Lemma pass_nil gap o cs : pass gap o cs [] = Ok [].
Proof. reflexivity. Qed.



End LayoutTotality.

(** ** Layout: the spiral and the initial placement *)

Section SpiralFacts.
Import Num Layout.

Lemma stepLoop_length n d steps : forall coords q r,
  (length coords <= n)%nat ->
  match stepLoop n d steps coords q r with
  | Return c => length c = n
  | Continue c _ _ => length c = (length coords + steps)%nat /\ (length c <= n)%nat
  end.
Proof.
  induction steps as [ | steps IH]; intros coords q r Hlen; cbn.
  - split; lia.
  - destruct (n <=? length coords)%nat eqn:E.
    + apply Nat.leb_le in E. lia.
    + apply Nat.leb_gt in E.
      specialize (IH (coords ++ [(q, r)]) (q + d.1)%Z (r + d.2)%Z).
      rewrite length_app in IH. cbn in IH.
      destruct (stepLoop n d steps (coords ++ [(q, r)]) (q + d.1) (r + d.2));
        specialize (IH ltac:(lia)); lia.
Qed.

Lemma sideLoop_length n k ds : forall coords q r,
  (length coords <= n)%nat ->
  match sideLoop n ds k coords q r with
  | Return c => length c = n
  | Continue c _ _ =>
      length c = (length coords + length ds * k)%nat /\ (length c <= n)%nat
  end.
Proof.
  induction ds as [ | d ds IH]; intros coords q r Hlen; cbn.
  - split; lia.
  - pose proof (stepLoop_length n d k coords q r Hlen) as Hs.
    destruct (stepLoop n d k coords q r) as [c q' r' | c]; [ | exact Hs].
    destruct Hs as [Hc Hn]. specialize (IH c q' r' Hn).
    destruct (sideLoop n ds k c q' r'); lia.
Qed.

Lemma ringLoop_total n fuel : forall k coords,
  (1 <= k)%nat -> (length coords <= n)%nat -> (n <= fuel + length coords)%nat ->
  exists c, ringLoop fuel n k coords = Ok c /\ length c = n.
Proof.
  induction fuel as [ | fuel IH]; intros k coords Hk Hlen Hfuel; cbn [ringLoop].
  - destruct (n <=? length coords)%nat eqn:E.
    + apply Nat.leb_le in E. exists coords. split; [reflexivity | lia].
    + apply Nat.leb_gt in E. lia.
  - destruct (n <=? length coords)%nat eqn:E.
    + apply Nat.leb_le in E. exists coords. split; [reflexivity | lia].
    + apply Nat.leb_gt in E.
      pose proof (sideLoop_length n k dirs coords (- Z.of_nat k) (Z.of_nat k) Hlen)
        as Hs.
      destruct (sideLoop n dirs k coords (- Z.of_nat k) (Z.of_nat k))
        as [c q' r' | c].
      * destruct Hs as [Hc Hn]. cbn in Hc. apply IH; lia.
      * exists c. split; [reflexivity | exact Hs].
Qed.

(** The spiral loop ends: [axialSpiral n] returns [max 1 n] cells. *)
Lemma axialSpiral_total n :
  exists c, axialSpiral n = Ok c /\ length c = Nat.max 1 n.
Proof.
  unfold axialSpiral. destruct (n <=? 1)%nat eqn:E.
  - apply Nat.leb_le in E. exists [(0, 0)%Z]. split; [reflexivity | cbn; lia].
  - apply Nat.leb_gt in E.
    destruct (ringLoop_total n n 1 [(0, 0)%Z]) as [c [Hc Hl]]; cbn; try lia.
    exists c. split; [exact Hc | lia].
Qed.


End SpiralFacts.

(** ** Layout: content stability and degenerate inputs *)

Section LayoutFacts.
Import Num Layout.

Lemma initNode_content spacing coords i idea1 idea2 :
  idea_id idea1 = idea_id idea2 -> idea_message idea1 = idea_message idea2 ->
  initNode spacing coords i idea1 = initNode spacing coords i idea2.
Proof. unfold initNode. intros Hid Hmsg. now rewrite Hid, Hmsg. Qed.

Lemma imap_content spacing coords : forall ideas1 ideas2 k,
  content <$> ideas1 = content <$> ideas2 ->
  imap (fun i => initNode spacing coords (k + i)) ideas1
  = imap (fun i => initNode spacing coords (k + i)) ideas2.
Proof.
  induction ideas1 as [ | a l1 IH]; intros [ | b l2] k H; try discriminate.
  - reflexivity.
  - cbn in H. injection H as Hid Hmsg Hl. cbn [imap]. f_equal.
    + now apply initNode_content.
    + transitivity (imap (fun i => initNode spacing coords (S k + i)) l1).
      { apply imap_ext. intros i x _. cbn.
        now replace (k + S i)%nat with (S (k + i)) by lia. }
      rewrite (IH l2 (S k) Hl). apply imap_ext. intros i x _. cbn.
      now replace (k + S i)%nat with (S (k + i)) by lia.
Qed.

(** C2. Content stability: two idea lists with the same sequence of
    (id, message) pairs, whatever their like counts and creation times,
    are laid out identically under the same options: same nodes, same
    positions, same radii (and the function is deterministic). *)
Theorem layoutIdeas_content_stable (ideas1 ideas2 : list Idea) (opts : LayoutOptions) :
  content <$> ideas1 = content <$> ideas2 ->
  layoutIdeas ideas1 opts = layoutIdeas ideas2 opts.
Proof.
  intros H. unfold layoutIdeas, initialNodes.
  assert (L : length ideas1 = length ideas2).
  { rewrite <- (length_fmap content ideas1), H. apply length_fmap. }
  rewrite L. destruct (axialSpiral (length ideas2)) as [coords | e]; [ | reflexivity].
  cbn [bind].
  now rewrite (imap_content _ coords ideas1 ideas2 0%nat H).
Qed.

Lemma layoutIdeas_content_stable_witness :
  layoutIdeas [mkIdea "a" (Some "first idea") None (Some 0%Z);
               mkIdea "b" (Some "second") (Some 17%Z) None]
              (mkOptions (Some 8) (Some 0.86) (Some 32%Z)
                         (Some (mkObstacle 0 0 70)))
  = layoutIdeas [mkIdea "a" (Some "first idea") (Some 3%Z) (Some 41%Z);
                 mkIdea "b" (Some "second") None (Some 7%Z)]
                (mkOptions (Some 8) (Some 0.86) (Some 32%Z)
                           (Some (mkObstacle 0 0 70))).
Proof. apply layoutIdeas_content_stable. reflexivity. Defined.

End LayoutFacts.

Section LayoutDegenerate.
Import Num Layout Scenario.











End LayoutDegenerate.

(** ** Layout: what the relaxation does and does not guarantee *)

Section Relaxation.
Import Num Layout.












End Relaxation.

Section RelaxationExamples.
Import Num Layout Axis Scenario.

Lemma textScale_short (len : nat) :
  (len < 7)%nat -> clamp (1 + IZR (floor (INR len / 7)) * 0.06) 1 1.28 = 1.
Proof.
  intros H. assert (F : floor (INR len / 7) = 0%Z).
  { apply floor_unique. pose proof (pos_INR len) as Hp.
    apply lt_INR in H. simpl (INR 7) in H. simpl. lra. }
  rewrite F. replace (1 + 0 * 0.06) with 1 by lra. apply clamp_id. lra.
Qed.

(** A short idea placed on the origin, as an axis node of radius
    [32 * 1.22 = 976 / 25]. *)
Lemma initNode_origin spacing coords i idea msg :
  idea_message idea = Some msg -> (String.length msg < 7)%nat ->
  spacing = 0 \/ coords !! i = Some (0, 0)%Z ->
  initNode spacing coords i idea = embed (mkANode (idea_id idea) msg 0 (976 # 25)).
Proof.
  intros Hmsg Hlen Horigin. unfold initNode, embed. rewrite Hmsg. cbn [from_option default].
  rewrite (textScale_short _ Hlen). unfold hexToPixel. cbn [fst snd aid amsg ax ar].
  f_equal.
  - rewrite Q2R_0. destruct Horigin as [-> | ->]; simpl; ring.
  - destruct Horigin as [-> | ->]; simpl; ring.
  - rewrite clamp_id; unfold maxR, baseR, MAX_VISUAL_MUL, Q2R; cbn [Qnum Qden]; lra.
Qed.

(** With density 0 every idea starts on the origin. *)
Lemma initial_on_origin (ids : list string) (likes : option Z) opts :
  optDensity opts = 0 ->
  initialNodes ((fun i => mkIdea i (Some "idea") None likes) <$> ids) opts
  = Ok (embed <$> (axisNode <$> ids)).
Proof.
  intros Hdensity. unfold initialNodes.
  destruct (axialSpiral_total
              (length ((fun i => mkIdea i (Some "idea") None likes) <$> ids)))
    as [c [-> _]].
  cbn [bind]. f_equal.
  rewrite imap_fmap, <- list_fmap_compose, <- imap_const.
  apply imap_ext. intros i s _. cbn.
  apply (initNode_origin _ c i (mkIdea s (Some "idea") None likes) "idea").
  - reflexivity.
  - cbn. lia.
  - left. rewrite Hdensity. ring.
Qed.



Lemma axisObstacle_value : embedObs axisObstacle = mkObstacle 0 0 70.
Proof.
  unfold embedObs, axisObstacle. cbn. f_equal; unfold Q2R; simpl; lra.
Qed.

(** [layoutIdeas] on an input that starts on the axis, through the
    rational relaxation. *)
Lemma layoutIdeas_axis ideas opts (gapQ cellQ : Q) (obs : option AObstacle) start final :
  initialNodes ideas opts = Ok (embed <$> start) ->
  Q2R gapQ = optGap opts -> Q2R cellQ = cellSizeOf opts ->
  embedObs <$> obs = centerObstacle opts ->
  relaxQ (Z.to_nat (optIterations opts)) gapQ obs cellQ start = Some final ->
  layoutIdeas ideas opts = Ok (embed <$> final).
Proof.
  intros Hinit Hgap Hcell Hobs Hrun. unfold layoutIdeas.
  rewrite Hinit. cbn [bind]. rewrite <- Hgap, <- Hcell, <- Hobs.
  now apply relax_axis.
Qed.





(** The layout of the two popular ideas: two passes put them exactly
    86.08 apart and the other passes leave them there. *)
Lemma popular_layout : layoutIdeas popular popularOptions = Ok [pairA; pairB].
Proof.
  replace [pairA; pairB] with (embed <$> pairSettled).
  - apply (layoutIdeas_axis popular popularOptions 8 axisCell None
             (axisNode <$> ["a"; "b"])).
    + now apply initial_on_origin.
    + unfold optGap, popularOptions, Q2R. simpl. lra.
    + unfold axisCell. rewrite Q2R_Qred, Q2R_mult, Q2R_plus, Q2R_mult.
      unfold cellSizeOf, optGap, popularOptions, maxR, baseR, MAX_VISUAL_MUL, Q2R.
      simpl. lra.
    + reflexivity.
    + vm_compute. reflexivity.
  - unfold pairSettled, pairA, pairB, embed. cbn [fmap list_fmap aid amsg ax ar].
    f_equal; [ | f_equal]; f_equal; unfold Q2R; cbn [Qnum Qden]; lra.
Qed.



End RelaxationExamples.

Section RelaxationGuarantee.
Import Num Layout Axis Scenario.


Lemma lone_initial :
  initialNodes [onlyIdea] appOptions = Ok (embed <$> loneStart).
Proof.
  unfold initialNodes. cbn [length].
  change (axialSpiral 1) with (Ok (A := list (Z * Z)) [(0, 0)%Z]).
  cbn [bind imap fmap list_fmap loneStart]. do 2 f_equal.
  apply (initNode_origin _ _ 0%nat onlyIdea "idea").
  - reflexivity.
  - cbn. lia.
  - now right.
Qed.

Lemma appOptions_gap : Q2R 8 = optGap appOptions.
Proof. unfold optGap, appOptions, Q2R. simpl. lra. Qed.

Lemma appOptions_axisCell : Q2R axisCell = cellSizeOf appOptions.
Proof.
  unfold axisCell. rewrite Q2R_Qred, Q2R_mult, Q2R_plus, Q2R_mult.
  unfold cellSizeOf, optGap, appOptions, maxR, baseR, MAX_VISUAL_MUL, Q2R.
  simpl. lra.
Qed.

(** The layout of a single idea under the application's options. *)
Lemma lone_layout : layoutIdeas [onlyIdea] appOptions = Ok [loneNode].
Proof.
  replace [loneNode] with (embed <$> loneSettled).
  - apply (layoutIdeas_axis [onlyIdea] appOptions 8 axisCell (Some axisObstacle)
             loneStart).
    + exact lone_initial.
    + exact appOptions_gap.
    + exact appOptions_axisCell.
    + cbn. now rewrite axisObstacle_value.
    + vm_compute. reflexivity.
  - unfold loneSettled, loneNode, embed. cbn [fmap list_fmap aid amsg ax ar].
    f_equal. f_equal; unfold Q2R; cbn [Qnum Qden]; lra.
Qed.




End RelaxationGuarantee.

(** ** Gestures: tap classification *)

Section TapFacts.
Import Num Camera IdeaMap.

Lemma onPointerDown_tracking pid x0 y0 t0 g :
  pointersRef g = [] ->
  tracking pid x0 y0 t0 true (onPointerDown (mkPointerEvent pid x0 y0) t0 g).
Proof.
  intros Hidle. unfold onPointerDown. rewrite Hidle. cbn.
  destruct (focusRef g) as [[foc tx] ty]. cbn. split; [ | reflexivity].
  eexists. split; reflexivity.
Qed.

Lemma onPointerMove_tracking pid x0 y0 t0 act x y now g :
  tracking pid x0 y0 t0 act g ->
  tracking pid x0 y0 t0 (act && negb (gtb (displacement x0 y0 (x, y, now)) 8))
           (onPointerMove (mkPointerEvent pid x y) now g).
Proof.
  intros [[q [Hq Hid]] Htap]. unfold onPointerMove.
  rewrite Hq. cbn [pointerHas existsb pointerId]. rewrite Hid, Z.eqb_refl.
  cbn [orb negb pointerSet pointerId ps_id clientX clientY].
  rewrite Hid, Z.eqb_refl.
  assert (Hgate : moveTapGate (mkPointerEvent pid x y) (tapRef g)
                  = Some (mkTap pid x0 y0 t0
                            (act && negb (gtb (displacement x0 y0 (x, y, now)) 8)))).
  { rewrite Htap. unfold moveTapGate, displacement.
    cbn [tap_active tap_pointerId pointerId clientX clientY startX startY fst snd].
    rewrite Z.eqb_refl. destruct act; cbn [andb]; [ | reflexivity].
    destruct (gtb (hypot (x - x0) (y - y0)) 8); reflexivity. }
  rewrite Hgate.
  destruct (pinch_active (pinchRef g)); destruct (lastMoveRef g);
    (split; [eexists; split; reflexivity | reflexivity]).
Qed.

Lemma singlePointer_tracking pid x0 y0 t0 moves g :
  pointersRef g = [] ->
  tracking pid x0 y0 t0
    (forallb (fun m => negb (gtb (displacement x0 y0 m) 8)) moves)
    (singlePointer pid x0 y0 t0 moves g).
Proof.
  intros Hidle. unfold singlePointer.
  pose proof (onPointerDown_tracking pid x0 y0 t0 g Hidle) as H0.
  revert H0. generalize (onPointerDown (mkPointerEvent pid x0 y0) t0 g).
  replace (forallb (fun m => negb (gtb (displacement x0 y0 m) 8)) moves)
    with (true && forallb (fun m => negb (gtb (displacement x0 y0 m) 8)) moves)
    by reflexivity.
  generalize true.
  induction moves as [ | [[x y] now] moves IH]; intros act g0 H0; cbn [foldl forallb].
  - now rewrite andb_true_r.
  - rewrite andb_assoc. apply IH. cbn [fst snd].
    now apply onPointerMove_tracking.
Qed.

(** The release of a tracked pointer is a tap exactly when the gate is
    still open and the elapsed time is not above 450. *)
Lemma releaseGate_tracking pid x0 y0 t0 act xu yu tu g :
  tracking pid x0 y0 t0 act g ->
  snd (releaseGate (mkPointerEvent pid xu yu) tu g)
  = act && negb (gtb (tu - t0) 450).
Proof.
  intros [_ Htap]. unfold releaseGate. rewrite Htap.
  cbn [tap_active tap_pointerId pointerId startT]. rewrite Z.eqb_refl.
  destruct act; cbn [andb]; [ | reflexivity].
  destruct (gtb (tu - t0) 450); reflexivity.
Qed.

Lemma release_is_tap pid x0 y0 t0 moves xu yu tu g :
  pointersRef g = [] ->
  snd (releaseGate (mkPointerEvent pid xu yu) tu (singlePointer pid x0 y0 t0 moves g))
  = forallb (fun m => negb (gtb (displacement x0 y0 m) 8)) moves
    && negb (gtb (tu - t0) 450).
Proof.
  intros Hidle. eapply releaseGate_tracking. now apply singlePointer_tracking.
Qed.

Lemma within_gate x0 y0 moves :
  forallb (fun m => negb (gtb (displacement x0 y0 m) 8)) moves = true
  <-> Forall (fun m => displacement x0 y0 m <= 8) moves.
Proof.
  rewrite forallb_forall, Forall_forall. split; intros H m Hm.
  - apply list_elem_of_In in Hm. specialize (H m Hm).
    apply negb_true_iff in H. now apply ltb_false in H.
  - apply list_elem_of_In in Hm. specialize (H m Hm).
    apply negb_true_iff. now apply ltb_false.
Qed.

Lemma onPointerUp_gate vp e now g t :
  onPointerUp vp e now g t
  = if snd (releaseGate e now g)
    then tapAction vp e now (fst (releaseGate e now g)) t
    else (fst (releaseGate e now g), t, None).
Proof. unfold onPointerUp. now destruct (releaseGate e now g). Qed.

End TapFacts.

Section TapClassification.
Import Num Camera IdeaMap TapScenario.

Lemma displacement_along_x x0 y0 d now :
  0 <= d -> displacement x0 y0 (x0 + d, y0, now) = d.
Proof.
  intros Hd. unfold displacement. cbn [fst snd].
  replace (x0 + d - x0) with d by ring. replace (y0 - y0) with 0 by ring.
  rewrite hypot_axis. now apply Rabs_pos_eq.
Qed.

Lemma edge_displacement : displacement 100 100 (108, 100, 200) = 8.
Proof.
  replace 108 with (100 + 8) by lra. apply displacement_along_x. lra.
Qed.

Lemma short_displacement : displacement 100 100 (105, 100, 50) = 5.
Proof.
  replace 105 with (100 + 5) by lra. apply displacement_along_x. lra.
Qed.

(** C5, as stated, fails on the thresholds: a pointer that moved exactly
    8 px from where it went down and is released exactly 450 ms after the
    press (displacement >= 8 and elapsed >= 450) is still a tap. *)
Lemma tap_on_the_thresholds :
  displacement 100 100 (108, 100, 200) >= 8
  /\ 450 - 0 >= 450
  /\ snd (releaseGate (mkPointerEvent 1 108 100) 450
            (singlePointer 1 100 100 0 edgeMoves idleGesture)) = true.
Proof.
  split; [rewrite edge_displacement; lra | ]. split; [lra | ].
  rewrite release_is_tap by reflexivity.
  unfold edgeMoves. cbn [forallb]. rewrite edge_displacement.
  unfold gtb. rewrite (proj2 (ltb_false 8 8)) by lra.
  rewrite (proj2 (ltb_false 450 (450 - 0))) by lra. reflexivity.
Qed.

(** C5 (amended). For a single pointer pressed while no other pointer is
    down: if at every pointermove its displacement from the press
    position is at most 8 px and the release comes at most 450 ms after
    the press, the release is a tap, and [onPointerUp] goes on to the logo
    hit test and then the tile hit test; if the displacement is above 8 px
    at some pointermove, or the release comes more than 450 ms after the
    press, the release takes no tap action.  (Exactly 8 px and exactly
    450 ms still make a tap.) *)
Theorem tap_classification (vp : Viewport) (pid : Z) (x0 y0 t0 : R)
    (moves : list (R * R * R)) (xu yu tu : R) (g : Gesture) (t : Tiles) :
  pointersRef g = [] ->
  (Forall (fun m => displacement x0 y0 m <= 8) moves /\ tu - t0 <= 450 ->
   snd (releaseGate (mkPointerEvent pid xu yu) tu
          (singlePointer pid x0 y0 t0 moves g)) = true
   /\ onPointerUp vp (mkPointerEvent pid xu yu) tu
        (singlePointer pid x0 y0 t0 moves g) t
      = tapAction vp (mkPointerEvent pid xu yu) tu
          (fst (releaseGate (mkPointerEvent pid xu yu) tu
                  (singlePointer pid x0 y0 t0 moves g))) t)
  /\ (Exists (fun m => displacement x0 y0 m > 8) moves \/ tu - t0 > 450 ->
      snd (releaseGate (mkPointerEvent pid xu yu) tu
             (singlePointer pid x0 y0 t0 moves g)) = false
      /\ onPointerUp vp (mkPointerEvent pid xu yu) tu
           (singlePointer pid x0 y0 t0 moves g) t
         = (fst (releaseGate (mkPointerEvent pid xu yu) tu
                   (singlePointer pid x0 y0 t0 moves g)), t, None)).
Proof.
  intros Hidle.
  pose proof (release_is_tap pid x0 y0 t0 moves xu yu tu g Hidle) as Hrel.
  split.
  - intros [Hmoves Htime].
    assert (E : snd (releaseGate (mkPointerEvent pid xu yu) tu
                       (singlePointer pid x0 y0 t0 moves g)) = true).
    { rewrite Hrel. apply andb_true_iff. split.
      - now apply within_gate.
      - apply negb_true_iff. now apply ltb_false. }
    split; [exact E | ]. now rewrite onPointerUp_gate, E.
  - intros Hfar.
    assert (E : snd (releaseGate (mkPointerEvent pid xu yu) tu
                       (singlePointer pid x0 y0 t0 moves g)) = false).
    { rewrite Hrel. apply andb_false_iff. destruct Hfar as [Hex | Htime].
      - left. apply not_true_is_false. intros Hall.
        apply within_gate in Hall. apply Exists_exists in Hex.
        destruct Hex as [m [Hm Hgt]].
        rewrite Forall_forall in Hall. specialize (Hall m Hm). lra.
      - right. apply negb_false_iff. now apply ltb_true. }
    split; [exact E | ]. now rewrite onPointerUp_gate, E.
Qed.

Lemma short_moves_within :
  Forall (fun m => displacement 100 100 m <= 8) shortMoves /\ 120 - 0 <= 450.
Proof.
  split; [ | lra]. unfold shortMoves. constructor; [ | constructor].
  rewrite short_displacement. lra.
Qed.

Lemma tap_classification_witness :
  pointersRef idleGesture = []
  /\ snd (releaseGate (mkPointerEvent 1 105 100) 120
            (singlePointer 1 100 100 0 shortMoves idleGesture)) = true.
Proof.
  split; [reflexivity | ].
  exact (proj1 (proj1 (tap_classification viewport 1 100 100 0 shortMoves 105 100 120
                         idleGesture
                         (mkTiles [] ∅ ∅ ∅ [] ∅ ∅ ∅ true (0, 0) 70) eq_refl)
                      short_moves_within)).
Defined.

End TapClassification.

(** ** The like-toggle flow *)

Section ToggleGuard.
Import IdeaMap TileScenario.









End ToggleGuard.

Section LikeToast.
Import Num IdeaMap TileScenario.

Lemma setFlipTarget_target m i tgt :
  target <$> (setFlipTarget m i tgt !! i) = Some tgt.
Proof. unfold setFlipTarget. now rewrite lookup_insert_eq. Qed.

Lemma tapTile_flip i t :
  flipRef (fst (tapTile i t))
  = setFlipTarget (flipRef t) i (if bool_decide (i ∈ likedSetRef t) then 0 else 1).
Proof.
  unfold tapTile. cbn [withFlip onToggleLikeRef likeBusyRef].
  destruct (onToggleLikeRef t); cbn [negb]; [ | reflexivity].
  now destruct (bool_decide (i ∈ likeBusyRef t)).
Qed.

Lemma toggleFulfilled_toast i res now t :
  toastRef (toggleFulfilled i res now t) !! i
  = Some (mkToast (now + TOAST_MS) (likeCount res)
                  (if liked res then like else unlike)).
Proof. unfold toggleFulfilled. cbn. now rewrite lookup_insert_eq. Qed.

Lemma toggleFulfilled_flip i res now t :
  flipRef (toggleFulfilled i res now t)
  = setFlipTarget (flipRef t) i (if liked res then 1 else 0).
Proof. reflexivity. Qed.

(** C7. Like-toast flow.  A tap on a tile the user has not liked sets its
    flip target to 1 at once, in the same step that issues the toggle call
    (if one is issued).  When the call resolves with
    [{liked: true, likeCount: 7}] at time [t0], the flip target is 1 and a
    toast is recorded until [t0 + TOAST_MS], with [TOAST_MS = 2200]; a
    frame at a time before that which draws the tile's back-face text
    draws the toast, a confirmation line and the line with the count 7; a
    frame at [t0 + TOAST_MS] or later which draws the back-face text draws
    the idea's message alone and drops the toast. *)
Theorem like_toast_flow (t : Tiles) (n : Layout.Node) (t0 : R) :
  Layout.id n ∉ likedSetRef t ->
  target <$> (flipRef (fst (tapTile (Layout.id n) t)) !! Layout.id n) = Some 1
  /\ forall t1 : Tiles,
       let t2 := toggleFulfilled (Layout.id n) (mkToggleResult true 7) t0 t1 in
       TOAST_MS = 2200
       /\ target <$> (flipRef t2 !! Layout.id n) = Some 1
       /\ toastRef t2 !! Layout.id n = Some (mkToast (t0 + 2200) 7 like)
       /\ forall now frontAlpha backAlpha sr,
            ltb (from_option p 0 (flipRef t2 !! Layout.id n)) 0.5 = false ->
            backAlpha > 0.10 ->
            14 <= Rmax 8 (sr - Rmax 12 (sr * 0.22)) ->
            (now < t0 + 2200 ->
             drawTileText now frontAlpha backAlpha sr n t2
             = (t2, Some (BackToast "それな！👍" "合計: 7")))
            /\ (t0 + 2200 <= now ->
                drawTileText now frontAlpha backAlpha sr n t2
                = (withToast t2 (delete (Layout.id n) (toastRef t2)),
                   Some (BackMessage (Layout.message n)))).
Proof.
  intros Hunliked. split.
  - rewrite tapTile_flip, bool_decide_eq_false_2 by assumption.
    apply setFlipTarget_target.
  - intros t1 t2. split; [reflexivity | ]. split; [ | split].
    + subst t2. rewrite toggleFulfilled_flip. apply setFlipTarget_target.
    + subst t2. rewrite toggleFulfilled_toast. unfold TOAST_MS. reflexivity.
    + intros now frontAlpha backAlpha sr Hback Halpha Hsize.
      assert (Htoast : toastRef t2 !! Layout.id n = Some (mkToast (t0 + 2200) 7 like)).
      { subst t2. rewrite toggleFulfilled_toast. unfold TOAST_MS. reflexivity. }
      unfold drawTileText. rewrite Hback, Htoast. cbn [until likes kind].
      unfold gtb. rewrite (proj2 (ltb_true 0.10 backAlpha)) by lra.
      split; intros Hnow.
      * rewrite (proj2 (ltb_true now (t0 + 2200))) by lra.
        unfold drawBackToast. rewrite (proj2 (ltb_false _ 14)) by lra.
        reflexivity.
      * rewrite (proj2 (ltb_false now (t0 + 2200))) by lra.
        unfold drawBackOnlyMessage. rewrite (proj2 (ltb_false _ 14)) by lra.
        reflexivity.
Qed.

Lemma tappedA_back_face :
  ltb (from_option p 0
         (flipRef (toggleFulfilled "a" liked7 1000 tappedA) !! "a")) 0.5 = false.
Proof.
  rewrite toggleFulfilled_flip. unfold setFlipTarget, tappedA. cbn [flipRef].
  rewrite !lookup_insert_eq. unfold default. cbn [from_option Datatypes.id p].
  apply ltb_false. lra.
Qed.

Lemma large_tile_fits_text : 14 <= Rmax 8 (100 - Rmax 12 (100 * 0.22)).
Proof.
  rewrite (Rmax_right 12 (100 * 0.22)) by lra. rewrite Rmax_right; lra.
Qed.

Lemma like_toast_flow_witness :
  ("a" ∉ likedSetRef mounted)
  /\ target <$> (flipRef (fst (tapTile "a" mounted)) !! "a") = Some 1
  /\ snd (drawTileText 1500 1 1 100 tileA (toggleFulfilled "a" liked7 1000 tappedA))
     = Some (BackToast "それな！👍" "合計: 7")
  /\ snd (drawTileText 3200 1 1 100 tileA (toggleFulfilled "a" liked7 1000 tappedA))
     = Some (BackMessage "idea").
Proof.
  assert (H : Layout.id tileA ∉ likedSetRef mounted) by (cbn; set_solver).
  destruct (like_toast_flow mounted tileA 1000 H) as [Hflip Hres].
  destruct (Hres tappedA) as (_ & _ & _ & Hdraw).
  assert (Hlt : 1500 < 1000 + 2200) by lra.
  assert (Hge : 1000 + 2200 <= 3200) by lra.
  assert (Halpha : 1 > 0.10) by lra.
  split; [exact H | ]. split; [exact Hflip | ]. split.
  - exact (f_equal snd (proj1 (Hdraw 1500 1 1 100 tappedA_back_face Halpha
                                 large_tile_fits_text) Hlt)).
  - exact (f_equal snd (proj2 (Hdraw 3200 1 1 100 tappedA_back_face Halpha
                                 large_tile_fits_text) Hge)).
Defined.

End LikeToast.

(** ** Restoring the flips from the liked set *)

Section FlipRestore.
Import Num IdeaMap TileScenario.

Lemma newSet_elem_acc (l : list string) : forall (acc : list string) (i : string),
  i ∈ foldl (fun s j => if bool_decide (j ∈ s) then s else s ++ [j]) acc l
  <-> i ∈ acc \/ i ∈ l.
Proof.
  induction l as [ | k l IH]; intros acc i; cbn [foldl].
  - rewrite elem_of_nil. tauto.
  - rewrite IH, elem_of_cons. destruct (bool_decide_reflect (k ∈ acc)) as [Hk | Hk].
    + split; [tauto | ]. intros [H | [-> | H]]; tauto.
    + rewrite elem_of_app, list_elem_of_singleton. tauto.
Qed.

Lemma newSet_elem l i : i ∈ newSet l <-> i ∈ l.
Proof. unfold newSet. rewrite newSet_elem_acc, elem_of_nil. tauto. Qed.

(** A loop that sets the entries of the ids it does not skip. *)
Lemma foldl_set_lookup (skip : string -> bool) (v : Flip) (l : list string) :
  forall (m : gmap string Flip) (i : string),
  foldl (fun m' j => if skip j then m' else <[j := v]> m') m l !! i
  = if bool_decide (i ∈ l /\ skip i = false) then Some v else m !! i.
Proof.
  induction l as [ | k l IH]; intros m i; cbn [foldl].
  - rewrite bool_decide_eq_false_2; [reflexivity | ].
    rewrite elem_of_nil. tauto.
  - rewrite IH. destruct (bool_decide_reflect (i ∈ l /\ skip i = false)) as [H | H].
    + rewrite bool_decide_eq_true_2; [reflexivity | ].
      rewrite elem_of_cons. tauto.
    + destruct (decide (i = k)) as [-> | Hne].
      * destruct (skip k) eqn:E.
        -- rewrite bool_decide_eq_false_2; [reflexivity | ]. intros [_ ?]. congruence.
        -- rewrite lookup_insert_eq, bool_decide_eq_true_2; [reflexivity | ].
           rewrite elem_of_cons. tauto.
      * assert (Hl : (if skip k then m else <[k:=v]> m) !! i = m !! i).
        { destruct (skip k); [reflexivity | ]. now rewrite lookup_insert_ne. }
        rewrite Hl. rewrite bool_decide_eq_false_2; [reflexivity | ].
        rewrite elem_of_cons. tauto.
Qed.

Lemma restoreFlips_lookup likedIds t i :
  flipRef (restoreFlips likedIds t) !! i
  = if bool_decide (i ∈ prevLikedRef t /\ bool_decide (i ∈ newSet likedIds) = false)
    then Some (mkFlip 0 0)
    else if bool_decide (i ∈ newSet likedIds /\ bool_decide (i ∈ prevLikedRef t) = false)
         then Some (mkFlip 1 1)
         else flipRef t !! i.
Proof.
  unfold restoreFlips. cbn [flipRef].
  rewrite (foldl_set_lookup (fun j => bool_decide (j ∈ newSet likedIds))).
  now rewrite (foldl_set_lookup (fun j => bool_decide (j ∈ prevLikedRef t))).
Qed.

Lemma flipStep_settled a v : flipStep a (mkFlip v v) = mkFlip v v.
Proof.
  unfold flipStep. cbn [p target]. f_equal.
  destruct (ltb (Rabs (v + (v - v) * a - v)) 0.001); [reflexivity | ring].
Qed.

(** C10. Liked-set flip restoration: when the effect on [likedIds] runs,
    every id of the new snapshot that was not in the previous one gets the
    flip [{p: 1, target: 1}], every id of the previous snapshot that is
    not in the new one gets [{p: 0, target: 0}], every other flip is left
    as it is, and the new snapshot becomes the previous one.  Such a flip
    is already at its target, so the animation step leaves it where it is,
    and a newly liked tile is drawn by the back-face branch in the next
    frame (with an empty previous snapshot, as on load, that is every
    liked tile). *)
Theorem liked_flips_restored (likedIds : list string) (t : Tiles) (i : string) :
  (i ∈ likedIds -> i ∉ prevLikedRef t ->
   flipRef (restoreFlips likedIds t) !! i = Some (mkFlip 1 1)
   /\ forall now frontAlpha backAlpha sr n msg,
        Layout.id n = i ->
        snd (drawTileText now frontAlpha backAlpha sr n (restoreFlips likedIds t))
        <> Some (FrontText msg))
  /\ (i ∉ likedIds -> i ∈ prevLikedRef t ->
      flipRef (restoreFlips likedIds t) !! i = Some (mkFlip 0 0))
  /\ ((i ∈ likedIds <-> i ∈ prevLikedRef t) ->
      flipRef (restoreFlips likedIds t) !! i = flipRef t !! i)
  /\ (i ∈ prevLikedRef (restoreFlips likedIds t) <-> i ∈ likedIds)
  /\ (forall a, flipStep a (mkFlip 1 1) = mkFlip 1 1
                /\ flipStep a (mkFlip 0 0) = mkFlip 0 0).
Proof.
  assert (Hnew : i ∈ newSet likedIds <-> i ∈ likedIds) by apply newSet_elem.
  split; [ | split; [ | split; [ | split]]].
  - intros Hin Hprev.
    assert (E : flipRef (restoreFlips likedIds t) !! i = Some (mkFlip 1 1)).
    { rewrite restoreFlips_lookup.
      rewrite bool_decide_eq_false_2 by tauto.
      rewrite bool_decide_eq_true_2; [reflexivity | ].
      split; [tauto | ]. now apply bool_decide_eq_false_2. }
    split; [exact E | ].
    intros now frontAlpha backAlpha sr n msg Hid. unfold drawTileText.
    rewrite Hid, E. cbn [from_option p].
    rewrite (proj2 (ltb_false 1 0.5)) by lra.
    destruct (gtb backAlpha 0.10); [ | discriminate].
    destruct (toastRef (restoreFlips likedIds t) !! i) as [ts | ].
    + destruct (ltb now (until ts)); cbn [snd].
      * unfold drawBackToast. destruct (ltb _ 14); discriminate.
      * unfold drawBackOnlyMessage. destruct (ltb _ 14); discriminate.
    + cbn [snd]. unfold drawBackOnlyMessage. destruct (ltb _ 14); discriminate.
  - intros Hout Hprev. rewrite restoreFlips_lookup.
    rewrite bool_decide_eq_true_2; [reflexivity | ].
    split; [exact Hprev | ]. apply bool_decide_eq_false_2. tauto.
  - intros Hsame. rewrite restoreFlips_lookup.
    rewrite bool_decide_eq_false_2.
    + rewrite bool_decide_eq_false_2; [reflexivity | ].
      intros [H1 H2]. apply bool_decide_eq_false in H2. tauto.
    + intros [H1 H2]. apply bool_decide_eq_false in H2. tauto.
  - exact Hnew.
  - intros a. split; apply flipStep_settled.
Qed.

Lemma liked_flips_restored_witness :
  ("a" ∈ ["a"; "b"]) /\ ("a" ∉ prevLikedRef mounted)
  /\ flipRef (restoreFlips ["a"; "b"] mounted) !! "a" = Some (mkFlip 1 1).
Proof.
  assert (Hin : "a" ∈ ["a"; "b"]) by apply list_elem_of_here.
  assert (Hprev : "a" ∉ prevLikedRef mounted) by (cbn; apply not_elem_of_nil).
  split; [exact Hin | ]. split; [exact Hprev | ].
  exact (proj1 (proj1 (liked_flips_restored ["a"; "b"] mounted "a") Hin Hprev)).
Defined.

End FlipRestore.

(** ** The size pulse *)

Section SizePulse.
Import Num IdeaMap PulseScenario.

Lemma byLikes_bounds likes : 0 <= byLikes likes <= 0.16.
Proof. unfold byLikes. apply clamp_bounds. lra. Qed.

Lemma byMe_cases liked : byMe liked = 0.06 \/ byMe liked = 0.
Proof. destruct liked; cbn; auto. Qed.

(** The target of the size pulse is a function of the like count and of
    the user's own like: a clamped logarithmic bonus of at most 0.16 plus
    0.06 for the own like, clamped into [1, MAX_VISUAL_MUL]; and
    [MAX_VISUAL_MUL] is the factor that the layout multiplies into every
    radius. *)
Lemma size_pulse_target_bounds (likes : Z) (liked : bool) :
  targetMul likes liked = clamp (1 + byLikes likes + byMe liked) 1 MAX_VISUAL_MUL
  /\ 1 <= targetMul likes liked <= MAX_VISUAL_MUL
  /\ byLikes likes = clamp (log2 (IZR likes + 1) * 0.05) 0 0.16
  /\ 0 <= byLikes likes <= 0.16
  /\ (byMe liked = 0.06 \/ byMe liked = 0)
  /\ MAX_VISUAL_MUL <= Layout.MAX_VISUAL_MUL.
Proof.
  repeat split; try apply byLikes_bounds; try apply byMe_cases.
  - apply clamp_bounds. unfold MAX_VISUAL_MUL. lra.
  - apply clamp_bounds. unfold MAX_VISUAL_MUL. lra.
  - unfold MAX_VISUAL_MUL, Layout.MAX_VISUAL_MUL. lra.
Qed.

(** The layout radius of every node is its base radius times the text
    scale times [MAX_VISUAL_MUL]: the clamp to [24, maxR] never bites. *)
Lemma layout_radius_inflated spacing coords i idea :
  exists textScale, 1 <= textScale <= 1.28
    /\ Layout.r (Layout.initNode spacing coords i idea)
       = Layout.baseR * textScale * Layout.MAX_VISUAL_MUL.
Proof.
  unfold Layout.initNode. cbn [Layout.r].
  set (ts := clamp _ 1 1.28).
  assert (Hts : 1 <= ts <= 1.28) by (apply clamp_bounds; lra).
  exists ts. split; [exact Hts | ].
  apply clamp_id. unfold Layout.maxR, Layout.baseR, Layout.MAX_VISUAL_MUL. nra.
Qed.

Lemma log2_16 : log2 (IZR 15 + 1) = 4.
Proof.
  unfold log2. replace (IZR 15 + 1) with (2 ^ 4) by (simpl; lra).
  rewrite ln_pow by lra. simpl INR.
  pose proof ln_lt_2 as H. field. lra.
Qed.

Lemma targetMul_popular : targetMul 15 true = 1.22.
Proof.
  unfold targetMul, byLikes, byMe, MAX_VISUAL_MUL. rewrite log2_16.
  unfold clamp.
  rewrite (Rmin_left 0.16 (4 * 0.05)) by lra.
  rewrite (Rmax_right 0 0.16) by lra.
  rewrite (Rmin_left 1.22 (1 + 0.16 + 0.06)) by lra.
  apply Rmax_right. lra.
Qed.

Lemma log2_1 : log2 (IZR 0 + 1) = 0.
Proof.
  unfold log2. replace (IZR 0 + 1) with 1 by lra. rewrite ln_1.
  unfold Rdiv. ring.
Qed.

Lemma targetMul_own_like : targetMul 0 true = 1.06.
Proof.
  unfold targetMul, byLikes, byMe, MAX_VISUAL_MUL. rewrite log2_1.
  replace (0 * 0.05) with 0 by ring.
  rewrite (clamp_id 0 0 0.16) by lra.
  replace (1 + 0 + 0.06) with 1.06 by lra. apply clamp_id. lra.
Qed.

Lemma likedAlone_mul : visualMulNow likedAlone "a" = 1.06.
Proof.
  unfold visualMulNow, likedAlone, rendered.
  set (t0 := restoreFlips _ _).
  assert (Hr : radiusAnimRef t0 = ∅) by reflexivity.
  assert (Ha : computeTargetMul t0 "a" = 1.06).
  { unfold computeTargetMul. subst t0.
    cbn [likeMapRef likedSetRef restoreFlips setLikedSet setLikeMap
         Scenario.onlyIdea foldl Layout.idea_id Layout.likeCount].
    rewrite lookup_insert_eq.
    rewrite bool_decide_eq_true_2 by set_solver. apply targetMul_own_like. }
  clearbody t0. unfold retargetRadius.
  cbn [radiusAnimRef foldl Layout.idea_id Scenario.onlyIdea].
  rewrite Hr, Ha, lookup_empty. now rewrite lookup_insert_eq.
Qed.

Lemma pulsed_mul i : i = "a" \/ i = "b" -> visualMulNow pulsed i = 1.22.
Proof.
  intros Hi. unfold visualMulNow, pulsed, rendered.
  set (t0 := restoreFlips _ _).
  assert (Hr : radiusAnimRef t0 = ∅) by reflexivity.
  assert (Ha : computeTargetMul t0 "a" = 1.22).
  { unfold computeTargetMul. subst t0.
    cbn [likeMapRef likedSetRef restoreFlips setLikedSet setLikeMap
         Scenario.popular fmap list_fmap foldl Layout.idea_id Layout.likeCount].
    rewrite lookup_insert_ne by discriminate. rewrite lookup_insert_eq.
    rewrite bool_decide_eq_true_2 by set_solver. apply targetMul_popular. }
  assert (Hb : computeTargetMul t0 "b" = 1.22).
  { unfold computeTargetMul. subst t0.
    cbn [likeMapRef likedSetRef restoreFlips setLikedSet setLikeMap
         Scenario.popular fmap list_fmap foldl Layout.idea_id Layout.likeCount].
    rewrite lookup_insert_eq.
    rewrite bool_decide_eq_true_2 by set_solver. apply targetMul_popular. }
  clearbody t0. unfold retargetRadius, Scenario.popular.
  cbn [radiusAnimRef fmap list_fmap foldl Layout.idea_id].
  rewrite Hr, Ha, Hb, lookup_empty.
  rewrite lookup_insert_ne by discriminate. rewrite lookup_empty.
  destruct Hi as [-> | ->].
  - rewrite lookup_insert_ne by discriminate. now rewrite lookup_insert_eq.
  - now rewrite lookup_insert_eq.
Qed.

(** C8, where the code departs from it.  In the application's
    configuration, one idea liked by the user: the layout gives its tile
    the radius 39.04, the size-pulse multiplier is 1.06, and the radius
    the tile is hit-tested and drawn with (at camera scale 1) is
    [n.r * 1.06], the layout radius multiplied once more, so the pulsed
    radius exceeds the layout radius.  With two ideas of 15 likes each,
    both liked by the user, that the layout has put exactly
    [r_a + r_b + gap = 86.08] apart, both multipliers are 1.22 and the two
    drawn circles overlap. *)
Theorem pulsed_radius_exceeds_layout_radius :
  (Layout.layoutIdeas [Scenario.onlyIdea] Scenario.appOptions
     = Layout.Ok (nodesRef likedAlone)
   /\ nodesRef likedAlone = [Scenario.loneNode]
   /\ hitRadius likedAlone Scenario.loneNode = Layout.r Scenario.loneNode * 1.06
   /\ hitRadius likedAlone Scenario.loneNode > Layout.r Scenario.loneNode
   /\ drawnRadius likedAlone Scenario.loneNode 1 1 > Layout.r Scenario.loneNode)
  /\ Layout.layoutIdeas Scenario.popular Scenario.popularOptions
     = Layout.Ok (nodesRef pulsed)
  /\ nodesRef pulsed = [Scenario.pairA; Scenario.pairB]
  /\ Layout.NoOverlap 0 8 None (nodesRef pulsed)
  /\ hitRadius pulsed Scenario.pairA = Layout.r Scenario.pairA * 1.22
  /\ hitRadius pulsed Scenario.pairA > Layout.r Scenario.pairA
  /\ drawnRadius pulsed Scenario.pairA 1 1 > Layout.r Scenario.pairA
  /\ drawnRadius pulsed Scenario.pairA 1 1 + drawnRadius pulsed Scenario.pairB 1 1
     > Layout.dist Scenario.pairA Scenario.pairB.
Proof.
  assert (Hd : Layout.dist Scenario.pairA Scenario.pairB = 86.08).
  { unfold Layout.dist, Scenario.pairA, Scenario.pairB. cbn [Layout.x Layout.y].
    replace (0 - 0) with 0 by ring. rewrite hypot_axis.
    rewrite Rabs_pos_eq; lra. }
  assert (Hd' : Layout.dist Scenario.pairB Scenario.pairA = 86.08).
  { unfold Layout.dist, Scenario.pairA, Scenario.pairB. cbn [Layout.x Layout.y].
    replace (0 - 0) with 0 by ring. rewrite hypot_axis.
    rewrite Rabs_left; lra. }
  assert (Ha : hitRadius pulsed Scenario.pairA = 39.04 * 1.22).
  { unfold hitRadius. rewrite pulsed_mul by (left; reflexivity). reflexivity. }
  assert (Hb : hitRadius pulsed Scenario.pairB = 39.04 * 1.22).
  { unfold hitRadius. rewrite pulsed_mul by (right; reflexivity). reflexivity. }
  assert (Da : drawnRadius pulsed Scenario.pairA 1 1 = 39.04 * 1.22).
  { unfold drawnRadius. fold (hitRadius pulsed Scenario.pairA). rewrite Ha. ring. }
  assert (Db : drawnRadius pulsed Scenario.pairB 1 1 = 39.04 * 1.22).
  { unfold drawnRadius. fold (hitRadius pulsed Scenario.pairB). rewrite Hb. ring. }
  assert (Hl : hitRadius likedAlone Scenario.loneNode = 39.04 * 1.06).
  { unfold hitRadius. cbn [Layout.id Scenario.loneNode]. now rewrite likedAlone_mul. }
  split.
  { split; [exact lone_layout | ]. split; [reflexivity | ].
    unfold drawnRadius. fold (hitRadius likedAlone Scenario.loneNode).
    rewrite Hl. cbn [Layout.r Scenario.loneNode]. repeat split; lra. }
  split; [exact popular_layout | ]. split; [reflexivity | ]. split.
  - split; [ | intros o a [=] ].
    intros i j a b Hij Hi Hj.
    change (nodesRef pulsed) with [Scenario.pairA; Scenario.pairB] in Hi, Hj.
    destruct i as [ | [ | i]]; destruct j as [ | [ | j]]; try congruence;
      cbn in Hi, Hj; try discriminate;
      injection Hi as <-; injection Hj as <-; rewrite ?Hd, ?Hd';
      cbn [Layout.r Scenario.pairA Scenario.pairB]; lra.
  - rewrite Ha, Da, Db, Hd. cbn [Layout.r Scenario.pairA]. repeat split; lra.
Qed.

End SizePulse.

(** * Further properties of the code *)

(** ** layout.ts: the spiral *)

Section SpiralCells.
Import Num Layout Packing.

Lemma walk_length d steps : forall q r, length (walk d steps q r) = steps.
Proof. induction steps as [ | s IH]; intros q r; cbn; [reflexivity | now rewrite IH]. Qed.

Lemma sides_length ds k : forall q r, length (sides ds k q r) = (length ds * k)%nat.
Proof.
  induction ds as [ | d ds IH]; intros q r; cbn; [reflexivity | ].
  now rewrite length_app, walk_length, IH.
Qed.

Lemma ring_length k : length (ring k) = (6 * k)%nat.
Proof. unfold ring. now rewrite sides_length. Qed.

(** One side of the walk: it returns as soon as [n] cells are there. *)
Lemma stepLoop_walk n d steps : forall coords q r,
  (length coords <= n)%nat ->
  stepLoop n d steps coords q r
  = if (n - length coords <? steps)%nat
    then Return (coords ++ take (n - length coords) (walk d steps q r))
    else Continue (coords ++ walk d steps q r)
                  (q + Z.of_nat steps * fst d)%Z (r + Z.of_nat steps * snd d)%Z.
Proof.
  induction steps as [ | steps IH]; intros coords q r Hlen.
  - cbn [stepLoop walk]. replace (n - length coords <? 0)%nat with false
      by (symmetry; apply Nat.ltb_ge; lia).
    rewrite app_nil_r. f_equal; lia.
  - cbn [stepLoop walk]. destruct (n <=? length coords)%nat eqn:E.
    + apply Nat.leb_le in E.
      replace (n - length coords)%nat with 0%nat by lia. cbn.
      now rewrite app_nil_r.
    + apply Nat.leb_gt in E. rewrite IH by (rewrite length_app; cbn; lia).
      rewrite length_app. cbn [length].
      replace (n - (length coords + 1))%nat with (n - length coords - 1)%nat by lia.
      destruct (n - length coords)%nat as [ | m] eqn:Em; [lia | ].
      replace (S m - 1)%nat with m by lia.
      change (S m <? S steps)%nat with (m <? steps)%nat.
      destruct (m <? steps)%nat.
      * cbn [take]. now rewrite <- app_assoc.
      * rewrite <- app_assoc. cbn. f_equal; lia.
Qed.

Lemma sideLoop_sides n k ds : forall coords q r,
  (length coords <= n)%nat ->
  match sideLoop n ds k coords q r with
  | Return c => c = take n (coords ++ sides ds k q r)
                /\ (n <= length (coords ++ sides ds k q r))%nat
  | Continue c _ _ => c = coords ++ sides ds k q r /\ (length c <= n)%nat
  end.
Proof.
  induction ds as [ | d ds IH]; intros coords q r Hlen; cbn [sideLoop sides].
  - rewrite app_nil_r. split; [reflexivity | exact Hlen].
  - rewrite (stepLoop_walk n d k coords q r Hlen).
    destruct (n - length coords <? k)%nat eqn:E.
    + apply Nat.ltb_lt in E. split.
      * rewrite take_app_ge by lia. f_equal.
        rewrite take_app_le by (rewrite walk_length; lia). reflexivity.
      * rewrite !length_app, walk_length. lia.
    + apply Nat.ltb_ge in E.
      assert (Hl : (length (coords ++ walk d k q r) <= n)%nat)
        by (rewrite length_app, walk_length; lia).
      specialize (IH (coords ++ walk d k q r)
                     (q + Z.of_nat k * fst d)%Z (r + Z.of_nat k * snd d)%Z Hl).
      rewrite <- app_assoc in IH. exact IH.
Qed.

Lemma ringLoop_rings n fuel : forall k coords,
  (length coords <= n)%nat -> (n <= length (coords ++ rings fuel k))%nat ->
  ringLoop fuel n k coords = Ok (take n (coords ++ rings fuel k)).
Proof.
  induction fuel as [ | fuel IH]; intros k coords Hlen Hfuel; cbn [ringLoop rings] in *.
  - rewrite app_nil_r in *.
    replace (n <=? length coords)%nat with true by (symmetry; apply Nat.leb_le; lia).
    now rewrite take_ge by lia.
  - destruct (n <=? length coords)%nat eqn:E.
    + apply Nat.leb_le in E. f_equal. rewrite take_app_le by lia.
      now rewrite take_ge by lia.
    + apply Nat.leb_gt in E.
      pose proof (sideLoop_sides n k dirs coords (- Z.of_nat k)%Z (Z.of_nat k) Hlen)
        as Hs. fold (ring k) in Hs.
      destruct (sideLoop n dirs k coords (- Z.of_nat k) (Z.of_nat k))
        as [c q' r' | c].
      * destruct Hs as [-> Hc]. rewrite IH.
        -- now rewrite <- app_assoc.
        -- exact Hc.
        -- now rewrite <- app_assoc.
      * destruct Hs as [-> Hc]. f_equal.
        rewrite app_assoc. rewrite (take_app_le _ (rings fuel (S k))) by exact Hc.
        reflexivity.
Qed.

Lemma rings_length count : forall k,
  (1 <= k)%nat -> (count <= length (rings count k))%nat.
Proof.
  induction count as [ | c IH]; intros k Hk; cbn [rings].
  - cbn. lia.
  - rewrite length_app, ring_length. specialize (IH (S k)). lia.
Qed.

(** What [axialSpiral] returns: the origin and then the rings, cut after
    [n] cells. *)
Lemma axialSpiral_rings n :
  axialSpiral n = Ok (take (Nat.max 1 n) ((0, 0)%Z :: rings n 1)).
Proof.
  unfold axialSpiral. destruct (n <=? 1)%nat eqn:E.
  - apply Nat.leb_le in E. replace (Nat.max 1 n) with 1%nat by lia. reflexivity.
  - apply Nat.leb_gt in E. replace (Nat.max 1 n) with n by lia.
    apply (ringLoop_rings n n 1 [(0, 0)%Z]).
    + cbn. lia.
    + cbn [app length]. pose proof (rings_length n 1). lia.
Qed.

Lemma rings_prefix count : forall extra k,
  rings count k `prefix_of` rings (count + extra) k.
Proof.
  induction count as [ | c IH]; intros extra k; cbn [rings Nat.add].
  - apply prefix_nil.
  - apply prefix_app. apply IH.
Qed.

Lemma elem_of_walk d steps c : forall q r,
  c ∈ walk d steps q r
  <-> exists j, (0 <= j < Z.of_nat steps)%Z
                /\ c = (q + j * fst d, r + j * snd d)%Z.
Proof.
  induction steps as [ | s IH]; intros q r; cbn [walk].
  - rewrite elem_of_nil. split; [tauto | ]. intros (j & Hj & _). lia.
  - rewrite elem_of_cons, IH. split.
    + intros [-> | (j & Hj & ->)].
      * exists 0%Z. split; [lia | ]. f_equal; lia.
      * exists (j + 1)%Z. split; [lia | ]. f_equal; lia.
    + intros (j & Hj & ->). destruct (decide (j = 0%Z)) as [-> | Hne].
      * left. f_equal; lia.
      * right. exists (j - 1)%Z. split; [lia | ]. f_equal; lia.
Qed.

Lemma walk_NoDup d steps : d <> (0, 0)%Z -> forall q r, NoDup (walk d steps q r).
Proof.
  intros Hd. induction steps as [ | s IH]; intros q r; cbn [walk].
  - constructor.
  - apply NoDup_cons. split; [ | apply IH].
    rewrite elem_of_walk. intros (j & Hj & [= Hq Hr]).
    apply Hd. destruct d as [d1 d2]. cbn [fst snd] in *. f_equal; nia.
Qed.

(** The cells of ring [k], side by side. *)
Lemma elem_of_ring k c :
  c ∈ ring k
  <-> exists j, (0 <= j < Z.of_nat k)%Z
        /\ (c = (- Z.of_nat k + j, Z.of_nat k)
            \/ c = (j, Z.of_nat k - j)
            \/ c = (Z.of_nat k, - j)
            \/ c = (Z.of_nat k - j, - Z.of_nat k)
            \/ c = (- j, - Z.of_nat k + j)
            \/ c = (- Z.of_nat k, j))%Z.
Proof.
  unfold ring, dirs. cbn [sides fst snd].
  rewrite !elem_of_app, !elem_of_walk, elem_of_nil. cbn [fst snd]. split.
  - intros [(j & Hj & ->) | [(j & Hj & ->) | [(j & Hj & ->) | [(j & Hj & ->)
            | [(j & Hj & ->) | [(j & Hj & ->) | []]]]]]];
      exists j; (split; [exact Hj | ]).
    + left. f_equal; lia.
    + right; left. f_equal; lia.
    + do 2 right; left. f_equal; lia.
    + do 3 right; left. f_equal; lia.
    + do 4 right; left. f_equal; lia.
    + do 5 right. f_equal; lia.
  - intros (j & Hj & [-> | [-> | [-> | [-> | [-> | ->]]]]]).
    + left. exists j. split; [exact Hj | ]. f_equal; lia.
    + right; left. exists j. split; [exact Hj | ]. f_equal; lia.
    + do 2 right; left. exists j. split; [exact Hj | ]. f_equal; lia.
    + do 3 right; left. exists j. split; [exact Hj | ]. f_equal; lia.
    + do 4 right; left. exists j. split; [exact Hj | ]. f_equal; lia.
    + do 5 right; left. exists j. split; [exact Hj | ]. f_equal; lia.
Qed.

Lemma ring_hexDist k c : c ∈ ring k -> hexDist c = Z.of_nat k.
Proof.
  rewrite elem_of_ring. unfold hexDist.
  intros (j & Hj & [-> | [-> | [-> | [-> | [-> | ->]]]]]); cbn [fst snd]; lia.
Qed.

Lemma ring_NoDup k : NoDup (ring k).
Proof.
  unfold ring, dirs. cbn [sides fst snd]. rewrite app_nil_r.
  repeat (apply NoDup_app; split; [apply walk_NoDup; discriminate | split;
    [ | ] ]);
    try (apply walk_NoDup; discriminate).
  all: intros c Hc; rewrite ?elem_of_app, !elem_of_walk; cbn [fst snd];
    apply elem_of_walk in Hc; destruct Hc as (j & Hj & ->); cbn [fst snd];
    intros H;
    repeat match goal with
           | H : _ \/ _ |- _ => destruct H as [H | H]
           | H : exists _, _ |- _ => destruct H as (? & ? & [= ? ?])
           end; lia.
Qed.

Lemma rings_hexDist count : forall k c,
  c ∈ rings count k -> (Z.of_nat k <= hexDist c < Z.of_nat k + Z.of_nat count)%Z.
Proof.
  induction count as [ | n IH]; intros k c; cbn [rings].
  - now rewrite elem_of_nil.
  - rewrite elem_of_app. intros [H | H].
    + apply ring_hexDist in H. lia.
    + apply IH in H. lia.
Qed.

Lemma rings_NoDup count : forall k, NoDup (rings count k).
Proof.
  induction count as [ | n IH]; intros k; cbn [rings].
  - constructor.
  - apply NoDup_app. split; [apply ring_NoDup | split; [ | apply IH] ].
    intros c Hc Hc'. apply ring_hexDist in Hc. apply rings_hexDist in Hc'. lia.
Qed.

Lemma spiral_NoDup count : NoDup ((0, 0)%Z :: rings count 1).
Proof.
  apply NoDup_cons. split; [ | apply rings_NoDup].
  intros H. apply rings_hexDist in H. unfold hexDist in H. cbn in H. lia.
Qed.

(** X1. [axialSpiral(n)] ends and returns exactly [max(1, n)] cells, the
    first of which is the origin, and no cell twice: no two ideas start on
    the same spiral cell. *)
Theorem axialSpiral_cells (n : nat) :
  exists cells, axialSpiral n = Ok cells
    /\ length cells = Nat.max 1 n
    /\ cells !! 0%nat = Some (0, 0)%Z
    /\ NoDup cells.
Proof.
  exists (take (Nat.max 1 n) ((0, 0)%Z :: rings n 1)).
  split; [apply axialSpiral_rings | ].
  pose proof (rings_length n 1 ltac:(lia)) as Hl.
  split; [ | split].
  - rewrite length_take. cbn [length]. lia.
  - destruct (Nat.max 1 n) as [ | m] eqn:E; [lia | reflexivity].
  - eapply sublist_NoDup; [apply spiral_NoDup | apply sublist_take].
Qed.

(** X2. The spiral is stable under growth: for [n <= m] the cells of
    [axialSpiral(n)] are the first cells of [axialSpiral(m)], so adding
    ideas never changes the starting cell of the ideas already there. *)
Theorem axialSpiral_prefix (n m : nat) :
  (n <= m)%nat ->
  exists cn cm, axialSpiral n = Ok cn /\ axialSpiral m = Ok cm
                /\ cn `prefix_of` cm.
Proof.
  intros Hnm. rewrite !axialSpiral_rings. do 2 eexists.
  split; [reflexivity | split; [reflexivity | ] ].
  destruct (rings_prefix n (m - n) 1) as [tail Ht].
  replace (n + (m - n))%nat with m in Ht by lia. rewrite Ht.
  pose proof (rings_length n 1 ltac:(lia)) as Hl.
  set (l := (0, 0)%Z :: rings n 1).
  change ((0, 0)%Z :: rings n 1 ++ tail) with (l ++ tail).
  assert (Hlen : (Nat.max 1 n <= length l)%nat) by (subst l; cbn [length]; lia).
  destruct (decide (Nat.max 1 m <= length l)%nat) as [Hle | Hgt].
  - rewrite (take_app_le l tail (Nat.max 1 m)) by exact Hle.
    replace (Nat.max 1 n) with (Nat.min (Nat.max 1 n) (Nat.max 1 m)) by lia.
    rewrite <- take_take. apply prefix_take.
  - rewrite (take_app_ge l tail (Nat.max 1 m)) by lia.
    apply prefix_app_r. apply prefix_take.
Qed.

Lemma axialSpiral_prefix_witness :
  (3 <= 10)%nat
  /\ exists cn cm, axialSpiral 3 = Ok cn /\ axialSpiral 10 = Ok cm
                   /\ cn `prefix_of` cm.
Proof.
  assert (H : (3 <= 10)%nat) by lia.
  split; [exact H | exact (axialSpiral_prefix 3 10 H)].
Defined.

Lemma rings_lookup_distance count : forall k i c,
  rings count k !! i = Some c ->
  (3 * hexDist c * (hexDist c - 1) - 3 * Z.of_nat k * (Z.of_nat k - 1)
     <= Z.of_nat i
   < 3 * hexDist c * (hexDist c + 1) - 3 * Z.of_nat k * (Z.of_nat k - 1))%Z.
Proof.
  induction count as [ | n IH]; intros k i c; cbn [rings].
  - now rewrite lookup_nil.
  - pose proof (ring_length k) as Hl.
    rewrite lookup_app. destruct (ring k !! i) as [c' | ] eqn:E.
    + intros [= ->]. pose proof (lookup_lt_Some _ _ _ E) as Hi.
      apply list_elem_of_lookup_2, ring_hexDist in E. rewrite E. nia.
    + apply lookup_ge_None in E. intros H. pose proof (IH _ _ _ H) as Hd.
      rewrite Hl in *. nia.
Qed.

(** X3. The spiral fills ring after ring: the cell at index [i >= 1] of
    [axialSpiral(n)] is at hexagonal distance [d] from the origin where
    [3 d (d - 1) < i <= 3 d (d + 1)], so ideas earlier in the list start
    nearer the centre. *)
Theorem axialSpiral_ring_order (n : nat) (cells : list (Z * Z)) (i : nat) (c : Z * Z) :
  axialSpiral n = Ok cells -> (1 <= i)%nat -> cells !! i = Some c ->
  (3 * hexDist c * (hexDist c - 1) < Z.of_nat i
   <= 3 * hexDist c * (hexDist c + 1))%Z.
Proof.
  rewrite axialSpiral_rings. intros [= <-] Hi Hc.
  apply lookup_take_Some in Hc as [Hc _].
  destruct i as [ | j]; [lia | ]. cbn in Hc.
  apply rings_lookup_distance in Hc. lia.
Qed.

Lemma axialSpiral_ring_order_witness :
  axialSpiral 9 = Ok [(0, 0); (-1, 1); (0, 1); (1, 0); (1, -1); (0, -1);
                      (-1, 0); (-2, 2); (-1, 2)]%Z
  /\ (3 * hexDist (-2, 2)%Z * (hexDist (-2, 2)%Z - 1) < 7
      <= 3 * hexDist (-2, 2)%Z * (hexDist (-2, 2)%Z + 1))%Z.
Proof.
  assert (H : axialSpiral 9 = Ok [(0, 0); (-1, 1); (0, 1); (1, 0); (1, -1);
                                  (0, -1); (-1, 0); (-2, 2); (-1, 2)]%Z)
    by reflexivity.
  split; [exact H | ].
  exact (axialSpiral_ring_order 9 _ 7 (-2, 2)%Z H ltac:(lia) eq_refl).
Defined.

End SpiralCells.

(** ** Layout: what a relaxation keeps *)

Section RelaxationInvariant.
Import Num Layout Packing.

Variables (gap : R) (obstacle : option Obstacle) (I : list Node -> Prop).

Hypothesis pair_step : forall nodes i j a b ab,
  I nodes -> (i < j)%nat -> nodes !! i = Some a -> nodes !! j = Some b ->
  pairPush gap a b = Ok ab ->
  I (<[j := snd ab]> (<[i := fst ab]> nodes)).

Hypothesis obstacle_step : forall nodes i a o a1,
  I nodes -> obstacle = Some o -> nodes !! i = Some a ->
  obstaclePush gap o a = Ok a1 ->
  I (<[i := a1]> nodes).

Lemma get_inv {A} (l : list A) i a : get l i = Ok a -> l !! i = Some a.
Proof. unfold get. destruct (l !! i); [now intros [= ->] | discriminate]. Qed.

Lemma pairLoop_invariant i js : forall nodes nodes',
  I nodes -> pairLoop gap i js nodes = Ok nodes' -> I nodes'.
Proof.
  induction js as [ | j js IH]; intros nodes nodes' HI; cbn [pairLoop].
  - now intros [= <-].
  - destruct (j <=? i)%nat eqn:E; [now apply IH | ].
    apply Nat.leb_gt in E.
    destruct (get nodes i) as [a | ] eqn:Ea; [ | discriminate].
    destruct (get nodes j) as [b | ] eqn:Eb; [ | discriminate].
    cbn [bind]. destruct (pairPush gap a b) as [ab | ] eqn:Eab; [ | discriminate].
    cbn [bind]. apply IH.
    apply (pair_step nodes i j a b ab HI E (get_inv _ _ _ Ea) (get_inv _ _ _ Eb) Eab).
Qed.

Lemma relaxNode_invariant cs g i nodes nodes' :
  I nodes -> relaxNode gap obstacle cs g i nodes = Ok nodes' -> I nodes'.
Proof.
  intros HI. unfold relaxNode.
  destruct (get nodes i) as [a | ] eqn:Ea; [ | discriminate]. cbn [bind].
  apply get_inv in Ea.
  assert (Hstep : forall a1,
    match obstacle with Some o => obstaclePush gap o a | None => Ok a end = Ok a1 ->
    I (<[i := a1]> nodes)).
  { intros a1. destruct obstacle as [o | ] eqn:Eo.
    - intros H. exact (obstacle_step nodes i a o a1 HI eq_refl Ea H).
    - intros [= <-]. now rewrite list_insert_id. }
  destruct (match obstacle with Some o => obstaclePush gap o a | None => Ok a end)
    as [a1 | ]; [ | discriminate].
  cbn [bind]. specialize (Hstep a1 eq_refl).
  destruct (div (x a1) cs) as [qx | ]; [ | discriminate].
  destruct (div (y a1) cs) as [qy | ]; [ | discriminate].
  cbn [bind]. now apply pairLoop_invariant.
Qed.

Lemma nodeLoop_invariant cs g idxs : forall nodes nodes',
  I nodes -> nodeLoop gap obstacle cs g idxs nodes = Ok nodes' -> I nodes'.
Proof.
  induction idxs as [ | i idxs IH]; intros nodes nodes' HI; cbn [nodeLoop].
  - now intros [= <-].
  - destruct (relaxNode gap obstacle cs g i nodes) as [n1 | ] eqn:E; [ | discriminate].
    cbn [bind]. apply IH. exact (relaxNode_invariant cs g i nodes n1 HI E).
Qed.

Lemma pass_invariant cs nodes nodes' :
  I nodes -> pass gap obstacle cs nodes = Ok nodes' -> I nodes'.
Proof.
  intros HI. unfold pass.
  destruct (buildGrid cs 0 nodes ∅) as [g | ]; [ | discriminate].
  cbn [bind]. now apply nodeLoop_invariant.
Qed.

Lemma relax_invariant cs its : forall nodes nodes',
  I nodes -> relax its gap obstacle cs nodes = Ok nodes' -> I nodes'.
Proof.
  induction its as [ | its IH]; intros nodes nodes' HI; cbn [relax].
  - now intros [= <-].
  - destruct (pass gap obstacle cs nodes) as [n1 | ] eqn:E; [ | discriminate].
    cbn [bind]. apply IH. exact (pass_invariant cs nodes n1 HI E).
Qed.

End RelaxationInvariant.

(** ** Layout: order, ids, messages and radii of the output *)

Section LayoutLabels.
Import Num Layout Packing Scenario.

Lemma obstaclePush_label gap o a a' :
  obstaclePush gap o a = Ok a' -> label a' = label a.
Proof.
  unfold obstaclePush.
  destruct (if ltb (hypot (x a - obs_x o) (y a - obs_y o)) 1e-6
            then (1, 0, 1)
            else (x a - obs_x o, y a - obs_y o,
                  hypot (x a - obs_x o) (y a - obs_y o))) as [[dx dy] d].
  destruct (ltb d (r a + obs_r o + gap)); [ | now intros [= <-]].
  unfold div. destruct (Req_dec_T d 0); [discriminate | ].
  cbn [bind]. now intros [= <-].
Qed.

Lemma pairPush_label gap a b ab :
  pairPush gap a b = Ok ab -> label (fst ab) = label a /\ label (snd ab) = label b.
Proof.
  unfold pairPush.
  destruct (if ltb (hypot (x b - x a) (y b - y a)) 1e-6
            then (1, 0, 1)
            else (x b - x a, y b - y a, hypot (x b - x a) (y b - y a)))
    as [[dx dy] d].
  destruct (ltb d (r a + r b + gap)); [ | now intros [= <-]].
  unfold div. destruct (Req_dec_T d 0); [discriminate | ].
  cbn [bind]. now intros [= <-].
Qed.

Lemma insert_label (nodes : list Node) i a a' :
  nodes !! i = Some a -> label a' = label a ->
  label <$> <[i := a']> nodes = label <$> nodes.
Proof.
  intros Ha Hl. rewrite list_fmap_insert, Hl. apply list_insert_id.
  now rewrite list_lookup_fmap, Ha.
Qed.

Lemma relax_labels its gap o cs nodes nodes' :
  relax its gap o cs nodes = Ok nodes' -> label <$> nodes' = label <$> nodes.
Proof.
  apply (relax_invariant gap o (fun l => label <$> l = label <$> nodes)).
  - intros l i j a b ab Hl Hij Ha Hb Hab.
    destruct (pairPush_label _ _ _ _ Hab) as [La Lb].
    rewrite (insert_label _ j b).
    + now rewrite (insert_label _ i a).
    + rewrite list_lookup_insert_ne by lia. exact Hb.
    + exact Lb.
  - intros l i a o' a1 Hl _ Ha Ha1.
    rewrite (insert_label _ i a); [exact Hl | exact Ha | ].
    exact (obstaclePush_label _ _ _ _ Ha1).
  - reflexivity.
Qed.

Lemma initialNodes_labels ideas opts nodes :
  initialNodes ideas opts = Ok nodes -> label <$> nodes = labelOf <$> ideas.
Proof.
  unfold initialNodes.
  destruct (axialSpiral (length ideas)) as [coords | ]; [ | discriminate].
  cbn [bind]. intros [= <-]. rewrite fmap_imap, <- imap_const.
  apply imap_ext. reflexivity.
Qed.

Lemma layoutIdeas_labels ideas opts nodes :
  layoutIdeas ideas opts = Ok nodes -> label <$> nodes = labelOf <$> ideas.
Proof.
  unfold layoutIdeas.
  destruct (initialNodes ideas opts) as [n0 | ] eqn:E; [ | discriminate].
  cbn [bind]. intros H. rewrite (relax_labels _ _ _ _ _ _ H).
  exact (initialNodes_labels ideas opts n0 E).
Qed.

(** X4. [layoutIdeas] returns one node per idea, in the order of the
    ideas; node [i] carries the id of idea [i] and its message, the empty
    string when the idea has none.  The relaxation moves centres only. *)
Theorem layoutIdeas_keeps_order (ideas : list Idea) (opts : LayoutOptions)
    (nodes : list Node) :
  layoutIdeas ideas opts = Ok nodes ->
  id <$> nodes = idea_id <$> ideas
  /\ message <$> nodes
     = (fun idea => default EmptyString (idea_message idea)) <$> ideas.
Proof.
  intros H. apply layoutIdeas_labels in H. split.
  - apply (f_equal (fmap (fun l : string * string * R => fst (fst l)))) in H.
    now rewrite <- !list_fmap_compose in H.
  - apply (f_equal (fmap (fun l : string * string * R => snd (fst l)))) in H.
    now rewrite <- !list_fmap_compose in H.
Qed.

Lemma layoutIdeas_keeps_order_witness :
  layoutIdeas [onlyIdea] appOptions = Ok [loneNode]
  /\ id <$> [loneNode] = idea_id <$> [onlyIdea]
  /\ message <$> [loneNode]
     = (fun idea => default EmptyString (idea_message idea)) <$> [onlyIdea].
Proof.
  split; [exact lone_layout | ].
  exact (layoutIdeas_keeps_order [onlyIdea] appOptions [loneNode] lone_layout).
Defined.

Lemma floor_div7 (len : nat) : floor (INR len / 7) = Z.of_nat (len / 7).
Proof.
  apply floor_unique. rewrite !INR_IZR_INZ, Nat2Z.inj_div.
  pose proof (Z.div_mod (Z.of_nat len) 7 ltac:(lia)) as Hdm.
  pose proof (Z.mod_pos_bound (Z.of_nat len) 7 ltac:(lia)) as Hm.
  change (Z.of_nat 7) with 7%Z.
  set (q := (Z.of_nat len / 7)%Z) in *.
  assert (H1 : (7 * q <= Z.of_nat len)%Z) by lia.
  assert (H2 : (Z.of_nat len < 7 * q + 7)%Z) by lia.
  apply IZR_le in H1. apply IZR_lt in H2.
  rewrite plus_IZR, mult_IZR in H2. rewrite mult_IZR in H1. lra.
Qed.

Lemma radiusFor_steps (len : nat) :
  radiusFor len
  = 39.04 * (if (len <? 35)%nat then 1 + 0.06 * INR (len / 7) else 1.28).
Proof.
  unfold radiusFor, baseR, maxR, MAX_VISUAL_MUL, baseR.
  rewrite floor_div7, <- INR_IZR_INZ.
  destruct (len <? 35)%nat eqn:E.
  - apply Nat.ltb_lt in E.
    assert (Hq : (len / 7 <= 4)%nat).
    { apply Nat.lt_succ_r. apply Nat.Div0.div_lt_upper_bound. lia. }
    apply le_INR in Hq. simpl (INR 4) in Hq. pose proof (pos_INR (len / 7)) as Hp.
    rewrite (clamp_id (1 + INR (len / 7) * 0.06) 1 1.28) by lra.
    rewrite clamp_id by nra. lra.
  - apply Nat.ltb_ge in E.
    assert (Hq : (5 <= len / 7)%nat).
    { apply Nat.div_le_lower_bound; lia. }
    apply le_INR in Hq. simpl (INR 5) in Hq.
    assert (Hc : clamp (1 + INR (len / 7) * 0.06) 1 1.28 = 1.28).
    { unfold clamp. rewrite Rmin_left by lra. apply Rmax_right. lra. }
    rewrite Hc. rewrite clamp_id by lra. lra.
Qed.

(** X5. The radius of node [i] depends on the length of idea [i]'s
    message only: it is [39.04] (that is [32 * 1.22]) times
    [1 + 0.06 * (length div 7)] below 35 code units and times [1.28] from
    35 on, hence between [39.04] and [49.9712]; a missing message counts
    as length 0. *)
Theorem layoutIdeas_radius (ideas : list Idea) (opts : LayoutOptions)
    (nodes : list Node) (i : nat) (n : Node) :
  layoutIdeas ideas opts = Ok nodes -> nodes !! i = Some n ->
  exists idea, ideas !! i = Some idea
    /\ (let len := from_option String.length 0%nat (idea_message idea) in
        r n = 39.04 * (if (len <? 35)%nat then 1 + 0.06 * INR (len / 7) else 1.28))
    /\ 39.04 <= r n <= 49.9712.
Proof.
  intros H Hn. apply layoutIdeas_labels in H.
  assert (Hl : (label <$> nodes) !! i = Some (label n))
    by (now rewrite list_lookup_fmap, Hn).
  rewrite H, list_lookup_fmap in Hl.
  destruct (ideas !! i) as [idea | ]; [ | discriminate].
  injection Hl as _ _ Hr. exists idea. split; [reflexivity | ].
  cbn zeta. rewrite <- Hr, radiusFor_steps. split; [reflexivity | ].
  destruct (_ <? 35)%nat eqn:E; [ | lra].
  apply Nat.ltb_lt in E.
  assert (Hq : (from_option String.length 0 (idea_message idea) / 7 <= 4)%nat).
  { apply Nat.lt_succ_r. apply Nat.Div0.div_lt_upper_bound. lia. }
  apply le_INR in Hq. simpl (INR 4) in Hq.
  pose proof (pos_INR (from_option String.length 0%nat (idea_message idea) / 7)).
  lra.
Qed.

Lemma layoutIdeas_radius_witness :
  layoutIdeas [onlyIdea] appOptions = Ok [loneNode]
  /\ 39.04 <= r loneNode <= 49.9712.
Proof.
  split; [exact lone_layout | ].
  destruct (layoutIdeas_radius [onlyIdea] appOptions [loneNode] 0 loneNode
              lone_layout eq_refl) as (idea & _ & _ & Hb).
  exact Hb.
Defined.

End LayoutLabels.

(** ** Layout: pair pushes conserve the centroid *)

Section Centroid.
Import Num Layout Packing Axis Scenario.

Lemma sumX_insert (nodes : list Node) : forall i a a',
  nodes !! i = Some a -> sumX (<[i := a']> nodes) = sumX nodes - x a + x a'.
Proof.
  induction nodes as [ | n l IH]; intros [ | i] a a'; cbn; try discriminate.
  - intros [= ->]. lra.
  - intros H. change (foldr (fun n s => x n + s) 0 (<[i := a']> l))
      with (sumX (<[i := a']> l)).
    rewrite (IH i a a' H). unfold sumX. lra.
Qed.

Lemma sumY_insert (nodes : list Node) : forall i a a',
  nodes !! i = Some a -> sumY (<[i := a']> nodes) = sumY nodes - y a + y a'.
Proof.
  induction nodes as [ | n l IH]; intros [ | i] a a'; cbn; try discriminate.
  - intros [= ->]. lra.
  - intros H. change (foldr (fun n s => y n + s) 0 (<[i := a']> l))
      with (sumY (<[i := a']> l)).
    rewrite (IH i a a' H). unfold sumY. lra.
Qed.

(** The two halves of a pair push cancel. *)
Lemma pairPush_midpoint gap a b ab :
  pairPush gap a b = Ok ab ->
  x (fst ab) + x (snd ab) = x a + x b /\ y (fst ab) + y (snd ab) = y a + y b.
Proof.
  unfold pairPush.
  destruct (if ltb (hypot (x b - x a) (y b - y a)) 1e-6
            then (1, 0, 1)
            else (x b - x a, y b - y a, hypot (x b - x a) (y b - y a)))
    as [[dx dy] d].
  destruct (ltb d (r a + r b + gap)); [ | now intros [= <-]].
  unfold div. destruct (Req_dec_T d 0); [discriminate | ].
  cbn [bind]. intros [= <-]. cbn [fst snd x y]. split; lra.
Qed.

Lemma relax_centroid its gap cs nodes nodes' :
  relax its gap None cs nodes = Ok nodes' ->
  sumX nodes' = sumX nodes /\ sumY nodes' = sumY nodes.
Proof.
  apply (relax_invariant gap None
           (fun l => sumX l = sumX nodes /\ sumY l = sumY nodes)).
  - intros l i j a b ab [Hx Hy] Hij Ha Hb Hab.
    destruct (pairPush_midpoint _ _ _ _ Hab) as [Mx My].
    assert (Hb' : <[i := fst ab]> l !! j = Some b)
      by (rewrite list_lookup_insert_ne by lia; exact Hb).
    rewrite (sumX_insert _ j b _ Hb'), (sumX_insert _ i a _ Ha).
    rewrite (sumY_insert _ j b _ Hb'), (sumY_insert _ i a _ Ha).
    split; lra.
  - discriminate.
  - split; reflexivity.
Qed.

(** X6. Without a centre obstacle every move of the relaxation is a pair
    push, which moves the two nodes by opposite vectors: the sums of the
    x and of the y coordinates of the returned nodes are those of the
    initial spiral placement, so the packing keeps its centroid. *)
Theorem layoutIdeas_keeps_centroid (ideas : list Idea) (opts : LayoutOptions)
    (start nodes : list Node) :
  centerObstacle opts = None ->
  initialNodes ideas opts = Ok start ->
  layoutIdeas ideas opts = Ok nodes ->
  sumX nodes = sumX start /\ sumY nodes = sumY start.
Proof.
  intros Hobs Hstart. unfold layoutIdeas. rewrite Hstart, Hobs. cbn [bind].
  apply relax_centroid.
Qed.

Lemma layoutIdeas_keeps_centroid_witness :
  centerObstacle popularOptions = None
  /\ initialNodes popular popularOptions = Ok (embed <$> (axisNode <$> ["a"; "b"]))
  /\ layoutIdeas popular popularOptions = Ok [pairA; pairB]
  /\ sumX [pairA; pairB] = sumX (embed <$> (axisNode <$> ["a"; "b"]))
  /\ sumY [pairA; pairB] = sumY (embed <$> (axisNode <$> ["a"; "b"])).
Proof.
  assert (H0 : initialNodes popular popularOptions
               = Ok (embed <$> (axisNode <$> ["a"; "b"])))
    by (now apply initial_on_origin).
  split; [reflexivity | split; [exact H0 | split; [exact popular_layout | ] ] ].
  exact (layoutIdeas_keeps_centroid popular popularOptions _ _ eq_refl H0
           popular_layout).
Defined.

End Centroid.

(** ** Layout: the spatial hash *)

Section SpatialHash.
Import Num Layout Packing Axis Scenario.

Lemma gridAdd_lookup g key i key' :
  default [] (gridAdd g key i !! key')
  = default [] (g !! key') ++ (if decide (key = key') then [i] else []).
Proof.
  unfold gridAdd. destruct (decide (key = key')) as [<- | Hne].
  - destruct (g !! key) as [arr | ] eqn:E; now rewrite lookup_insert_eq.
  - destruct (g !! key) as [arr | ] eqn:E;
      rewrite lookup_insert_ne by assumption; now rewrite app_nil_r.
Qed.

Lemma buildGrid_buckets cs key : forall ns i g g',
  buildGrid cs i ns g = Ok g' ->
  default [] (g' !! key) = default [] (g !! key) ++ bucket cs key i ns.
Proof.
  induction ns as [ | n ns IH]; intros i g g'; cbn [buildGrid bucket].
  - intros [= <-]. now rewrite app_nil_r.
  - unfold div. destruct (Req_dec_T cs 0); [discriminate | ]. cbn [bind].
    intros H. rewrite (IH _ _ _ H), gridAdd_lookup, <- app_assoc.
    reflexivity.
Qed.

Lemma elem_of_bucket cs key : forall ns i j,
  j ∈ bucket cs key i ns
  <-> (i <= j)%nat /\ exists n, ns !! (j - i)%nat = Some n /\ cellOf cs n = key.
Proof.
  induction ns as [ | n ns IH]; intros i j; cbn [bucket].
  - rewrite elem_of_nil. split; [tauto | ]. intros (_ & m & H & _). discriminate.
  - rewrite elem_of_app, IH. split.
    + intros [H | (Hle & m & Hm & Hk)].
      * destruct (decide (cellOf cs n = key)) as [Hk | ];
          [ | now apply elem_of_nil in H].
        apply list_elem_of_singleton in H as ->. split; [lia | ].
        exists n. now rewrite Nat.sub_diag.
      * split; [lia | ]. exists m. split; [ | exact Hk].
        replace (j - i)%nat with (S (j - S i)) by lia. exact Hm.
    + intros (Hle & m & Hm & Hk). destruct (decide (j = i)) as [-> | Hne].
      * left. rewrite Nat.sub_diag in Hm. injection Hm as ->.
        rewrite decide_True by assumption. now apply list_elem_of_singleton.
      * right. split; [lia | ]. exists m. split; [ | exact Hk].
        replace (j - i)%nat with (S (j - S i)) in Hm by lia. exact Hm.
Qed.

Lemma bucket_NoDup cs key : forall ns i, NoDup (bucket cs key i ns).
Proof.
  induction ns as [ | n ns IH]; intros i; cbn [bucket].
  - constructor.
  - apply NoDup_app. split; [ | split; [ | apply IH] ].
    + destruct (decide _); [apply NoDup_singleton | constructor].
    + intros j Hj Hj'. apply elem_of_bucket in Hj' as [Hle _].
      destruct (decide _); [ | now apply elem_of_nil in Hj].
      apply list_elem_of_singleton in Hj. lia.
Qed.

Lemma bucket_disjoint cs key key' ns i j :
  j ∈ bucket cs key i ns -> j ∈ bucket cs key' i ns -> key = key'.
Proof.
  rewrite !elem_of_bucket. intros (_ & n & Hn & <-) (_ & n' & Hn' & <-).
  congruence.
Qed.

(** X7. The spatial hash finds every neighbour once: after the nodes are
    bucketed, the indices visited from cell [(ix, iy)] are exactly those
    of the nodes whose cell is [(ix, iy)] or one of its eight neighbours,
    and no index is visited twice. *)
Theorem candidates_are_neighbours (cs : R) (nodes : list Node)
    (g : gmap (Z * Z) (list nat)) (ix iy : Z) :
  buildGrid cs 0 nodes ∅ = Ok g ->
  NoDup (candidates g ix iy)
  /\ forall j, j ∈ candidates g ix iy
       <-> exists n, nodes !! j = Some n
             /\ (Z.abs (fst (cellOf cs n) - ix) <= 1)%Z
             /\ (Z.abs (snd (cellOf cs n) - iy) <= 1)%Z.
Proof.
  intros Hg.
  assert (Hb : forall key, default [] (g !! key) = bucket cs key 0 nodes).
  { intros key. rewrite (buildGrid_buckets cs key _ _ _ _ Hg).
    now rewrite lookup_empty. }
  unfold candidates, cellKey. cbn [flat_map].
  rewrite !Hb, !app_nil_r, <- !app_assoc. split.
  - repeat (apply NoDup_app; split; [apply bucket_NoDup | split; [ | ] ]);
      try apply bucket_NoDup.
    all: intros j Hj; rewrite ?elem_of_app; intros H;
      repeat match goal with
             | H : _ \/ _ |- _ => destruct H as [H | H]
             end;
      pose proof (bucket_disjoint _ _ _ _ _ _ Hj H) as E;
      pose proof (f_equal fst E) as E1; pose proof (f_equal snd E) as E2;
      cbn [fst snd] in E1, E2; lia.
  - intros j. rewrite !elem_of_app, !elem_of_bucket. split.
    + intros H.
      repeat match goal with
             | H : _ \/ _ |- _ => destruct H as [H | H]
             end;
        destruct H as (_ & n & Hn & Hk); rewrite Nat.sub_0_r in Hn;
        exists n; (split; [exact Hn | ]); rewrite Hk; cbn [fst snd]; lia.
    + intros (n & Hn & Hx & Hy).
      destruct (cellOf cs n) as [kx ky] eqn:E. cbn [fst snd] in Hx, Hy.
      assert (Hin : forall ox oy, kx = (ix + ox)%Z -> ky = (iy + oy)%Z ->
                (0 <= j)%nat /\ exists n0, nodes !! (j - 0)%nat = Some n0
                  /\ cellOf cs n0 = ((ix + ox)%Z, (iy + oy)%Z)).
      { intros ox oy -> ->. split; [lia | ]. exists n.
        now rewrite Nat.sub_0_r. }
      assert (Hox : kx = (ix + -1)%Z \/ kx = (ix + 0)%Z \/ kx = (ix + 1)%Z) by lia.
      assert (Hoy : ky = (iy + -1)%Z \/ ky = (iy + 0)%Z \/ ky = (iy + 1)%Z) by lia.
      destruct Hoy as [Hoy | [Hoy | Hoy]], Hox as [Hox | [Hox | Hox]];
        pose proof (Hin _ _ Hox Hoy) as Hc; tauto.
Qed.

Lemma candidates_are_neighbours_witness :
  buildGrid (Q2R 1) 0 (embed <$> [axisNode "a"]) ∅
    = Ok (buildGridQ 1 0 [axisNode "a"] ∅)
  /\ NoDup (candidates (buildGridQ 1 0 [axisNode "a"] ∅) 0 0).
Proof.
  assert (H : buildGrid (Q2R 1) 0 (embed <$> [axisNode "a"]) ∅
              = Ok (buildGridQ 1 0 [axisNode "a"] ∅))
    by (apply buildGrid_axis; discriminate).
  split; [exact H | ].
  exact (proj1 (candidates_are_neighbours _ _ _ 0 0 H)).
Defined.

End SpatialHash.

(** ** Frame loop: the world bounds and the soft camera clamp *)

Section CameraClamp.
Import Num Camera IdeaMap Frame TapScenario TileScenario.

Lemma growBounds_widens b n px py pr :
  inside b px py pr -> inside (growBounds b n) px py pr.
Proof.
  unfold inside, growBounds. cbn [minX maxX minY maxY]. intros (H1 & H2 & H3 & H4).
  pose proof (Rmin_l (minX b) (Layout.x n - Layout.r n)).
  pose proof (Rmax_l (maxX b) (Layout.x n + Layout.r n)).
  pose proof (Rmin_l (minY b) (Layout.y n - Layout.r n)).
  pose proof (Rmax_l (maxY b) (Layout.y n + Layout.r n)).
  repeat split; lra.
Qed.

Lemma growBounds_holds b n :
  inside (growBounds b n) (Layout.x n) (Layout.y n) (Layout.r n).
Proof.
  unfold inside, growBounds. cbn [minX maxX minY maxY].
  pose proof (Rmin_r (minX b) (Layout.x n - Layout.r n)).
  pose proof (Rmax_r (maxX b) (Layout.x n + Layout.r n)).
  pose proof (Rmin_r (minY b) (Layout.y n - Layout.r n)).
  pose proof (Rmax_r (maxY b) (Layout.y n + Layout.r n)).
  repeat split; lra.
Qed.

Lemma foldl_growBounds_widens l : forall b px py pr,
  inside b px py pr -> inside (foldl growBounds b l) px py pr.
Proof.
  induction l as [ | n l IH]; intros b px py pr H; cbn [foldl].
  - exact H.
  - apply IH. now apply growBounds_widens.
Qed.

Lemma foldl_growBounds_holds l : forall b n,
  n ∈ l -> inside (foldl growBounds b l) (Layout.x n) (Layout.y n) (Layout.r n).
Proof.
  induction l as [ | m l IH]; intros b n Hn.
  - now apply elem_of_nil in Hn.
  - cbn [foldl]. apply elem_of_cons in Hn as [-> | Hn].
    + apply foldl_growBounds_widens, growBounds_holds.
    + now apply IH.
Qed.

(** X8. [getWorldBounds] of an empty node list is the fixed box
    [-300 .. 300] on both axes, whatever the obstacle is; of a non-empty
    list it is a box that contains the circle of every node and the
    circle of the centre obstacle. *)
Theorem getWorldBounds_contains (t : Tiles) :
  (nodesRef t = [] -> getWorldBounds t = mkBounds (-300) 300 (-300) 300)
  /\ (nodesRef t <> [] ->
      inside (getWorldBounds t) (fst (centerWorldRef t)) (snd (centerWorldRef t))
             (obstacleRRef t)
      /\ forall n, n ∈ nodesRef t ->
           inside (getWorldBounds t) (Layout.x n) (Layout.y n) (Layout.r n)).
Proof.
  unfold getWorldBounds. destruct (nodesRef t) as [ | n0 rest].
  - split; [reflexivity | congruence].
  - split; [discriminate | intros _].
    cbv zeta. set (b0 := mkBounds (Layout.x n0 - Layout.r n0) _ _ _).
    set (b := foldl growBounds b0 rest).
    set (cwx := fst (centerWorldRef t)). set (cwy := snd (centerWorldRef t)).
    set (obs := obstacleRRef t).
    assert (Hw : forall px py pr, inside b px py pr ->
              inside (mkBounds (Rmin (minX b) (cwx - obs)) (Rmax (maxX b) (cwx + obs))
                               (Rmin (minY b) (cwy - obs)) (Rmax (maxY b) (cwy + obs)))
                     px py pr).
    { intros px py pr (H1 & H2 & H3 & H4). unfold inside. cbn [minX maxX minY maxY].
      pose proof (Rmin_l (minX b) (cwx - obs)).
      pose proof (Rmax_l (maxX b) (cwx + obs)).
      pose proof (Rmin_l (minY b) (cwy - obs)).
      pose proof (Rmax_l (maxY b) (cwy + obs)).
      repeat split; lra. }
    split.
    + unfold inside. cbn [minX maxX minY maxY].
      repeat split; (apply Rmin_r || apply Rmax_r).
    + intros n Hn. apply Hw. apply elem_of_cons in Hn as [-> | Hn].
      * apply foldl_growBounds_widens. unfold inside, b0.
        cbn [minX maxX minY maxY]. repeat split; lra.
      * now apply foldl_growBounds_holds.
Qed.

Lemma getWorldBounds_contains_witness :
  nodesRef mounted <> []
  /\ inside (getWorldBounds mounted) (Layout.x tileA) (Layout.y tileA) (Layout.r tileA).
Proof.
  assert (H : nodesRef mounted <> []) by discriminate.
  split; [exact H | ].
  apply (proj2 (proj2 (getWorldBounds_contains mounted) H) tileA).
  apply list_elem_of_singleton. reflexivity.
Defined.





End CameraClamp.

(** ** Frame loop: text opacity *)

Section TextOpacity.
Import Num Camera IdeaMap Frame TileScenario.

Lemma smoothstep_range e0 e1 v : 0 <= smoothstep e0 e1 v <= 1.
Proof.
  unfold smoothstep. cbv zeta.
  pose proof (clamp_bounds ((v - e0) / (e1 - e0)) 0 1 ltac:(lra)) as [H0 H1].
  set (t := clamp _ 0 1) in *. split.
  - apply Rmult_le_pos; [apply Rmult_le_pos; lra | lra].
  - assert (0 <= (1 - t) * (1 - t) * (1 + 2 * t))
      by (apply Rmult_le_pos; [apply Rmult_le_pos; lra | lra]).
    lra.
Qed.

Lemma smoothstep_below e0 e1 v : e0 < e1 -> v <= e0 -> smoothstep e0 e1 v = 0.
Proof.
  intros He Hv. unfold smoothstep. cbv zeta.
  assert (Hq : (v - e0) / (e1 - e0) <= 0).
  { unfold Rdiv. assert (0 < / (e1 - e0)) by (apply Rinv_0_lt_compat; lra). nra. }
  assert (Hc : clamp ((v - e0) / (e1 - e0)) 0 1 = 0).
  { unfold clamp. rewrite Rmin_right by lra. apply Rmax_left. lra. }
  rewrite Hc. ring.
Qed.

Lemma smoothstep_above e0 e1 v : e0 < e1 -> e1 <= v -> smoothstep e0 e1 v = 1.
Proof.
  intros He Hv. unfold smoothstep. cbv zeta.
  assert (Hq : 1 <= (v - e0) / (e1 - e0)).
  { apply (Rmult_le_reg_r (e1 - e0)); [lra | ]. unfold Rdiv.
    rewrite Rmult_assoc, Rinv_l by lra. lra. }
  assert (Hc : clamp ((v - e0) / (e1 - e0)) 0 1 = 1).
  { unfold clamp. rewrite Rmin_left by lra. apply Rmax_right. lra. }
  rewrite Hc. ring.
Qed.

Lemma clamp_mono a b lo hi : a <= b -> clamp a lo hi <= clamp b lo hi.
Proof.
  intros H. unfold clamp. apply Rle_max_compat_l. now apply Rle_min_compat_l.
Qed.

(** X10. [smoothstep(edge0, edge1, x)] with [edge0 < edge1] is a
    non-decreasing function of [x] with values in [0, 1], equal to [0] up
    to [edge0] and to [1] from [edge1] on. *)
Theorem smoothstep_shape (edge0 edge1 v v' : R) :
  edge0 < edge1 -> v <= v' ->
  0 <= smoothstep edge0 edge1 v
  /\ smoothstep edge0 edge1 v <= smoothstep edge0 edge1 v'
  /\ smoothstep edge0 edge1 v' <= 1
  /\ (v' <= edge0 -> smoothstep edge0 edge1 v' = 0)
  /\ (edge1 <= v -> smoothstep edge0 edge1 v = 1).
Proof.
  intros He Hv. split; [apply smoothstep_range | ].
  split; [ | split; [apply smoothstep_range | ] ];
    [ | split; [now apply smoothstep_below | now apply smoothstep_above] ].
  unfold smoothstep. cbv zeta.
  assert (Hq : (v - edge0) / (edge1 - edge0) <= (v' - edge0) / (edge1 - edge0)).
  { unfold Rdiv. apply Rmult_le_compat_r; [ | lra].
    left. apply Rinv_0_lt_compat. lra. }
  pose proof (clamp_mono _ _ 0 1 Hq) as Hm.
  pose proof (clamp_bounds ((v - edge0) / (edge1 - edge0)) 0 1 ltac:(lra)) as [A0 A1].
  pose proof (clamp_bounds ((v' - edge0) / (edge1 - edge0)) 0 1 ltac:(lra)) as [B0 B1].
  set (s := clamp ((v - edge0) / (edge1 - edge0)) 0 1) in *.
  set (t := clamp ((v' - edge0) / (edge1 - edge0)) 0 1) in *.
  assert (Hd : t * t * (3 - 2 * t) - s * s * (3 - 2 * s)
               = (t - s) * (3 * (t + s) - 2 * (t * t + t * s + s * s))) by ring.
  assert (0 <= 3 * (t + s) - 2 * (t * t + t * s + s * s)) by nra.
  assert (0 <= (t - s) * (3 * (t + s) - 2 * (t * t + t * s + s * s)))
    by (apply Rmult_le_pos; lra).
  lra.
Qed.

Lemma smoothstep_shape_witness :
  0.72 < 0.95 /\ 0.5 <= 1
  /\ smoothstep 0.72 0.95 0.5 <= smoothstep 0.72 0.95 1.
Proof.
  assert (He : 0.72 < 0.95) by lra. assert (Hv : 0.5 <= 1) by lra.
  split; [exact He | split; [exact Hv | ] ].
  exact (proj1 (proj2 (smoothstep_shape 0.72 0.95 0.5 1 He Hv))).
Defined.

Lemma clamp_zero lo hi : lo <= 0 <= hi -> clamp 0 lo hi = 0.
Proof. intros H. now apply clamp_id. Qed.

Lemma alphas_fast vel s :
  1400 <= panSpeedPx vel s -> frontAlpha vel s = 0 /\ backAlpha vel s = 0.
Proof.
  intros H. unfold frontAlpha, backAlpha, alphaBySpeed.
  rewrite (smoothstep_above 900 1400) by lra.
  replace (smoothstep 0.72 0.95 s * (1 - 1)) with 0 by ring.
  replace (smoothstep 0.82 1.02 s * (1 - 1)) with 0 by ring.
  split; apply clamp_zero; lra.
Qed.

(** X11. Zoomed out or panning fast, a tile shows no text: a tile that
    shows its front draws nothing when the scale is at most [0.72], one
    that shows its back draws nothing when the scale is at most [0.82],
    and neither draws anything when the pan speed on screen is [1400]
    pixels per second or more.  In these frames the toast of the tile is
    left as it is. *)
Theorem text_hidden_far_or_fast (now sr s : R) (vel : R * R) (n : Layout.Node)
    (t : Tiles) :
  (from_option p 0 (flipRef t !! Layout.id n) < 0.5 /\ s <= 0.72)
  \/ (0.5 <= from_option p 0 (flipRef t !! Layout.id n) /\ s <= 0.82)
  \/ 1400 <= panSpeedPx vel s ->
  drawTileText now (frontAlpha vel s) (backAlpha vel s) sr n t = (t, None).
Proof.
  intros H. unfold drawTileText. cbv zeta.
  assert (Hlow : gtb 0 0.10 = false) by (apply ltb_false; lra).
  destruct H as [[Hp Hs] | [[Hp Hs] | Hfast]].
  - apply ltb_true in Hp. rewrite Hp.
    unfold frontAlpha. rewrite (smoothstep_below 0.72 0.95) by lra.
    rewrite Rmult_0_l, clamp_zero by lra. now rewrite Hlow.
  - apply ltb_false in Hp. rewrite Hp.
    unfold backAlpha. rewrite (smoothstep_below 0.82 1.02) by lra.
    rewrite Rmult_0_l, clamp_zero by lra. now rewrite Hlow.
  - destruct (alphas_fast vel s Hfast) as [-> ->]. rewrite Hlow.
    now destruct (ltb _ 0.5).
Qed.

Lemma text_hidden_far_or_fast_witness :
  (from_option p 0 (flipRef mounted !! Layout.id tileA) < 0.5 /\ 0.5 <= 0.72)
  /\ drawTileText 0 (frontAlpha (0, 0) 0.5) (backAlpha (0, 0) 0.5) 40 tileA mounted
     = (mounted, None).
Proof.
  assert (H : from_option p 0 (flipRef mounted !! Layout.id tileA) < 0.5
              /\ 0.5 <= 0.72).
  { split; [ | lra]. unfold mounted. cbn [flipRef].
    rewrite lookup_empty. cbn [from_option]. lra. }
  split; [exact H | ].
  exact (text_hidden_far_or_fast 0 40 0.5 (0, 0) tileA mounted (or_introl H)).
Defined.

End TextOpacity.

(** ** Frame loop: the spawn animation *)

Section SpawnAnimation.
Import Num Camera IdeaMap Frame TapScenario TileScenario.

Lemma easeOutCubic_range t : 0 <= t <= 1 -> 0 <= easeOutCubic t <= 1.
Proof.
  intros [H0 H1]. unfold easeOutCubic. cbn [pow].
  assert (0 <= (1 - t) * ((1 - t) * ((1 - t) * 1)))
    by (repeat apply Rmult_le_pos; lra).
  assert ((1 - t) * ((1 - t) * ((1 - t) * 1)) <= 1) by nra.
  lra.
Qed.

(** X12. A spawned tile flies in from where the pointer was.  Once
    [draw] has turned the pending spawn of tile [n] into an animation at
    time [start], the tile is drawn at the pointer's world position with
    size factor [0.35] and opacity [0.2] at any time up to [start]; at
    [start + 520] ms or later it is drawn at its own position with size
    factor and opacity [1], and the animation is deleted; in between the
    size factor stays in [0.35, 1] and the opacity in [0.2, 1]. *)
Theorem spawn_animation (c : Camera) (vp : Viewport) (start now : R)
    (ps : PendingSpawn) (m : gmap string SpawnAnim) (n : Layout.Node) :
  Layout.id n = spawn_id ps ->
  let m1 := spawnStart c vp start ps m in
  let w0 := screenToWorld c vp (spawn_x ps - left vp) (spawn_y ps - top vp) in
  (now <= start -> spawnPose now n m1 = (mkPose (fst w0) (snd w0) 0.35 0.2, m1))
  /\ (start + 520 <= now ->
      spawnPose now n m1
      = (mkPose (Layout.x n) (Layout.y n) 1 1, delete (Layout.id n) m1))
  /\ 0.35 <= sizeMul (fst (spawnPose now n m1)) <= 1
  /\ 0.2 <= extraAlpha (fst (spawnPose now n m1)) <= 1.
Proof.
  intros Hid m1 w0. subst m1. unfold spawnPose, spawnStart. fold w0.
  rewrite Hid, lookup_insert_eq. cbn [x0 y0 t0 dur fst snd].
  split; [ | split].
  - intros H.
    assert (Hc : clamp ((now - start) / 520) 0 1 = 0).
    { unfold clamp. rewrite Rmin_right by lra. apply Rmax_left. lra. }
    rewrite Hc. assert (He : easeOutCubic 0 = 0) by (unfold easeOutCubic; ring).
    rewrite He. assert (Hl : leb 1 0 = false) by (apply leb_false; lra).
    rewrite Hl. f_equal. f_equal; ring.
  - intros H.
    assert (Hc : clamp ((now - start) / 520) 0 1 = 1).
    { unfold clamp. rewrite Rmin_left by lra. apply Rmax_right. lra. }
    rewrite Hc. assert (He : easeOutCubic 1 = 1) by (unfold easeOutCubic; ring).
    rewrite He. assert (Hl : leb 1 1 = true) by (apply leb_true; lra).
    rewrite Hl. f_equal. f_equal; lra.
  - pose proof (clamp_bounds ((now - start) / 520) 0 1 ltac:(lra)) as Hb.
    apply easeOutCubic_range in Hb. cbn [fst sizeMul extraAlpha]. lra.
Qed.

Lemma spawn_animation_witness :
  Layout.id tileA = spawn_id (mkPendingSpawn "a" 400 300)
  /\ spawnPose 0 tileA (spawnStart (mkCamera 0 0 1) viewport 0
                          (mkPendingSpawn "a" 400 300) ∅)
     = (mkPose (fst (screenToWorld (mkCamera 0 0 1) viewport (400 - 0) (300 - 0)))
               (snd (screenToWorld (mkCamera 0 0 1) viewport (400 - 0) (300 - 0)))
               0.35 0.2,
        spawnStart (mkCamera 0 0 1) viewport 0 (mkPendingSpawn "a" 400 300) ∅).
Proof.
  assert (H : Layout.id tileA = spawn_id (mkPendingSpawn "a" 400 300))
    by reflexivity.
  split; [exact H | ].
  exact (proj1 (spawn_animation (mkCamera 0 0 1) viewport 0 0
                  (mkPendingSpawn "a" 400 300) ∅ tileA H) (Rle_refl 0)).
Defined.

End SpawnAnimation.

(** ** Frame loop: the size pulse and the flip stay in range *)

Section AnimationRange.
Import Num Camera IdeaMap Frame TileScenario.













End AnimationRange.

(** ** Frame loop: inertia and focus *)

Section Coasting.
Import Num Camera IdeaMap Frame TapScenario.







End Coasting.

(** ** Gestures: dragging, pinching and the wheel *)

Section Dragging.
Import Num Camera IdeaMap Frame Journey TapScenario TileScenario.










Lemma moveTapGate_disarmed e tp :
  match tp with Some t => tap_active t = false | None => True end ->
  match moveTapGate e tp with Some t => tap_active t = false | None => True end.
Proof.
  destruct tp as [t | ]; [ | trivial]. cbn [moveTapGate]. intros H.
  now rewrite H.
Qed.

Lemma onPointerMove_disarmed e now g :
  tapDisarmed g -> tapDisarmed (onPointerMove e now g).
Proof.
  intros H. unfold tapDisarmed in *. pose proof (moveTapGate_disarmed e _ H) as Hm.
  unfold onPointerMove.
  destruct (negb (pointerHas (pointersRef g) (pointerId e))); [exact H | ].
  destruct (pinch_active (pinchRef g)).
  - destruct (pointerSet _ _) as [ | p0 [ | p1 [ | p2 l] ] ];
      destruct (lastMoveRef g); exact Hm.
  - destruct (lastMoveRef g); exact Hm.
Qed.

Lemma movesOf_disarmed events : forall g,
  tapDisarmed g -> tapDisarmed (movesOf events g).
Proof.
  induction events as [ | m events IH]; intros g H; cbn [movesOf foldl].
  - exact H.
  - apply IH. now apply onPointerMove_disarmed.
Qed.

Lemma releaseGate_disarmed e now g :
  tapDisarmed g -> snd (releaseGate e now g) = false.
Proof.
  unfold tapDisarmed, releaseGate. destruct (tapRef g) as [t | ]; [ | reflexivity].
  intros ->. cbn [andb]. now destruct (Z.eqb (tap_pointerId t) (pointerId e)).
Qed.

(** X19. A second finger cancels the tap: when a pointer goes down
    while exactly one other pointer is down, the pinch starts and the tap
    is disarmed; whatever moves follow, the release of either pointer is
    not a tap: it issues no like call and leaves the tiles as they are. *)
Theorem second_pointer_cancels_tap (vp : Viewport) (e e' : PointerEvent)
    (now now' : R) (q : PointerState) (events : list (PointerEvent * R))
    (g : Gesture) (t : Tiles) :
  pointersRef g = [q] -> ps_id q <> pointerId e ->
  let g1 := onPointerDown e now g in
  let g2 := movesOf events g1 in
  pinch_active (pinchRef g1) = true
  /\ tapDisarmed g1
  /\ onPointerUp vp e' now' g2 t = (fst (releaseGate e' now' g2), t, None).
Proof.
  intros Hq Hne g1 g2.
  assert (H1 : pinch_active (pinchRef g1) = true /\ tapDisarmed g1).
  { subst g1. unfold onPointerDown, tapDisarmed. rewrite Hq. cbn [pointerSet ps_id].
    apply Z.eqb_neq in Hne. rewrite Hne.
    destruct (focusRef g) as [[foc tx] ty]. cbn. now split. }
  destruct H1 as [Hp Hd]. split; [exact Hp | split; [exact Hd | ] ].
  rewrite onPointerUp_gate.
  now rewrite (releaseGate_disarmed e' now' g2 (movesOf_disarmed events g1 Hd)).
Qed.

Lemma second_pointer_cancels_tap_witness :
  pointersRef (onPointerDown (mkPointerEvent 1 100 100) 0 idleGesture)
  = [mkPointerState 1 100 100]
  /\ ps_id (mkPointerState 1 100 100) <> pointerId (mkPointerEvent 2 200 100)
  /\ tapDisarmed (onPointerDown (mkPointerEvent 2 200 100) 10
                    (onPointerDown (mkPointerEvent 1 100 100) 0 idleGesture)).
Proof.
  assert (Hq : pointersRef (onPointerDown (mkPointerEvent 1 100 100) 0 idleGesture)
               = [mkPointerState 1 100 100]) by reflexivity.
  assert (Hne : ps_id (mkPointerState 1 100 100)
                <> pointerId (mkPointerEvent 2 200 100)) by (cbn; lia).
  split; [exact Hq | split; [exact Hne | ] ].
  exact (proj1 (proj2 (second_pointer_cancels_tap viewport (mkPointerEvent 2 200 100)
                         (mkPointerEvent 1 100 100) 10 20 _ [] _ mounted Hq Hne))).
Defined.




End Dragging.

(** ** Tiles: the hit test *)

Section HitTest.
Import Num Camera IdeaMap Hit TapScenario TileScenario.

Lemma find_first {A} (f : A -> bool) (l : list A) (a : A) :
  List.find f l = Some a
  <-> exists i, l !! i = Some a /\ f a = true
        /\ forall j b, (j < i)%nat -> l !! j = Some b -> f b = false.
Proof.
  induction l as [ | h l IH]; cbn [List.find].
  - split; [discriminate | ]. intros (i & H & _). now rewrite lookup_nil in H.
  - destruct (f h) eqn:E.
    + split.
      * intros [= <-]. exists 0%nat. split; [reflexivity | ]. split; [exact E | ].
        intros j b Hj. lia.
      * intros (i & Hi & Ha & Hfirst). destruct i as [ | i].
        -- now injection Hi as ->.
        -- specialize (Hfirst 0%nat h ltac:(lia) eq_refl). congruence.
    + rewrite IH. split.
      * intros (i & Hi & Ha & Hfirst). exists (S i). split; [exact Hi | ].
        split; [exact Ha | ]. intros [ | j] b Hj Hb.
        -- injection Hb as <-. exact E.
        -- apply (Hfirst j b); [lia | exact Hb].
      * intros (i & Hi & Ha & Hfirst). destruct i as [ | i].
        -- injection Hi as ->. congruence.
        -- exists i. split; [exact Hi | ]. split; [exact Ha | ].
           intros j b Hj Hb. apply (Hfirst (S j) b); [lia | exact Hb].
Qed.

Lemma find_nothing {A} (f : A -> bool) (l : list A) :
  List.find f l = None <-> forall a, a ∈ l -> f a = false.
Proof.
  induction l as [ | h l IH]; cbn [List.find].
  - split; [ | reflexivity]. intros _ a Ha. now apply elem_of_nil in Ha.
  - destruct (f h) eqn:E.
    + split; [discriminate | ]. intros H. specialize (H h (list_elem_of_here _ _)).
      congruence.
    + rewrite IH. split.
      * intros H a Ha. apply elem_of_cons in Ha as [-> | Ha]; [exact E | now apply H].
      * intros H a Ha. apply H. now apply list_elem_of_further.
Qed.

(** X21. The hit test returns the first tile, in list order, whose
    pulsed circle (layout radius times the current size pulse, boundary
    included) contains the point, and nothing exactly when no tile's
    pulsed circle contains it. *)
Theorem hitTest_first_cover (c : Camera) (vp : Viewport) (t : Tiles) (sx sy : R) :
  (forall n, hitTest c vp t sx sy = Some n
     <-> exists i, nodesRef t !! i = Some n /\ covers c vp t sx sy n
           /\ forall j m, (j < i)%nat -> nodesRef t !! j = Some m ->
                ~ covers c vp t sx sy m)
  /\ (hitTest c vp t sx sy = None
      <-> forall n, n ∈ nodesRef t -> ~ covers c vp t sx sy n).
Proof.
  unfold hitTest, covers. cbv zeta. split.
  - intros n. rewrite find_first. split.
    + intros (i & Hi & Hn & Hfirst). exists i. split; [exact Hi | ].
      split; [now apply leb_true | ].
      intros j m Hj Hm Hc. apply leb_true in Hc.
      specialize (Hfirst j m Hj Hm). cbv beta in Hfirst. congruence.
    + intros (i & Hi & Hn & Hfirst). exists i. split; [exact Hi | ].
      split; [now apply leb_true | ].
      intros j m Hj Hm. specialize (Hfirst j m Hj Hm).
      apply leb_false. lra.
  - rewrite find_nothing. split.
    + intros H n Hn Hc. apply leb_true in Hc. specialize (H n Hn).
      cbv beta in H. congruence.
    + intros H n Hn. specialize (H n Hn). apply leb_false. lra.
Qed.

End HitTest.

(** ** Tiles: wrapping a message and choosing its font *)

Section TextFitting.
Import Num TextFit.

Variable measure : Z -> string -> R.

Lemma append_cons c (s t : string) : String c s +:+ t = String c (s +:+ t).
Proof. reflexivity. Qed.

Lemma append_nil_l (t : string) : EmptyString +:+ t = t.
Proof. reflexivity. Qed.

Lemma append_nil_r (s : string) : s +:+ EmptyString = s.
Proof.
  induction s as [ | c s IH]; [reflexivity | now rewrite append_cons, IH].
Qed.

Lemma append_assoc (a b c : string) : (a +:+ b) +:+ c = a +:+ (b +:+ c).
Proof.
  induction a as [ | ch a IH]; [reflexivity | now rewrite !append_cons, IH].
Qed.

Lemma joined_snoc (l : list string) (s : string) : joined (l ++ [s]) = joined l +:+ s.
Proof.
  induction l as [ | a l IH]; cbn [joined foldr app].
  - apply append_nil_r.
  - fold (joined (l ++ [s])). fold (joined l). now rewrite IH, append_assoc.
Qed.

Lemma joined_chars (s : string) : joined (chars s) = s.
Proof.
  induction s as [ | c s IH]; cbn [chars joined foldr]; [reflexivity | ].
  fold (joined (chars s)). now rewrite IH, append_cons, append_nil_l.
Qed.

Lemma chars_single (s : string) : Forall (fun ch => String.length ch = 1%nat) (chars s).
Proof. induction s as [ | c s IH]; cbn [chars]; constructor; [reflexivity | exact IH]. Qed.

Lemma nonEmpty_false (s : string) : nonEmpty s = false -> s = EmptyString.
Proof.
  unfold nonEmpty. destruct s as [ | c s]; [reflexivity | ]. cbn. discriminate.
Qed.

Lemma nonEmpty_true (s : string) : nonEmpty s = true -> s <> EmptyString.
Proof. intros H ->. discriminate. Qed.

(** What holds of the lines pushed so far and of the line being built. *)
Lemma wrapLoop_spec font maxWidth : forall text lines line,
  Forall (fun ch => String.length ch = 1%nat) text ->
  Forall (fun l => l <> EmptyString
                   /\ (String.length l = 1%nat \/ measure font l <= maxWidth)) lines ->
  (line = EmptyString \/ String.length line = 1%nat \/ measure font line <= maxWidth) ->
  let res := wrapLoop measure font maxWidth text lines line in
  joined (fst res) +:+ snd res = (joined lines +:+ line) +:+ joined text
  /\ Forall (fun l => l <> EmptyString
                      /\ (String.length l = 1%nat \/ measure font l <= maxWidth))
            (fst res)
  /\ (snd res = EmptyString \/ String.length (snd res) = 1%nat
      \/ measure font (snd res) <= maxWidth).
Proof.
  induction text as [ | ch rest IH]; intros lines line Htext Hlines Hline res.
  - subst res. cbn [wrapLoop fst snd]. change (joined []) with EmptyString.
    rewrite append_nil_r. auto.
  - subst res. inversion Htext as [ | ? ? Hch Hrest]; subst. cbn [wrapLoop].
    destruct (gtb (measure font (line +:+ ch)) maxWidth && nonEmpty line) eqn:E.
    + apply andb_true_iff in E as [_ Hne]. apply nonEmpty_true in Hne.
      destruct (IH (lines ++ [line]) ch Hrest) as (Hj & Hl & Hc).
      * apply Forall_app. split; [exact Hlines | ]. constructor; [ | constructor].
        split; [exact Hne | ]. destruct Hline as [-> | Hline]; [congruence | exact Hline].
      * auto.
      * split; [ | now split]. rewrite Hj, joined_snoc. cbn [joined foldr].
        fold (joined rest). now rewrite !append_assoc.
    + destruct (IH lines (line +:+ ch) Hrest Hlines) as (Hj & Hl & Hc).
      * apply andb_false_iff in E as [E | E].
        -- right. right. apply ltb_false in E. exact E.
        -- apply nonEmpty_false in E. subst line. rewrite append_nil_l. auto.
      * split; [ | now split]. rewrite Hj. cbn [joined foldr].
        fold (joined rest). now rewrite !append_assoc.
Qed.

Lemma wrapByChars_joined (font : Z) (msg : string) (maxWidth : R) :
  joined (wrapByChars measure font (chars msg) maxWidth) = msg.
Proof.
  unfold wrapByChars.
  destruct (wrapLoop_spec font maxWidth (chars msg) [] EmptyString
              (chars_single msg) (Forall_nil_2 _) (or_introl eq_refl))
    as (Hj & _ & _).
  destruct (wrapLoop measure font maxWidth (chars msg) [] EmptyString)
    as [lines line].
  cbn [fst snd] in Hj. change (joined []) with EmptyString in Hj.
  rewrite joined_chars, !append_nil_l in Hj.
  destruct (nonEmpty line) eqn:En.
  - now rewrite joined_snoc.
  - apply nonEmpty_false in En. subst line. now rewrite append_nil_r in Hj.
Qed.


Lemma fontLoop_spec text maxWidth maxHeight : forall fuel font,
  (font - minFont + 1 <= Z.of_nat fuel)%Z ->
  match fontLoop measure fuel font text maxWidth maxHeight with
  | Some (f, lines) =>
      (minFont <= f <= font)%Z
      /\ fits measure f text maxWidth maxHeight = true
      /\ lines = wrapByChars measure f text maxWidth
      /\ forall f', (f < f' <= font)%Z ->
           fits measure f' text maxWidth maxHeight = false
  | None =>
      forall f', (minFont <= f' <= font)%Z ->
        fits measure f' text maxWidth maxHeight = false
  end.
Proof.
  induction fuel as [ | fuel IH]; intros font Hfuel; cbn [fontLoop].
  - intros f' Hf'. lia.
  - destruct (font <? minFont)%Z eqn:Elt.
    + apply Z.ltb_lt in Elt. intros f' Hf'. lia.
    + apply Z.ltb_ge in Elt.
      destruct (fits measure font text maxWidth maxHeight) eqn:Efit.
      * split; [lia | ]. split; [exact Efit | ]. split; [reflexivity | ].
        intros f' Hf'. lia.
      * specialize (IH (font - 1)%Z ltac:(lia)).
        destruct (fontLoop measure fuel (font - 1) text maxWidth maxHeight)
          as [[f lines] | ].
        -- destruct IH as (Hr & Hf & Hl & Hmax). split; [lia | ].
           split; [exact Hf | ]. split; [exact Hl | ].
           intros f' Hf'. destruct (decide (f' = font)) as [-> | Hne];
             [exact Efit | apply Hmax; lia].
        -- intros f' Hf'. destruct (decide (f' = font)) as [-> | Hne];
             [exact Efit | apply IH; lia].
Qed.

Lemma fitText_joined (msg : string) (maxWidth maxHeight maxFont : R) :
  joined (snd (fitText measure msg maxWidth maxHeight maxFont)) = msg.
Proof.
  unfold fitText.
  pose proof (fontLoop_spec (chars msg) maxWidth maxHeight
                (Z.to_nat (floor maxFont - minFont + 1)) (floor maxFont)
                ltac:(lia)) as Hspec.
  destruct (fontLoop measure _ _ _ _ _) as [[f lines] | ]; cbn [snd].
  - destruct Hspec as (_ & _ & -> & _). apply wrapByChars_joined.
  - cbn [joined foldr]. apply append_nil_r.
Qed.


Lemma fitText_font (msg : string) (maxWidth maxHeight maxFont : R) (hi : Z) :
  (10 <= hi)%Z -> maxFont <= IZR hi ->
  (10 <= fst (fitText measure msg maxWidth maxHeight maxFont) <= hi)%Z.
Proof.
  intros Hhi Hm.
  assert (Hfl : (floor maxFont <= hi)%Z).
  { destruct (floor_spec maxFont) as [F1 _].
    apply le_IZR. lra. }
  unfold fitText.
  pose proof (fontLoop_spec (chars msg) maxWidth maxHeight
                (Z.to_nat (floor maxFont - minFont + 1)) (floor maxFont)
                ltac:(lia)) as Hspec.
  destruct (fontLoop measure _ _ _ _ _) as [[f lines] | ]; cbn [fst].
  - destruct Hspec as (Hr & _). unfold minFont in Hr. lia.
  - unfold minFont. lia.
Qed.

Lemma usable_radius sr k lim :
  0 < k < 1 -> 8 < lim -> 12 + lim <= 12 / k ->
  ltb (Rmax 8 (sr - Rmax 12 (sr * k))) lim = true <-> sr < 12 + lim.
Proof.
  intros Hk Hlim Hbig. rewrite ltb_true. split.
  - intros H. destruct (Rle_dec (sr * k) 12) as [Hle | Hgt].
    + rewrite (Rmax_left 12) in H by lra.
      pose proof (Rmax_r 8 (sr - 12)). lra.
    + apply Rnot_le_lt in Hgt. rewrite (Rmax_right 12) in H by lra.
      pose proof (Rmax_r 8 (sr - sr * k)) as Hr.
      assert (Hq : 12 / k < sr).
      { apply (Rmult_lt_reg_r k); [lra | ]. unfold Rdiv.
        rewrite Rmult_assoc, Rinv_l by lra. lra. }
      assert (Hx : 12 / k * (1 - k) < sr * (1 - k))
        by (apply Rmult_lt_compat_r; lra).
      assert (Hy : 12 / k * (1 - k) = 12 / k - 12) by (field; lra).
      lra.
  - intros H. assert (Hle : sr * k <= 12).
    { assert (sr * k <= 12 / k * k).
      { apply Rmult_le_compat_r; lra. }
      replace (12 / k * k) with 12 in * by (field; lra). lra. }
    rewrite (Rmax_left 12) by lra. apply Rmax_lub_lt; lra.
Qed.

(** X24. Which tiles get text, and how large: [drawTextFront] draws
    nothing exactly when the drawn radius is below 24, and otherwise uses
    a font of 10 to 28 px; [drawBackOnlyMessage] draws nothing exactly
    when the drawn radius is below 26, and otherwise uses a font of 10 to
    22 px.  In both the lines drawn, joined, are the message. *)
Theorem text_guards_and_fonts (sr : R) (msg : string) :
  (TextFit.drawTextFront measure sr msg = None <-> sr < 24)
  /\ (TextFit.drawBackOnlyMessage measure sr msg = None <-> sr < 26)
  /\ (forall f lines, TextFit.drawTextFront measure sr msg = Some (f, lines) ->
        (10 <= f <= 28)%Z /\ joined lines = msg)
  /\ (forall f lines, TextFit.drawBackOnlyMessage measure sr msg = Some (f, lines) ->
        (10 <= f <= 22)%Z /\ joined lines = msg).
Proof.
  assert (Hfront : ltb (Rmax 8 (sr - Rmax 12 (sr * 0.30))) 12 = true <-> sr < 24).
  { replace 24 with (12 + 12) by lra. apply usable_radius; lra. }
  assert (Hback : ltb (Rmax 8 (sr - Rmax 12 (sr * 0.22))) 14 = true <-> sr < 26).
  { replace 26 with (12 + 14) by lra. apply usable_radius; lra. }
  unfold TextFit.drawTextFront, TextFit.drawBackOnlyMessage. cbv zeta.
  split; [ | split; [ | split] ].
  - destruct (ltb _ 12) eqn:E.
    + split; [intros _; now apply Hfront | reflexivity].
    + split; [discriminate | ]. intros H. apply Hfront in H. congruence.
  - destruct (ltb _ 14) eqn:E.
    + split; [intros _; now apply Hback | reflexivity].
    + split; [discriminate | ]. intros H. apply Hback in H. congruence.
  - intros f lines. destruct (ltb _ 12); [discriminate | ]. intros [= H].
    pose proof (fitText_font msg (Rmax 8 (sr - Rmax 12 (sr * 0.30)) * 1.62)
                  (Rmax 8 (sr - Rmax 12 (sr * 0.30)) * 1.42)
                  (clamp (sr * 0.34) 14 28) 28 ltac:(lia)) as Hf.
    pose proof (fitText_joined msg (Rmax 8 (sr - Rmax 12 (sr * 0.30)) * 1.62)
                  (Rmax 8 (sr - Rmax 12 (sr * 0.30)) * 1.42)
                  (clamp (sr * 0.34) 14 28)) as Hj.
    rewrite H in Hf, Hj. cbn [fst snd] in Hf, Hj. split; [ | exact Hj].
    apply Hf. pose proof (clamp_bounds (sr * 0.34) 14 28 ltac:(lra)). lra.
  - intros f lines. destruct (ltb _ 14); [discriminate | ]. intros [= H].
    pose proof (fitText_font msg (Rmax 8 (sr - Rmax 12 (sr * 0.22)) * 1.62)
                  (Rmax 8 (sr - Rmax 12 (sr * 0.22)) * 1.55)
                  (clamp (sr * 0.28) 12 22) 22 ltac:(lia)) as Hf.
    pose proof (fitText_joined msg (Rmax 8 (sr - Rmax 12 (sr * 0.22)) * 1.62)
                  (Rmax 8 (sr - Rmax 12 (sr * 0.22)) * 1.55)
                  (clamp (sr * 0.28) 12 22)) as Hj.
    rewrite H in Hf, Hj. cbn [fst snd] in Hf, Hj. split; [ | exact Hj].
    apply Hf. pose proof (clamp_bounds (sr * 0.28) 12 22 ltac:(lra)). lra.
Qed.

End TextFitting.

Section TextFittingExample.
Import Num TextFit.


End TextFittingExample.

(** ** App: the like toggle around its server call *)

Section AppLikes.
Import IdeaMap App.

Lemma includes_true (l : list string) i : includes l i = true <-> i ∈ l.
Proof. unfold includes. apply bool_decide_eq_true. Qed.

Lemma includes_false (l : list string) i : includes l i = false <-> i ∉ l.
Proof. unfold includes. apply bool_decide_eq_false. Qed.

Lemma elem_of_without (l : list string) i j : j ∈ without l i <-> j <> i /\ j ∈ l.
Proof. unfold without. exact (list_elem_of_filter (fun x => x <> i) l j). Qed.

Lemma without_NoDup (l : list string) i : NoDup l -> NoDup (without l i).
Proof. unfold without. apply NoDup_filter. Qed.

Lemma snoc_NoDup (l : list string) i : NoDup l -> i ∉ l -> NoDup (l ++ [i]).
Proof.
  intros Hl Hi. apply NoDup_app. split; [exact Hl | ]. split.
  - intros j Hj Hj'. apply list_elem_of_singleton in Hj'. congruence.
  - apply NoDup_singleton.
Qed.

(** The liked ids after the optimistic update and the server's answer. *)
Lemma reconciled_ids (l : list string) i (srv : bool) :
  NoDup l ->
  let next0 := if includes l i then without l i else l ++ [i] in
  let has := includes next0 i in
  let next1 := if srv && negb has then next0 ++ [i] else next0 in
  let next := if negb srv && has then without next0 i else next1 in
  NoDup next
  /\ (i ∈ next <-> srv = true)
  /\ forall j, j <> i -> (j ∈ next <-> j ∈ l).
Proof.
  intros Hl next0 has next1 next. subst next next1 has next0.
  destruct (includes l i) eqn:E0.
  - apply includes_true in E0.
    assert (Hn : i ∉ without l i) by (rewrite elem_of_without; tauto).
    apply includes_false in Hn as Hf. rewrite Hf.
    rewrite andb_false_r. cbn [negb]. rewrite andb_true_r.
    destruct srv; cbn [negb andb].
    + split; [apply snoc_NoDup; [now apply without_NoDup | exact Hn] | ].
      split.
      * rewrite elem_of_app, list_elem_of_singleton. tauto.
      * intros j Hj. rewrite elem_of_app, list_elem_of_singleton, elem_of_without.
        tauto.
    + split; [now apply without_NoDup | ]. split.
      * split; [tauto | discriminate].
      * intros j Hj. rewrite elem_of_without. tauto.
  - apply includes_false in E0.
    assert (Hin : i ∈ l ++ [i])
      by (rewrite elem_of_app, list_elem_of_singleton; tauto).
    apply includes_true in Hin as Ht. rewrite Ht.
    cbn [negb]. rewrite andb_false_r, andb_true_r.
    destruct srv; cbn [negb].
    + split; [now apply snoc_NoDup | ]. split; [tauto | ].
      intros j Hj. rewrite elem_of_app, list_elem_of_singleton. tauto.
    + split; [apply without_NoDup; now apply snoc_NoDup | ]. split.
      * rewrite elem_of_without. split; [tauto | discriminate].
      * intros j Hj. rewrite elem_of_without, elem_of_app, list_elem_of_singleton.
        tauto.
Qed.

(** X25. The server's answer is the truth: when [handleToggleLike] is
    called for an idea that is not pending and [likeVote] resolves, the
    promise resolves with the server's [liked] and [likeCount], the idea
    is in [likedIds] exactly when the server says it is liked, no other
    id enters or leaves, [likedIds] stays free of duplicates and equal
    to [likedIdsRef], the votes keep their order and ids, and the votes
    with that id carry the server's like count, the others being
    untouched. *)
Theorem like_toggle_reconciles (i : string) (r : ToggleResult) (st : State) :
  String.prefix "temp-" i = false -> NoDup (likedIds st) ->
  let st1 := fst (toggleStart i st) in
  let st2 := fst (toggleResolved i r st1) in
  snd (toggleResolved i r st1) = mkToggleResult (liked r) (likeCount r)
  /\ NoDup (likedIds st2) /\ likedIdsRef st2 = likedIds st2
  /\ (i ∈ likedIds st2 <-> liked r = true)
  /\ (forall j, j <> i -> (j ∈ likedIds st2 <-> j ∈ likedIds st))
  /\ vote_id <$> votes st2 = vote_id <$> votes st
  /\ (forall k v, votes st2 !! k = Some v ->
        exists v0, votes st !! k = Some v0
          /\ if String.eqb (vote_id v0) i
             then v = withLikeCount v0 (likeCount r)
             else v = v0).
Proof.
  intros Htemp Hnd st1 st2. subst st2 st1. unfold toggleStart. rewrite Htemp.
  cbv zeta. cbn [fst snd toggleResolved likedIds likedIdsRef votes].
  destruct (reconciled_ids (likedIds st) i (liked r) Hnd) as (H1 & H2 & H3).
  cbv zeta in H1, H2, H3.
  split; [reflexivity | ]. split; [exact H1 | ]. split; [reflexivity | ].
  split; [exact H2 | ]. split; [exact H3 | ]. split.
  - rewrite <- !list_fmap_compose. apply list_fmap_ext. intros k v _. cbn.
    destruct (String.eqb (vote_id v) i) eqn:E; cbn [vote_id withLikeCount].
    + rewrite E. reflexivity.
    + rewrite E. reflexivity.
  - intros k v. rewrite !list_lookup_fmap.
    destruct (votes st !! k) as [v0 | ]; [ | discriminate]. cbn [fmap option_fmap option_map].
    intros [= <-]. exists v0. split; [reflexivity | ].
    destruct (String.eqb (vote_id v0) i) eqn:E; cbn [vote_id withLikeCount].
    + rewrite E. reflexivity.
    + rewrite E. reflexivity.
Qed.

Lemma like_toggle_reconciles_witness :
  String.prefix "temp-" "a" = false /\ NoDup (likedIds AppScenario.start)
  /\ ("a" ∈ likedIds (fst (toggleResolved "a" (mkToggleResult true 4)
                             (fst (toggleStart "a" AppScenario.start))))
      <-> liked (mkToggleResult true 4) = true).
Proof.
  assert (Ht : String.prefix "temp-" "a" = false) by reflexivity.
  assert (Hn : NoDup (likedIds AppScenario.start)) by constructor.
  split; [exact Ht | split; [exact Hn | ] ].
  exact (proj1 (proj2 (proj2 (proj2
           (like_toggle_reconciles "a" (mkToggleResult true 4) AppScenario.start
              Ht Hn))))).
Defined.

(** X26. A like that does not reach the server shows a total of 0: when
    [handleToggleLike] is called for a pending idea (an id that starts
    with [temp-]) it changes no state and resolves with
    [{liked: false, likeCount: 0}]; when [likeVote] fails it resolves
    with [{liked: currentlyLiked, likeCount: 0}] and does not undo the
    optimistic update itself.  In both cases the tile records a toast
    with the count 0, turns to the face of the resolved [liked], and is
    no longer busy. *)
Theorem unsuccessful_like_toast (i : string) (st : State) (now : R) (t : Tiles) :
  let out := toggleStart i st in
  let res := match snd out with
             | inr r => r
             | inl cl => snd (toggleFailed cl (fst out))
             end in
  likeCount res = 0%Z
  /\ liked res = (if String.prefix "temp-" i then false
                  else includes (likedIdsRef st) i)
  /\ match snd out with
     | inr _ => fst out = st
     | inl cl => likedIds (fst (toggleFailed cl (fst out))) = likedIds (fst out)
                 /\ votes (fst (toggleFailed cl (fst out))) = votes (fst out)
     end
  /\ toastRef (toggleFulfilled i res now t) !! i
     = Some (mkToast (now + TOAST_MS) 0 (if liked res then like else unlike))
  /\ target <$> (flipRef (toggleFulfilled i res now t) !! i)
     = Some (if liked res then 1 else 0)
  /\ (i ∉ likeBusyRef (toggleFulfilled i res now t)).
Proof.
  intros out res.
  assert (Hres : likeCount res = 0%Z
                 /\ liked res = (if String.prefix "temp-" i then false
                                 else includes (likedIdsRef st) i)).
  { subst res out. unfold toggleStart.
    destruct (String.prefix "temp-" i); cbn; auto. }
  destruct Hres as [Hc Hl]. split; [exact Hc | ]. split; [exact Hl | ]. split.
  - subst out. unfold toggleStart. destruct (String.prefix "temp-" i); cbn; auto.
  - split; [ | split].
    + rewrite toggleFulfilled_toast. now rewrite Hc.
    + rewrite toggleFulfilled_flip. apply setFlipTarget_target.
    + unfold toggleFulfilled. cbn. set_solver.
Qed.

End AppLikes.

(** ** App: submitting an idea *)

Section AppSubmit.
Import IdeaMap App.

Lemma tempId_prefix now : String.prefix "temp-" (tempId now) = true.
Proof. unfold tempId. destruct (pretty now); reflexivity. Qed.

Lemma filter_all {A} (P : A -> Prop) `{forall x, Decision (P x)} (l : list A) :
  Forall P l -> filter P l = l.
Proof.
  induction 1 as [ | a l Ha _ IH]; [reflexivity | ].
  rewrite filter_cons_True by exact Ha. now rewrite IH.
Qed.

(** X27. Submitting an idea: [handleSubmit] calls [submitVote] exactly
    when the trimmed message has 1 to 20 code units; otherwise it only
    sets an error status.  When it calls, the idea appears at once as
    the first idea of the map, pending, under an id that starts with
    [temp-], with a spawn for that id; a tap on it cannot like it
    ([handleToggleLike] resolves at once, without a call); and if the
    call fails and no other vote has that id, the votes and the total
    count are as before the submission. *)
Theorem submission_is_optimistic (trimmed text : string) (now : Z) (x y : R)
    (st : State) :
  let out := submitStart trimmed now x y st in
  (snd out = true <-> (1 <= String.length trimmed <= 20)%nat)
  /\ (snd out = false ->
      votes (fst out) = votes st /\ totalCount (fst out) = totalCount st
      /\ spawn (fst out) = spawn st /\ fst (status (fst out)) = error)
  /\ (snd out = true ->
      ideasOf (votes (fst out))
      = Layout.mkIdea (tempId now) (Some trimmed) None (Some 0%Z) :: ideasOf (votes st)
      /\ spawn (fst out) = Some (mkSpawn (tempId now) x y)
      /\ toggleStart (tempId now) (fst out)
         = (fst out, inr (mkToggleResult false 0))
      /\ (Forall (fun v => vote_id v <> tempId now) (votes st) ->
          votes (submitFailed now text (fst out)) = votes st
          /\ totalCount (submitFailed now text (fst out)) = totalCount st)).
Proof.
  intros out. subst out. unfold submitStart.
  destruct (String.length trimmed =? 0)%nat eqn:E0.
  - apply Nat.eqb_eq in E0. cbn [fst snd votes totalCount spawn status].
    split; [split; [discriminate | lia] | ]. split; [auto | discriminate].
  - apply Nat.eqb_neq in E0. destruct (20 <? String.length trimmed)%nat eqn:E1.
    + apply Nat.ltb_lt in E1. cbn [fst snd votes totalCount spawn status].
      split; [split; [discriminate | lia] | ]. split; [auto | discriminate].
    + apply Nat.ltb_ge in E1. cbn [fst snd votes totalCount spawn status].
      split; [split; [lia | reflexivity] | ]. split; [discriminate | intros _].
      split; [ | split; [reflexivity | split] ].
      * unfold ideasOf. rewrite filter_cons_True; [reflexivity | ].
        cbn [vote_message default from_option]. unfold default. cbn. lia.
      * unfold toggleStart. now rewrite tempId_prefix.
      * intros Hfresh. unfold submitFailed. cbn [votes totalCount]. split.
        -- rewrite filter_cons_False by (cbn [vote_id]; tauto).
           now apply filter_all.
        -- destruct (totalCount st) as [c | ]; [ | reflexivity].
           f_equal. lia.
Qed.

Lemma submission_is_optimistic_witness :
  snd (submitStart "idea" 7 0 0 AppScenario.start) = true
  /\ spawn (fst (submitStart "idea" 7 0 0 AppScenario.start))
     = Some (mkSpawn (tempId 7) 0 0).
Proof.
  assert (H : snd (submitStart "idea" 7 0 0 AppScenario.start) = true)
    by reflexivity.
  split; [exact H | ].
  exact (proj1 (proj2 (proj2 (proj2
           (submission_is_optimistic "idea" EmptyString 7 0 0 AppScenario.start))
           H))).
Defined.

End AppSubmit.

(** ** Cloud functions: the like transaction *)

Section LikeTransaction.
Import IdeaMap Functions.

Lemma likesOf_insert db v S0 v' vs us st :
  likesOf (mkDb vs (<[v := S0]> (voteLikes db)) us st) v'
  = if decide (v = v') then S0 else likesOf db v'.
Proof.
  unfold likesOf. cbn [voteLikes]. destruct (decide (v = v')) as [<- | Hne].
  - now rewrite lookup_insert_eq.
  - now rewrite lookup_insert_ne.
Qed.

Lemma likedBy_insert db u S0 u' vs ls st :
  likedBy (mkDb vs ls (<[u := S0]> (userLikes db)) st) u'
  = if decide (u = u') then S0 else likedBy db u'.
Proof.
  unfold likedBy. cbn [userLikes]. destruct (decide (u = u')) as [<- | Hne].
  - now rewrite lookup_insert_eq.
  - now rewrite lookup_insert_ne.
Qed.

Lemma size_remove (L : gset string) u : u ∈ L -> S (size (L ∖ {[u]})) = size L.
Proof.
  intros Hu. assert (HL : L = {[u]} ∪ (L ∖ {[u]})).
  { apply set_eq. intros x. rewrite elem_of_union, elem_of_difference,
      elem_of_singleton. destruct (decide (x = u)) as [-> | ]; tauto. }
  pose proof (size_union (C := gset string) {[u]} (L ∖ {[u]}) ltac:(set_solver))
    as Hsz.
  rewrite size_singleton, <- HL in Hsz. lia.
Qed.

Lemma size_add (L : gset string) u : u ∉ L -> size ({[u]} ∪ L) = S (size L).
Proof.
  intros Hu.
  pose proof (size_union (C := gset string) {[u]} L ltac:(set_solver)) as Hsz.
  rewrite size_singleton in Hsz. lia.
Qed.

Lemma likeTx_spec uid v db db' res :
  consistent db -> likeTx uid v db = Some (db', res) ->
  consistent db'
  /\ liked res = negb (bool_decide (uid ∈ likesOf db v))
  /\ (uid ∈ likesOf db' v <-> liked res = true)
  /\ likeCount res = Z.of_nat (size (likesOf db' v))
  /\ (forall u, u <> uid -> (u ∈ likesOf db' v <-> u ∈ likesOf db v))
  /\ (forall v', v' <> v -> likesOf db' v' = likesOf db v')
  /\ (forall u, u <> uid -> likedBy db' u = likedBy db u).
Proof.
  intros [Hmirror Hcount]. unfold likeTx.
  destruct (votes db !! v) as [d | ] eqn:Ev; [ | discriminate].
  pose proof (Hcount v d Ev) as Hd. rewrite Hd.
  unfold default. cbn [from_option Datatypes.id].
  intros [= <- <-]. cbn [liked likeCount].
  remember (likesOf db v) as L eqn:HL. remember (likedBy db uid) as M eqn:HM.
  assert (Hnext : Z.max 0 (Z.max 0 (Z.of_nat (size L))
                           + (if bool_decide (uid ∈ L) then -1 else 1))
                  = Z.of_nat (size (if bool_decide (uid ∈ L)
                                    then L ∖ {[uid]} else {[uid]} ∪ L))).
  { destruct (bool_decide_reflect (uid ∈ L)) as [Hin | Hout].
    - pose proof (size_remove L uid Hin). lia.
    - pose proof (size_add L uid Hout). lia. }
  rewrite Hnext.
  split; [split | ].
  - intros v0 u0. rewrite likesOf_insert, likedBy_insert.
    specialize (Hmirror v0 u0).
    destruct (decide (v = v0)) as [<- | Hv], (decide (uid = u0)) as [<- | Hu];
      rewrite <- ?HL, <- ?HM in Hmirror;
      destruct (bool_decide (uid ∈ L)); set_solver.
  - intros v0 d0. cbn [votes]. rewrite likesOf_insert.
    destruct (decide (v = v0)) as [<- | Hv].
    + rewrite lookup_insert_eq. intros [= <-]. reflexivity.
    + rewrite lookup_insert_ne by assumption. apply Hcount.
  - rewrite likesOf_insert, decide_True by reflexivity.
    split; [reflexivity | ]. split; [ | split; [reflexivity | split; [ | split] ] ].
    + destruct (bool_decide_reflect (uid ∈ L)); cbn [negb]; set_solver.
    + intros u Hu. destruct (bool_decide (uid ∈ L)); set_solver.
    + intros v' Hv. rewrite likesOf_insert. now rewrite decide_False by congruence.
    + intros u Hu. rewrite likedBy_insert. now rewrite decide_False by congruence.
Qed.

Lemma likeTx_writes uid v db db' res :
  likeTx uid v db = Some (db', res) ->
  exists d, votes db !! v = Some d
    /\ votes db' = <[v := mkVoteDoc (doc_uid d) (doc_message d)
                                    (Some (likeCount res)) (doc_createdAt d)]>
                     (votes db)
    /\ stats db'
       = mkStatsDoc (s_voteCount (stats db))
           (increment (if liked res then 1 else -1)%Z (s_totalLikes (stats db)))
           (increment (if liked res then 1 else -1)%Z (s_score (stats db))).
Proof.
  unfold likeTx. destruct (votes db !! v) as [d | ]; [ | discriminate].
  intros [= <- <-]. exists d. cbn [votes stats liked likeCount].
  split; [reflexivity | split; [reflexivity | ] ].
  now destruct (bool_decide (uid ∈ likesOf db v)).
Qed.

Lemma fresh_consistent : consistent ServerScenario.fresh.
Proof.
  split.
  - intros v u. unfold likesOf, likedBy, ServerScenario.fresh. cbn [voteLikes userLikes].
    rewrite !lookup_empty. cbn. set_solver.
  - intros v d. unfold likesOf, ServerScenario.fresh. cbn [votes voteLikes].
    rewrite lookup_empty. cbn [default from_option]. unfold default. cbn.
    intros H. apply lookup_singleton_Some in H as [_ <-]. reflexivity.
Qed.

(** X28. The like transaction keeps the books: on a database where the
    two like indexes mirror each other and every vote's [likeCount] is
    the number of its like documents, [likeVote] fails with [NOT_FOUND]
    exactly when the vote does not exist, and otherwise leaves such a
    database again, flips the caller's like on that vote and nothing
    else (no other user's like, no other vote), and answers with the new
    state of the caller's like and the new number of likes. *)
Theorem likeVote_keeps_counts (uid v : string) (db : Db) :
  consistent db ->
  match likeTx uid v db with
  | None => votes db !! v = None
  | Some (db', res) =>
      is_Some (votes db !! v)
      /\ consistent db'
      /\ liked res = negb (bool_decide (uid ∈ likesOf db v))
      /\ (uid ∈ likesOf db' v <-> liked res = true)
      /\ likeCount res = Z.of_nat (size (likesOf db' v))
      /\ (forall u, u <> uid -> (u ∈ likesOf db' v <-> u ∈ likesOf db v))
      /\ (forall v', v' <> v -> likesOf db' v' = likesOf db v')
      /\ (forall u, u <> uid -> likedBy db' u = likedBy db u)
  end.
Proof.
  intros Hc. destruct (likeTx uid v db) as [[db' res] | ] eqn:E.
  - split; [ | exact (likeTx_spec uid v db db' res Hc E)].
    unfold likeTx in E. destruct (votes db !! v); [eauto | discriminate].
  - unfold likeTx in E. destruct (votes db !! v); [discriminate | reflexivity].
Qed.

Lemma likeVote_keeps_counts_witness :
  consistent ServerScenario.fresh
  /\ match likeTx "u1" "v1" ServerScenario.fresh with
     | None => False
     | Some (db', res) => consistent db' /\ liked res = true
     end.
Proof.
  split; [exact fresh_consistent | ].
  pose proof (likeVote_keeps_counts "u1" "v1" ServerScenario.fresh fresh_consistent)
    as H.
  destruct (likeTx "u1" "v1" ServerScenario.fresh) as [[db' res] | ] eqn:E.
  - destruct H as (_ & Hc & Hl & _). split; [exact Hc | ]. rewrite Hl.
    apply negb_true_iff, bool_decide_eq_false.
    unfold likesOf, ServerScenario.fresh. cbn [voteLikes].
    rewrite lookup_empty. cbn. set_solver.
  - unfold ServerScenario.fresh in H. cbn [votes] in H.
    rewrite lookup_singleton_eq in H. discriminate.
Defined.

(** X29. Liking twice is liking not at all: on such a database, a
    second [likeVote] by the same user for the same vote succeeds,
    answers with the opposite [liked], and gives back the vote documents,
    both like indexes and the like and score totals of before the first
    call. *)
Theorem likeVote_twice_restores (uid v : string) (db db1 : Db) (r1 : ToggleResult) :
  consistent db -> likeTx uid v db = Some (db1, r1) ->
  exists db2 r2,
    likeTx uid v db1 = Some (db2, r2)
    /\ liked r2 = negb (liked r1)
    /\ votes db2 = votes db
    /\ (forall v', likesOf db2 v' = likesOf db v')
    /\ (forall u, likedBy db2 u = likedBy db u)
    /\ s_voteCount (stats db2) = s_voteCount (stats db)
    /\ default 0%Z (s_totalLikes (stats db2)) = default 0%Z (s_totalLikes (stats db))
    /\ default 0%Z (s_score (stats db2)) = default 0%Z (s_score (stats db)).
Proof.
  intros Hc H1. pose proof (likeTx_spec uid v db db1 r1 Hc H1)
    as (Hc1 & Hl1 & Hin1 & Hn1 & Hothers1 & Hvotes1 & Husers1).
  destruct (likeTx_writes uid v db db1 r1 H1) as (d & Ev & Hw1 & Hs1).
  destruct Hc as [Hmirror Hcount]. pose proof (Hcount v d Ev) as Hd.
  destruct (likeTx uid v db1) as [[db2 r2] | ] eqn:E2.
  2: { unfold likeTx in E2. rewrite Hw1, lookup_insert_eq in E2. discriminate. }
  pose proof (likeTx_spec uid v db1 db2 r2 Hc1 E2)
    as (Hc2 & Hl2 & Hin2 & Hn2 & Hothers2 & Hvotes2 & Husers2).
  destruct (likeTx_writes uid v db1 db2 r2 E2) as (d1 & Ev1 & Hw2 & Hs2).
  rewrite Hw1, lookup_insert_eq in Ev1. injection Ev1 as <-.
  cbn [doc_uid doc_message doc_createdAt] in Hw2.
  exists db2, r2. split; [reflexivity | ].
  assert (Hflip : liked r2 = negb (liked r1)).
  { rewrite Hl2. f_equal. destruct (liked r1) eqn:El.
    - apply bool_decide_eq_true. now apply Hin1.
    - apply bool_decide_eq_false. intros Hin. apply Hin1 in Hin. congruence. }
  split; [exact Hflip | ].
  assert (Hback : forall u, u ∈ likesOf db2 v <-> u ∈ likesOf db v).
  { intros u. destruct (decide (u = uid)) as [-> | Hu].
    - rewrite Hin2, Hflip, Hl1, negb_involutive, bool_decide_eq_true. reflexivity.
    - rewrite (Hothers2 u Hu). apply (Hothers1 u Hu). }
  assert (Hsets : forall v', likesOf db2 v' = likesOf db v').
  { intros v'. destruct (decide (v' = v)) as [-> | Hv].
    - apply set_eq. exact Hback.
    - rewrite (Hvotes2 v' Hv). apply (Hvotes1 v' Hv). }
  assert (Hmine : forall u, likedBy db2 u = likedBy db u).
  { intros u. apply set_eq. intros v'.
    destruct Hc2 as [Hm2 _]. rewrite <- (Hm2 v' u), <- (Hmirror v' u).
    now rewrite Hsets. }
  split; [ | split; [exact Hsets | split; [exact Hmine | ] ] ].
  - rewrite Hw2, Hw1, insert_insert_eq. apply insert_id. rewrite Ev. f_equal.
    destruct d as [du dm dl dc]. cbn [doc_uid doc_message doc_createdAt doc_likeCount] in *.
    f_equal. rewrite Hd, Hn2, Hsets. reflexivity.
  - rewrite Hs2, Hs1. cbn [s_voteCount s_totalLikes s_score]. rewrite Hflip.
    split; [reflexivity | ]. unfold increment, default.
    cbn [from_option Datatypes.id].
    destruct (liked r1); cbn [negb]; split; lia.
Qed.

Lemma likeVote_twice_restores_witness :
  consistent ServerScenario.fresh
  /\ exists db1 r1, likeTx "u1" "v1" ServerScenario.fresh = Some (db1, r1)
       /\ exists db2 r2, likeTx "u1" "v1" db1 = Some (db2, r2)
            /\ votes db2 = votes ServerScenario.fresh.
Proof.
  split; [exact fresh_consistent | ].
  destruct (likeTx "u1" "v1" ServerScenario.fresh) as [[db1 r1] | ] eqn:E.
  - exists db1, r1. split; [reflexivity | ].
    destruct (likeVote_twice_restores "u1" "v1" ServerScenario.fresh db1 r1
                fresh_consistent E) as (db2 & r2 & H2 & _ & Hv & _).
    exists db2, r2. split; [exact H2 | exact Hv].
  - unfold likeTx, ServerScenario.fresh in E. cbn [votes] in E.
    rewrite lookup_singleton_eq in E. discriminate.
Defined.

End LikeTransaction.

(** ** Cloud functions: accepting a submission *)

Section SubmitFunction.
Import Functions.



End SubmitFunction.
